(** * Control-flow-graph builder of app.py: embedding and verification

    The Python program normalises a source text into a sequence of trimmed
    lines, builds a control-flow graph with a recursive block parser
    ([UniversalCFGBuilder.parse_block]) over a networkx [DiGraph], and
    derives metrics from the graph ([calculate_metrics]).

    Conventions of the embedding:
    - a Python [str] is a Rocq [string]; a character stands for the code
      point of the same number (code points below 256);
    - a [dict] is a [gmap]; the builder object is a record that is passed
      in and returned by every method that mutates it;
    - the [while] loops of [parse_block] are recursive functions on a fuel
      argument; [parse] supplies enough fuel, which is proved.  The
      recursion limit of the Python interpreter is not modelled. *)

From stdpp Require Import gmap strings list fin_maps pretty relations.
From Stdlib Require Import Ascii ZArith Lia.
From Stdlib Require String.

(** ** Python string operations *)

Module PyStr.

Definition newline : ascii := "010"%char.
Definition dquote : ascii := "034"%char.
Definition nl : string := String newline EmptyString.

(** [str.isspace] on one character, for code points below 256. *)
Definition isspace (c : ascii) : bool :=
  let n := nat_of_ascii c in
  ((9 <=? n) && (n <=? 13)) || ((28 <=? n) && (n <=? 32))
  || (n =? 133) || (n =? 160).

(** [s.startswith(p)] *)
Definition startswith (s p : string) : bool := String.prefix p s.

Fixpoint lstrip (s : string) : string :=
  match s with
  | EmptyString => EmptyString
  | String c s' => if isspace c then lstrip s' else s
  end.

Fixpoint rstrip (s : string) : string :=
  match s with
  | EmptyString => EmptyString
  | String c s' =>
      match rstrip s' with
      | EmptyString => if isspace c then EmptyString else String c EmptyString
      | r => String c r
      end
  end.

(** [s.strip()] *)
Definition strip (s : string) : string := rstrip (lstrip s).

(** [s.replace(old, new)] for a non-empty [old]: the occurrences are
    replaced from left to right and do not overlap; [skip] counts the
    characters of a matched occurrence that are still to be dropped. *)
Fixpoint replace_go (old new : string) (skip : nat) (s : string) : string :=
  match s with
  | EmptyString => EmptyString
  | String c s' =>
      match skip with
      | S k => replace_go old new k s'
      | O =>
          if String.prefix old s
          then new +:+ replace_go old new (String.length old - 1) s'
          else String c (replace_go old new 0 s')
      end
  end.

Definition replace (old new s : string) : string := replace_go old new 0 s.

(** [s.split('\n')] *)
Fixpoint split_lines (s : string) : list string :=
  match s with
  | EmptyString => [EmptyString]
  | String c s' =>
      if Ascii.eqb c newline then EmptyString :: split_lines s'
      else match split_lines s' with
           | h :: t => String c h :: t
           | [] => [String c EmptyString]
           end
  end.

(** [sep.join(l)] *)
Fixpoint join (sep : string) (l : list string) : string :=
  match l with
  | [] => EmptyString
  | [x] => x
  | x :: l' => x +:+ sep +:+ join sep l'
  end.

(** [c in s] for a one-character string [c]. *)
Fixpoint contains_char (c : ascii) (s : string) : bool :=
  match s with
  | EmptyString => false
  | String d s' => Ascii.eqb c d || contains_char c s'
  end.

(** [re.sub(marker + '.*', '', s)]: every occurrence of [marker] is deleted
    together with the rest of its line ([.] matches all but a newline).
    [skipping] is true while inside a match. *)
Fixpoint strip_comments_go (marker : string) (skipping : bool) (s : string) : string :=
  match s with
  | EmptyString => EmptyString
  | String c s' =>
      if skipping then
        if Ascii.eqb c newline then String c (strip_comments_go marker false s')
        else strip_comments_go marker true s'
      else if String.prefix marker s then strip_comments_go marker true s'
      else String c (strip_comments_go marker false s')
  end.

Definition strip_comments (marker s : string) : string :=
  strip_comments_go marker false s.

(** [s[:n]] and [s[-n:]] (for [n <= len(s)]) *)
Definition take (n : nat) (s : string) : string := String.substring 0 n s.
Definition take_last (n : nat) (s : string) : string :=
  String.substring (String.length s - n) n s.

(** Truth value of a string: the empty string is false. *)
Definition truthy (s : string) : bool :=
  match s with EmptyString => false | _ => true end.

End PyStr.

(** ** The networkx [DiGraph], as far as the program uses it

    [_node] maps a node id to its attribute dict.  The adjacency structure
    of a [DiGraph] is a dict of dicts [_adj[u][v]] holding one attribute
    dict per ordered pair; it is kept here as one map keyed by the pair
    [(u, v)].  The only edge attribute the program sets is [label], whose
    value is [None] or a string, so an edge's attribute dict is represented
    by that value. *)

Record DiGraph : Type := mkDiGraph {
  _node : gmap string (gmap string string);
  _adj : gmap (string * string) (option string)
}.

Module nx.

(** [nx.DiGraph()] *)
Definition empty : DiGraph := mkDiGraph ∅ ∅.

(** [G.add_node(n, **attrs)]: a new node gets [attrs]; the attribute dict
    of an existing node is updated with them. *)
Definition add_node (G : DiGraph) (n : string) (attrs : gmap string string) : DiGraph :=
  match _node G !! n with
  | None => mkDiGraph (<[n := attrs]> (_node G)) (_adj G)
  | Some old => mkDiGraph (<[n := attrs ∪ old]> (_node G)) (_adj G)
  end.

(** The nodes [add_edge] creates for endpoints that are missing. *)
Definition ensure_node (n : string) (nodes : gmap string (gmap string string))
  : gmap string (gmap string string) :=
  match nodes !! n with
  | None => <[n := ∅]> nodes
  | Some _ => nodes
  end.

(** [G.add_edge(u, v, label=l)]: missing endpoints are added; the
    attribute dict of the pair is fetched (or created) and updated, so an
    existing edge keeps its place and takes the new label. *)
Definition add_edge (G : DiGraph) (u v : string) (l : option string) : DiGraph :=
  mkDiGraph (ensure_node v (ensure_node u (_node G))) (<[(u, v) := l]> (_adj G)).

Definition number_of_nodes (G : DiGraph) : nat := size (_node G).
Definition number_of_edges (G : DiGraph) : nat := size (_adj G).

(** [G.out_degree(n)]: the number of successors of [n]. *)
Definition out_degree (G : DiGraph) (n : string) : nat :=
  size (filter (λ e : (string * string) * option string, e.1.1 = n) (_adj G)).

(** [G.in_degree(n)]: the number of predecessors of [n]. *)
Definition in_degree (G : DiGraph) (n : string) : nat :=
  size (filter (λ e : (string * string) * option string, e.1.2 = n) (_adj G)).

Definition has_node (G : DiGraph) (n : string) : Prop := is_Some (_node G !! n).
Definition has_edge (G : DiGraph) (u v : string) : Prop := is_Some (_adj G !! (u, v)).

End nx.

(** ** The builder *)

Inductive Mode : Type := c_style | python_style.

Definition Mode_eqb (a b : Mode) : bool :=
  match a, b with
  | c_style, c_style | python_style, python_style => true
  | _, _ => false
  end.

Record UniversalCFGBuilder : Type := mkBuilder {
  graph : DiGraph;
  node_counter : nat;
  lines : list string;
  cursor : nat;
  mode : Mode
}.

(** [UniversalCFGBuilder.__init__] *)
Definition init : UniversalCFGBuilder := mkBuilder nx.empty 0 [] 0 c_style.

Definition set_graph (G : DiGraph) (self : UniversalCFGBuilder) : UniversalCFGBuilder :=
  mkBuilder G (node_counter self) (lines self) (cursor self) (mode self).

(** [self.cursor += 1] *)
Definition advance (self : UniversalCFGBuilder) : UniversalCFGBuilder :=
  mkBuilder (graph self) (node_counter self) (lines self) (S (cursor self)) (mode self).

(** [f"N{k}"] *)
Definition node_id (k : nat) : string := "N" +:+ pretty k.

(** The label shown for a node: trimmed, double quotes turned into single
    ones, and cut to 20 + 3 + 15 characters when longer than 40. *)
Definition clean_label (label : string) : string :=
  let clean := PyStr.replace (String PyStr.dquote EmptyString) "'" (PyStr.strip label) in
  if 40 <? String.length clean
  then PyStr.take 20 clean +:+ "..." +:+ PyStr.take_last 15 clean
  else clean.

Definition node_attrs (label shape style fillcolor : string) : gmap string string :=
  <["label" := label]> (<["shape" := shape]> (<["style" := style]>
    (<["fillcolor" := fillcolor]> ∅))).

(** [new_node(label, shape, style, fillcolor)]; the defaults of the Python
    signature are written out at the call sites. *)
Definition new_node (label shape style fillcolor : string) (self : UniversalCFGBuilder)
  : string * UniversalCFGBuilder :=
  let counter := S (node_counter self) in
  let id := node_id counter in
  let G := nx.add_node (graph self) id (node_attrs (clean_label label) shape style fillcolor) in
  (id, mkBuilder G counter (lines self) (cursor self) (mode self)).

(** [connect(u, v, label)] *)
Definition connect (u v : string) (label : option string) (self : UniversalCFGBuilder)
  : UniversalCFGBuilder :=
  if PyStr.truthy u && PyStr.truthy v
  then set_graph (nx.add_edge (graph self) u v label) self
  else self.

(** [flush_buffer()] of [parse_block]: returns the builder and the new
    [current_node]; the buffer is empty afterwards in both cases. *)
Definition flush_buffer (self : UniversalCFGBuilder) (current_node : string)
    (buffer : list string) : UniversalCFGBuilder * string :=
  match buffer with
  | [] => (self, current_node)
  | _ =>
      let label := PyStr.join PyStr.nl buffer in
      let '(block, self) := new_node label "box" "filled" "white" self in
      let self := connect current_node block None self in
      (self, block)
  end.

(** ** Keyword recognition

    [parse_block] tests the current line against the keywords in a fixed
    order; [classify] is that sequence of tests, and [classify_chain] the
    one of the inner loop that follows an [if] branch. *)

Inductive LineKind : Type :=
  | KBranchEnd    (* starts with elif or else *)
  | KBlockEnd     (* the line "}" in c_style mode *)
  | KBlockStart   (* the line "{" in c_style mode *)
  | KLoop         (* starts with for or while *)
  | KIf           (* starts with if *)
  | KReturn       (* starts with return *)
  | KStatement.   (* anything else *)

Definition classify (m : Mode) (line : string) : LineKind :=
  if PyStr.startswith line "elif" || PyStr.startswith line "else" then KBranchEnd
  else if Mode_eqb m c_style && String.eqb line "}" then KBlockEnd
  else if Mode_eqb m c_style && String.eqb line "{" then KBlockStart
  else if PyStr.startswith line "for" || PyStr.startswith line "while" then KLoop
  else if PyStr.startswith line "if" then KIf
  else if PyStr.startswith line "return" then KReturn
  else KStatement.

Inductive ChainKind : Type := CElif | CElse | COther.

Definition classify_chain (next_line : string) : ChainKind :=
  if PyStr.startswith next_line "elif" || PyStr.startswith next_line "else if" then CElif
  else if PyStr.startswith next_line "else" then CElse
  else COther.

(** ** The straight-line pieces of [parse_block] *)

(** Section 4, up to the recursive call: flush, header node, edge from the
    predecessor, consume the header line. *)
Definition loop_head (self : UniversalCFGBuilder) (current_node : string)
    (buffer : list string) (line : string) : UniversalCFGBuilder * string :=
  let '(self, current_node) := flush_buffer self current_node buffer in
  let '(loop_cond, self) := new_node line "diamond" "filled" "#FFF9C4" self in
  let self := connect current_node loop_cond None self in
  (advance self, loop_cond).

(** Section 4, after the recursive call: back-edge, exit node, False edge. *)
Definition loop_tail (self : UniversalCFGBuilder) (body_end loop_cond : string)
  : UniversalCFGBuilder * string :=
  let self := connect body_end loop_cond (Some "Loop") self in
  let '(exit_node, self) := new_node "Exit Loop" "point" "filled" "white" self in
  let self := connect loop_cond exit_node (Some "False") self in
  (self, exit_node).

(** Section 5.A, up to the recursive call. *)
Definition if_head (self : UniversalCFGBuilder) (current_node : string)
    (buffer : list string) (line : string) : UniversalCFGBuilder * string :=
  let '(self, current_node) := flush_buffer self current_node buffer in
  let '(cond_node, self) := new_node line "diamond" "filled" "#FFE0B2" self in
  let self := connect current_node cond_node None self in
  (advance self, cond_node).

(** Section 5.B, the elif case up to the recursive call. *)
Definition elif_head (self : UniversalCFGBuilder) (last_decision next_line : string)
  : UniversalCFGBuilder * string :=
  let self := advance self in
  let '(elif_node, self) := new_node next_line "diamond" "filled" "#FFE0B2" self in
  let self := connect last_decision elif_node (Some "False") self in
  (self, elif_node).

(** Section 5.B, the else case up to the recursive call. *)
Definition else_head (self : UniversalCFGBuilder) (last_decision : string)
  : UniversalCFGBuilder * string :=
  let self := advance self in
  let '(else_start, self) := new_node "Else" "point" "filled" "white" self in
  let self := connect last_decision else_start (Some "False") self in
  (self, else_start).

(** [if last_decision:] on a value that is [None] or a string. *)
Definition truthy_opt (o : option string) : bool :=
  match o with Some s => PyStr.truthy s | None => false end.

(** Section 5.C: merge node, one edge per recorded exit, and the False
    edge of the last decision when the chain is still open. *)
Definition merge (self : UniversalCFGBuilder) (exit_points : list string)
    (last_decision : option string) : UniversalCFGBuilder * string :=
  let '(merge_node, self) := new_node "Merge" "point" "filled" "white" self in
  let self := foldl (λ self p, connect p merge_node None self) self exit_points in
  let self :=
    match last_decision with
    | Some d => if PyStr.truthy d then connect d merge_node (Some "False") self else self
    | None => self
    end in
  (self, merge_node).

(** Section 6. *)
Definition return_stmt (self : UniversalCFGBuilder) (current_node : string)
    (buffer : list string) (line : string) : UniversalCFGBuilder * string :=
  let '(self, current_node) := flush_buffer self current_node buffer in
  let '(ret_node, self) := new_node line "box" "filled" "#FFCDD2" self in
  let self := connect current_node ret_node None self in
  (advance self, ret_node).

(** ** [parse_block]

    [block_loop] is the outer [while] loop of [parse_block], entered with
    the values of the local variables [current_node] and [buffer];
    [chain_loop] is the inner [while] loop of section 5.B, entered with
    [exit_points] and [last_decision] (a string as long as the loop runs)
    and returning their final values.  One unit of fuel is spent per loop
    iteration; [None] means that the fuel ran out. *)

Fixpoint block_loop (fuel : nat) (self : UniversalCFGBuilder) (current_node : string)
    (buffer : list string) {struct fuel} : option (UniversalCFGBuilder * string) :=
  match fuel with
  | O => None
  | S fuel =>
      match lines self !! cursor self with
      | None => Some (flush_buffer self current_node buffer)
      | Some line =>
          match classify (mode self) line with
          | KBranchEnd => Some (flush_buffer self current_node buffer)
          | KBlockEnd =>
              let '(self, current_node) := flush_buffer self current_node buffer in
              Some (advance self, current_node)
          | KBlockStart => block_loop fuel (advance self) current_node buffer
          | KLoop =>
              let '(self, loop_cond) := loop_head self current_node buffer line in
              match block_loop fuel self loop_cond [] with
              | None => None
              | Some (self, body_end) =>
                  let '(self, exit_node) := loop_tail self body_end loop_cond in
                  block_loop fuel self exit_node []
              end
          | KIf =>
              let '(self, cond_node) := if_head self current_node buffer line in
              match block_loop fuel self cond_node [] with
              | None => None
              | Some (self, true_end) =>
                  match chain_loop fuel self [true_end] cond_node with
                  | None => None
                  | Some (self, exit_points, last_decision) =>
                      let '(self, merge_node) := merge self exit_points last_decision in
                      block_loop fuel self merge_node []
                  end
              end
          | KReturn => Some (return_stmt self current_node buffer line)
          | KStatement => block_loop fuel (advance self) current_node (buffer ++ [line])
          end
      end
  end
with chain_loop (fuel : nat) (self : UniversalCFGBuilder) (exit_points : list string)
    (last_decision : string) {struct fuel}
    : option (UniversalCFGBuilder * list string * option string) :=
  match fuel with
  | O => None
  | S fuel =>
      match lines self !! cursor self with
      | None => Some (self, exit_points, Some last_decision)
      | Some next_line =>
          match classify_chain next_line with
          | CElif =>
              let '(self, elif_node) := elif_head self last_decision next_line in
              match block_loop fuel self elif_node [] with
              | None => None
              | Some (self, elif_end) =>
                  chain_loop fuel self (exit_points ++ [elif_end]) elif_node
              end
          | CElse =>
              let '(self, else_start) := else_head self last_decision in
              match block_loop fuel self else_start [] with
              | None => None
              | Some (self, else_end) => Some (self, exit_points ++ [else_end], None)
              end
          | COther => Some (self, exit_points, Some last_decision)
          end
      end
  end.

(** Fuel that lets every remaining line be consumed. *)
Definition enough_fuel (self : UniversalCFGBuilder) : nat :=
  S (length (lines self) - cursor self).

(** [parse_block(entry_node)] *)
Definition parse_block (self : UniversalCFGBuilder) (entry_node : string)
  : option (UniversalCFGBuilder * string) :=
  block_loop (enough_fuel self) self entry_node [].

(** ** [parse] *)

(** Step 1 of [parse]: mode detection and normalisation into lines. *)
Definition normalize (code_text : string) : Mode * list string :=
  let '(m, code_text) :=
    if PyStr.contains_char "{" code_text && PyStr.contains_char "}" code_text then
      let code_text := PyStr.strip_comments "//" code_text in
      let code_text := PyStr.replace "{" (PyStr.nl +:+ "{" +:+ PyStr.nl) code_text in
      let code_text := PyStr.replace "}" (PyStr.nl +:+ "}" +:+ PyStr.nl) code_text in
      let code_text := PyStr.replace ";" (";" +:+ PyStr.nl) code_text in
      let code_text := PyStr.replace "else if" "elif" code_text in
      (c_style, code_text)
    else (python_style, PyStr.strip_comments "#" code_text) in
  (m, List.filter PyStr.truthy (List.map PyStr.strip (PyStr.split_lines code_text))).

(** The rest of [parse], on the normalised lines.  The graph and the node
    counter are the ones the builder holds when [parse] is called. *)
Definition parse_lines (self : UniversalCFGBuilder) (m : Mode) (ls : list string)
  : option UniversalCFGBuilder :=
  let self := mkBuilder (graph self) (node_counter self) ls 0 m in
  let '(start_node, self) := new_node "START" "oval" "filled" "#C8E6C9" self in
  match parse_block self start_node with
  | None => None
  | Some (self, last_node) =>
      let '(end_node, self) := new_node "END" "oval" "filled" "#FFCDD2" self in
      Some (connect last_node end_node None self)
  end.

(** [parse(code_text)]: the builder after the call; the graph returned is
    [graph] of it. *)
Definition parse (self : UniversalCFGBuilder) (code_text : string)
  : option UniversalCFGBuilder :=
  let '(m, ls) := normalize code_text in parse_lines self m ls.

(** ** [calculate_metrics] *)

(** [not G]: a graph is false when it has no node. *)
Definition graph_falsy (G : DiGraph) : bool := Nat.eqb (nx.number_of_nodes G) 0.

(** [len([n for n in G.nodes() if G.out_degree(n) > 1])] *)
Definition predicates (G : DiGraph) : nat :=
  size (filter (λ na : string * gmap string string, 1 < nx.out_degree G na.1) (_node G)).

Definition calculate_metrics (G : DiGraph) : gmap string Z :=
  if graph_falsy G then ∅
  else
    let n := Z.of_nat (nx.number_of_nodes G) in
    let e := Z.of_nat (nx.number_of_edges G) in
    let p := Z.of_nat (predicates G) in
    let cc := (e - n + 2)%Z in
    <["Nodes" := n]> (<["Edges" := e]> (<["Complexity" := cc]>
      (<["Predicates" := p]> (<["Regions" := cc]> ∅)))).

(** ** Executions of [parse_block] as a relation

    [block_exec self cur buf self' out k] is one call of the outer loop of
    [parse_block] from the builder [self] with [current_node = cur] and
    [buffer = buf], returning [out] and leaving the builder [self'].  The
    index [k] records through which [return] of the Python function the
    call left.  [chain_exec] is the inner loop of section 5.B; it also
    records how each branch whose exit it appends has ended. *)

Inductive ExitKind : Type :=
  | ByPeek      (* at a line starting with elif/else, left unconsumed *)
  | ByBrace     (* at a "}" line, consumed *)
  | ByReturn    (* at a return line, consumed *)
  | ByEnd.      (* at the end of the input *)

Inductive block_exec : UniversalCFGBuilder → string → list string →
    UniversalCFGBuilder → string → ExitKind → Prop :=
  | exec_end self cur buf self' out :
      lines self !! cursor self = None →
      flush_buffer self cur buf = (self', out) →
      block_exec self cur buf self' out ByEnd
  | exec_peek self cur buf line self' out :
      lines self !! cursor self = Some line →
      classify (mode self) line = KBranchEnd →
      flush_buffer self cur buf = (self', out) →
      block_exec self cur buf self' out ByPeek
  | exec_brace self cur buf line self1 out :
      lines self !! cursor self = Some line →
      classify (mode self) line = KBlockEnd →
      flush_buffer self cur buf = (self1, out) →
      block_exec self cur buf (advance self1) out ByBrace
  | exec_open self cur buf line self' out k :
      lines self !! cursor self = Some line →
      classify (mode self) line = KBlockStart →
      block_exec (advance self) cur buf self' out k →
      block_exec self cur buf self' out k
  | exec_loop self cur buf line self1 loop_cond self2 body_end kb self3 exit_node self' out k :
      lines self !! cursor self = Some line →
      classify (mode self) line = KLoop →
      loop_head self cur buf line = (self1, loop_cond) →
      block_exec self1 loop_cond [] self2 body_end kb →
      loop_tail self2 body_end loop_cond = (self3, exit_node) →
      block_exec self3 exit_node [] self' out k →
      block_exec self cur buf self' out k
  | exec_if self cur buf line self1 cond_node self2 true_end kb self3 exit_points kinds
        last_decision self4 merge_node self' out k :
      lines self !! cursor self = Some line →
      classify (mode self) line = KIf →
      if_head self cur buf line = (self1, cond_node) →
      block_exec self1 cond_node [] self2 true_end kb →
      chain_exec self2 [true_end] [kb] cond_node self3 exit_points kinds last_decision →
      merge self3 exit_points last_decision = (self4, merge_node) →
      block_exec self4 merge_node [] self' out k →
      block_exec self cur buf self' out k
  | exec_return self cur buf line self' out :
      lines self !! cursor self = Some line →
      classify (mode self) line = KReturn →
      return_stmt self cur buf line = (self', out) →
      block_exec self cur buf self' out ByReturn
  | exec_statement self cur buf line self' out k :
      lines self !! cursor self = Some line →
      classify (mode self) line = KStatement →
      block_exec (advance self) cur (buf ++ [line]) self' out k →
      block_exec self cur buf self' out k
with chain_exec : UniversalCFGBuilder → list string → list ExitKind → string →
    UniversalCFGBuilder → list string → list ExitKind → option string → Prop :=
  | chain_end self exits kinds last :
      lines self !! cursor self = None →
      chain_exec self exits kinds last self exits kinds (Some last)
  | chain_other self exits kinds last next_line :
      lines self !! cursor self = Some next_line →
      classify_chain next_line = COther →
      chain_exec self exits kinds last self exits kinds (Some last)
  | chain_elif self exits kinds last next_line self1 elif_node self2 elif_end kb
        self' exits' kinds' last' :
      lines self !! cursor self = Some next_line →
      classify_chain next_line = CElif →
      elif_head self last next_line = (self1, elif_node) →
      block_exec self1 elif_node [] self2 elif_end kb →
      chain_exec self2 (exits ++ [elif_end]) (kinds ++ [kb]) elif_node
                 self' exits' kinds' last' →
      chain_exec self exits kinds last self' exits' kinds' last'
  | chain_else self exits kinds last next_line self1 else_start self2 else_end kb :
      lines self !! cursor self = Some next_line →
      classify_chain next_line = CElse →
      else_head self last = (self1, else_start) →
      block_exec self1 else_start [] self2 else_end kb →
      chain_exec self exits kinds last self2 (exits ++ [else_end]) (kinds ++ [kb]) None.

Scheme block_exec_ind2 := Minimality for block_exec Sort Prop
  with chain_exec_ind2 := Minimality for chain_exec Sort Prop.
Combined Scheme exec_mutind from block_exec_ind2, chain_exec_ind2.

(** ** Graph invariants of the builder *)

Definition nodes_of (self : UniversalCFGBuilder) : gset string := dom (_node (graph self)).

Definition attrs_of (self : UniversalCFGBuilder) (n : string) : option (gmap string string) :=
  _node (graph self) !! n.

(** The label attribute of a node. *)
Definition label_of (self : UniversalCFGBuilder) (n : string) : option string :=
  attrs_of self n ≫= (.!! "label").

(** [edge self u v] is [None] when there is no edge from [u] to [v], and
    [Some l] when there is one, with label [l]. *)
Definition edge (self : UniversalCFGBuilder) (u v : string) : option (option string) :=
  _adj (graph self) !! (u, v).

Definition edge_rel (self : UniversalCFGBuilder) (u v : string) : Prop :=
  is_Some (edge self u v).

(** [v] can be reached from [u] along directed edges. *)
Definition reach (self : UniversalCFGBuilder) : string → string → Prop :=
  rtc (edge_rel self).

(** Well-formed builder: the node ids in use are [N1 .. Nk] for the current
    counter [k], and edges join nodes of the graph. *)
Record wf (self : UniversalCFGBuilder) : Prop := mk_wf {
  wf_ids : ∀ n, n ∈ nodes_of self → ∃ k, n = node_id k ∧ 1 ≤ k ≤ node_counter self;
  wf_edges : ∀ u v, edge_rel self u v → u ∈ nodes_of self ∧ v ∈ nodes_of self
}.

(** [extends s s']: [s'] has the nodes of [s] with their attributes, and
    the edges into nodes of [s] are the same in both. *)
Record extends (s s' : UniversalCFGBuilder) : Prop := mk_extends {
  ext_counter : node_counter s ≤ node_counter s';
  ext_nodes : ∀ n a, attrs_of s n = Some a → attrs_of s' n = Some a;
  ext_edges : ∀ u v, v ∈ nodes_of s → edge s' u v = edge s u v
}.

(** What one call of the block parser guarantees, from a builder [s] and
    an entry node [cur] to the builder [s'] and the returned node [out]. *)
Record block_post (s : UniversalCFGBuilder) (cur : string)
    (s' : UniversalCFGBuilder) (out : string) : Prop := mk_block_post {
  bp_wf : wf s';
  bp_ext : extends s s';
  bp_out : out ∈ nodes_of s';
  bp_reach_out : reach s' cur out;
  bp_out_new : out = cur ∨ out ∉ nodes_of s;
  bp_reach : ∀ n, n ∈ nodes_of s' → n ∈ nodes_of s ∨ reach s' cur n
}.

Definition is_return_node (self : UniversalCFGBuilder) (n : string) : Prop :=
  ∃ line, PyStr.startswith line "return" = true
          ∧ attrs_of self n = Some (node_attrs (clean_label line) "box" "filled" "#FFCDD2").

Definition is_decision_node (self : UniversalCFGBuilder) (n : string) : Prop :=
  ∃ line fill, attrs_of self n = Some (node_attrs (clean_label line) "diamond" "filled" fill).

(** ** Further notions used in the statements *)

(** The shape shared by sections 4, 5.A and 6: flush, new node for the
    line, edge from the predecessor, consume the line. *)
Definition line_node (shape fill : string) (self : UniversalCFGBuilder)
    (current_node : string) (buffer : list string) (line : string)
  : UniversalCFGBuilder * string :=
  let '(self, current_node) := flush_buffer self current_node buffer in
  let '(id, self) := new_node line shape "filled" fill self in
  (advance (connect current_node id None self), id).

Definition block_inv (s : UniversalCFGBuilder) (cur : string) (buf : list string)
    (s' : UniversalCFGBuilder) (out : string) (k : ExitKind) : Prop :=
  wf s → cur ∈ nodes_of s →
  block_post s cur s' out ∧ (k = ByReturn → is_return_node s' out).

Definition chain_inv (s : UniversalCFGBuilder) (exits : list string)
    (kinds : list ExitKind) (last : string) (s' : UniversalCFGBuilder)
    (exits' : list string) (kinds' : list ExitKind) (last' : option string) : Prop :=
  ∀ b c out0,
    wf b → block_post b c s out0 →
    last ∈ nodes_of s → reach s c last → is_decision_node s last →
    (∀ p, p ∈ exits → p ∈ nodes_of s ∧ reach s c p) →
    (∀ i p, exits !! i = Some p → kinds !! i = Some ByReturn → is_return_node s p) →
    length kinds = length exits →
    ∃ out1,
      block_post b c s' out1 ∧ extends s s'
      ∧ (∀ p, p ∈ exits' → p ∈ nodes_of s' ∧ reach s' c p)
      ∧ (∀ d, last' = Some d → d ∈ nodes_of s' ∧ is_decision_node s' d)
      ∧ (∀ i p, exits' !! i = Some p → kinds' !! i = Some ByReturn →
                is_return_node s' p)
      ∧ length kinds' = length exits'
      ∧ exits `prefix_of` exits'.

(** The graph with the two nodes START and END and one unlabeled edge. *)
Definition start_end_graph : DiGraph :=
  mkDiGraph
    (<["N1" := node_attrs "START" "oval" "filled" "#C8E6C9"]>
       (<["N2" := node_attrs "END" "oval" "filled" "#FFCDD2"]> ∅))
    (<[("N1", "N2") := None]> ∅).

Definition is_brace (m : Mode) (line : string) : Prop :=
  classify m line = KBlockStart ∨ classify m line = KBlockEnd.

(** A text made of whitespace characters only (the empty text included). *)
Fixpoint all_space (s : string) : bool :=
  match s with
  | EmptyString => true
  | String c s' => PyStr.isspace c && all_space s'
  end.

(** The builder in which [parse] reaches section 5.C for the input made of
    the single line [if x:]: START and the decision node exist, the branch
    was empty, and the chain is still open. *)
Definition before_merge_of_if : UniversalCFGBuilder :=
  (if_head (new_node "START" "oval" "filled" "#C8E6C9"
              (mkBuilder nx.empty 0 ["if x:"] 0 python_style)).2 "N1" [] "if x:").1.

(** The builder with which [parse] on a fresh builder enters the block
    parser: only START exists, as node N1. *)
Definition start_state (m : Mode) (ls : list string) : UniversalCFGBuilder :=
  (new_node "START" "oval" "filled" "#C8E6C9" (mkBuilder nx.empty 0 ls 0 m)).2.

(** One call of the block parser for a branch of a conditional chain:
    the fuel, the builder and the entry node it is called with, and the
    builder and the node it returns. *)
Record BranchCall : Type := mkBranch {
  bc_fuel : nat;
  bc_in : UniversalCFGBuilder;
  bc_entry : string;
  bc_out : UniversalCFGBuilder;
  bc_exit : string
}.

(** The calls of the block parser that the loop of section 5.B makes, one
    for each elif and else branch, in order: [chain_loop] with the branch
    calls kept instead of the builder. *)
Fixpoint chain_branches (fuel : nat) (self : UniversalCFGBuilder)
    (last_decision : string) {struct fuel} : list BranchCall :=
  match fuel with
  | O => []
  | S fuel =>
      match lines self !! cursor self with
      | None => []
      | Some next_line =>
          match classify_chain next_line with
          | CElif =>
              let '(self1, elif_node) := elif_head self last_decision next_line in
              match block_loop fuel self1 elif_node [] with
              | None => []
              | Some (self2, elif_end) =>
                  mkBranch fuel self1 elif_node self2 elif_end
                  :: chain_branches fuel self2 elif_node
              end
          | CElse =>
              let '(self1, else_start) := else_head self last_decision in
              match block_loop fuel self1 else_start [] with
              | None => []
              | Some (self2, else_end) => [mkBranch fuel self1 else_start self2 else_end]
              end
          | COther => []
          end
      end
  end.

(** The branch call [b] has ended at a return line: its loop has come to
    a builder [s0], over the lines of the branch and not before its
    start, whose current line starts with return; from there the block
    parser returns, for whatever fuel, what section 6 makes of that line,
    and this is what the branch call has returned: the buffer flushed, a
    box node with the highlighted fill for the line, an unlabeled edge
    from the predecessor, and the cursor right after the line. *)
Definition ends_at_return_line (b : BranchCall) : Prop :=
  ∃ s0 cur0 buf0 ret_line s0' pred,
    lines s0 = lines (bc_in b) ∧ cursor (bc_in b) ≤ cursor s0
    ∧ lines s0 !! cursor s0 = Some ret_line
    ∧ PyStr.startswith ret_line "return" = true
    ∧ (∀ fuel0, block_loop (S fuel0) s0 cur0 buf0 = Some (bc_out b, bc_exit b))
    ∧ return_stmt s0 cur0 buf0 ret_line = (bc_out b, bc_exit b)
    ∧ flush_buffer s0 cur0 buf0 = (s0', pred)
    ∧ (bc_exit b ∉ nodes_of s0')
    ∧ attrs_of (bc_out b) (bc_exit b)
      = Some (node_attrs (clean_label ret_line) "box" "filled" "#FFCDD2")
    ∧ edge (bc_out b) pred (bc_exit b) = Some None
    ∧ cursor (bc_out b) = S (cursor s0).

(** The builder with another line sequence. *)
Definition with_lines (L : list string) (s : UniversalCFGBuilder) : UniversalCFGBuilder :=
  mkBuilder (graph s) (node_counter s) L (cursor s) (mode s).

(** How many lines a call that has left through [k] with the cursor at [c]
    has looked at: those before [c], and for the exits that do not consume
    a line also position [c] itself. *)
Definition examined (k : ExitKind) (c : nat) : nat :=
  match k with
  | ByReturn | ByBrace => c
  | ByPeek | ByEnd => S c
  end.

(** The observations made on a finished graph: numbers of nodes and edges,
    Complexity and Predicates. *)
Definition observe (o : option UniversalCFGBuilder) : option (nat * nat * Z * Z) :=
  match o with
  | Some s =>
      match calculate_metrics (graph s) !! "Complexity",
            calculate_metrics (graph s) !! "Predicates" with
      | Some cc, Some p =>
          Some (nx.number_of_nodes (graph s), nx.number_of_edges (graph s), cc, p)
      | _, _ => None
      end
  | None => None
  end.

(** The shapes and the edge labels that [parse_block] and [parse] pass to
    [new_node] and [connect]. *)
Definition node_shapes : list string := ["box"; "oval"; "diamond"; "point"].
Definition edge_labels : list (option string) := [None; Some "False"; Some "Loop"].

(** The three ways in which [parse] and [parse_block] change the builder:
    a new filled node hung below an existing node, an edge between two
    existing nodes, and the consumption of a line. *)
Inductive build_step : UniversalCFGBuilder → UniversalCFGBuilder → Prop :=
  | bs_spawn s p label shape fill l id s1 :
      p ∈ nodes_of s → shape ∈ node_shapes → l ∈ edge_labels →
      new_node label shape "filled" fill s = (id, s1) →
      build_step s (connect p id l s1)
  | bs_connect s u v l :
      u ∈ nodes_of s → v ∈ nodes_of s → l ∈ edge_labels →
      build_step s (connect u v l s)
  | bs_advance s : build_step s (advance s).

Definition built : UniversalCFGBuilder → UniversalCFGBuilder → Prop := rtc build_step.

(** What every builder reached from a fresh one satisfies, beyond [wf]:
    the ids N1 .. Nk are all in use, the graph has as many nodes as the
    counter says, every node carries a cleaned label, one of the four
    shapes, the style filled and a fill colour, every edge label is one of
    the three, and there are at least as many edges as nodes but one. *)
Record tidy (s : UniversalCFGBuilder) : Prop := mk_tidy {
  tidy_ids : ∀ k, 1 ≤ k ≤ node_counter s → node_id k ∈ nodes_of s;
  tidy_count : nx.number_of_nodes (graph s) = node_counter s;
  tidy_attrs : ∀ n a, attrs_of s n = Some a →
    ∃ label shape fill, a = node_attrs (clean_label label) shape "filled" fill
                        ∧ shape ∈ node_shapes;
  tidy_labels : ∀ u v l, edge s u v = Some l → l ∈ edge_labels;
  tidy_edges : node_counter s ≤ S (nx.number_of_edges (graph s))
}.

(** [G.out_degree(n)] on the builder's graph. *)
Definition outdeg (s : UniversalCFGBuilder) (n : string) : nat :=
  nx.out_degree (graph s) n.

(** How control flows through what one call of the block parser has
    added, from a builder [s] whose entry node [cur] has no successor yet:
    the returned node has no successor, the successors of the other nodes
    of [s] are as before, the entry node has got one successor unless it
    is returned itself, every other new node has one or two successors,
    two only when it is a decision node, and from every new node the
    returned node can be reached. *)
Record flow (s : UniversalCFGBuilder) (cur : string)
    (s' : UniversalCFGBuilder) (out : string) : Prop := mk_flow {
  fl_sink : outdeg s' out = 0;
  fl_old : ∀ n, n ∈ nodes_of s → n ≠ cur → ∀ v, edge s' n v = edge s n v;
  fl_cur : out = cur ∨ outdeg s' cur = 1;
  fl_new : ∀ n, n ∈ nodes_of s' → n ∉ nodes_of s → n ≠ out →
           1 ≤ outdeg s' n ≤ 2 ∧ (outdeg s' n = 2 → is_decision_node s' n);
  fl_reach : ∀ n, n ∈ nodes_of s' → n ∉ nodes_of s → reach s' n out
}.

(** The same for the loop over the elif and else branches, between the
    true branch and the merge node: the branch exits and the last decision
    are still to be joined to the merge node, so they have at most one
    successor, and an exit has one only when it is a decision node whose
    branch is empty. *)
Record chain_flow (s : UniversalCFGBuilder) (exits : list string) (d : string)
    (s' : UniversalCFGBuilder) (exits' : list string) (last' : option string)
  : Prop := mk_chain_flow {
  cf_old : ∀ n, n ∈ nodes_of s → n ≠ d → ∀ v, edge s' n v = edge s n v;
  cf_d_le : outdeg s' d ≤ S (outdeg s d);
  cf_d_last : last' = Some d → outdeg s' d = outdeg s d;
  cf_d_ge : last' ≠ Some d → 1 ≤ outdeg s' d;
  cf_exits : ∀ p, p ∈ exits' →
             outdeg s' p ≤ 1 ∧ (outdeg s' p = 1 → is_decision_node s' p);
  cf_last : ∀ d', last' = Some d' → is_decision_node s' d' ∧ outdeg s' d' ≤ 1;
  cf_new : ∀ n, n ∈ nodes_of s' → n ∉ nodes_of s → n ∉ exits' → last' ≠ Some n →
           1 ≤ outdeg s' n ≤ 2 ∧ (outdeg s' n = 2 → is_decision_node s' n);
  cf_fresh : ∀ p, p ∈ exits' → p ∈ exits ∨ p ∉ nodes_of s;
  cf_last_fresh : ∀ d', last' = Some d' → d' = d ∨ d' ∉ nodes_of s;
  cf_reach : ∀ n, n ∈ nodes_of s' → n ∉ nodes_of s →
             ∃ p, p ∈ exits' ∧ reach s' n p
}.

(** The graph of a straight-line program: START, one box with the given
    label, END, and two unlabeled edges. *)
Definition straight_line_graph (label : string) : DiGraph :=
  mkDiGraph
    (<["N1" := node_attrs "START" "oval" "filled" "#C8E6C9"]>
       (<["N2" := node_attrs label "box" "filled" "white"]>
          (<["N3" := node_attrs "END" "oval" "filled" "#FFCDD2"]> ∅)))
    (<[("N1", "N2") := None]> (<[("N2", "N3") := None]> ∅)).

(** Every occurrence of the character [b] in [s] stands between two
    newlines; [after_nl] tells whether the character before [s] is a
    newline. *)
Fixpoint isolated (b : ascii) (after_nl : bool) (s : string) : Prop :=
  match s with
  | EmptyString => True
  | String c s' =>
      if Ascii.eqb c b
      then after_nl = true ∧ (∃ r, s' = String PyStr.newline r) ∧ isolated b false s'
      else isolated b (Ascii.eqb c PyStr.newline) s'
  end.

(** The first [k] characters of [s] are neither [b] nor a newline. *)
Fixpoint clear_of (b : ascii) (k : nat) (s : string) : Prop :=
  match k, s with
  | S k', String c s' => c ≠ b ∧ c ≠ PyStr.newline ∧ clear_of b k' s'
  | _, _ => True
  end.

(** The node [n] is one that [new_node] has made: its id is one of those
    handed out so far and it carries the attributes [new_node] stores,
    where a node that [add_edge] adds for a missing endpoint has none. *)
Definition made_by_new_node (s : UniversalCFGBuilder) (n : string) : Prop :=
  ∃ k label shape fill,
    n = node_id k ∧ 1 ≤ k ≤ node_counter s
    ∧ attrs_of s n = Some (node_attrs (clean_label label) shape "filled" fill)
    ∧ attrs_of s n ≠ Some ∅.

(** The last two statements of [parse]: the END node and the edge to it. *)
Definition finish (self : UniversalCFGBuilder) (last_node : string) : UniversalCFGBuilder :=
  let '(end_node, self) := new_node "END" "oval" "filled" "#FFCDD2" self in
  connect last_node end_node None self.


(** ** Lemmas: what the straight-line pieces do to cursor, lines and mode *)

Section Fields.

Lemma connect_lines u v l self : lines (connect u v l self) = lines self.
Proof. unfold connect. by destruct (_ && _). Qed.
Lemma connect_cursor u v l self : cursor (connect u v l self) = cursor self.
Proof. unfold connect. by destruct (_ && _). Qed.
Lemma connect_mode u v l self : mode (connect u v l self) = mode self.
Proof. unfold connect. by destruct (_ && _). Qed.
Lemma connect_counter u v l self : node_counter (connect u v l self) = node_counter self.
Proof. unfold connect. by destruct (_ && _). Qed.

Lemma new_node_id label shape style fill self :
  (new_node label shape style fill self).1 = node_id (S (node_counter self)).
Proof. done. Qed.

Lemma new_node_fields label shape style fill self id self' :
  new_node label shape style fill self = (id, self') →
  lines self' = lines self ∧ cursor self' = cursor self ∧ mode self' = mode self.
Proof. unfold new_node. by intros [= <- <-]. Qed.

Lemma flush_buffer_fields self cur buf self' out :
  flush_buffer self cur buf = (self', out) →
  lines self' = lines self ∧ cursor self' = cursor self ∧ mode self' = mode self.
Proof.
  unfold flush_buffer. destruct buf as [|x buf]; [by intros [= <- <-]|].
  intros [= <- <-]. by rewrite connect_lines, connect_cursor, connect_mode.
Qed.

Lemma loop_head_fields self cur buf line self' h :
  loop_head self cur buf line = (self', h) →
  lines self' = lines self ∧ cursor self' = S (cursor self) ∧ mode self' = mode self.
Proof.
  unfold loop_head. destruct (flush_buffer self cur buf) as [s1 c1] eqn:Hf.
  apply flush_buffer_fields in Hf as (? & ? & ?). intros [= <- <-]. simpl.
  rewrite connect_lines, connect_cursor, connect_mode. simpl. auto.
Qed.

Lemma loop_tail_fields self body_end h self' e :
  loop_tail self body_end h = (self', e) →
  lines self' = lines self ∧ cursor self' = cursor self ∧ mode self' = mode self.
Proof.
  unfold loop_tail. intros [= <- <-].
  rewrite connect_lines, connect_cursor, connect_mode. simpl.
  by rewrite connect_lines, connect_cursor, connect_mode.
Qed.

Lemma if_head_fields self cur buf line self' h :
  if_head self cur buf line = (self', h) →
  lines self' = lines self ∧ cursor self' = S (cursor self) ∧ mode self' = mode self.
Proof.
  unfold if_head. destruct (flush_buffer self cur buf) as [s1 c1] eqn:Hf.
  apply flush_buffer_fields in Hf as (? & ? & ?). intros [= <- <-]. simpl.
  rewrite connect_lines, connect_cursor, connect_mode. simpl. auto.
Qed.

Lemma elif_head_fields self last line self' h :
  elif_head self last line = (self', h) →
  lines self' = lines self ∧ cursor self' = S (cursor self) ∧ mode self' = mode self.
Proof.
  unfold elif_head. intros [= <- <-].
  by rewrite connect_lines, connect_cursor, connect_mode.
Qed.

Lemma else_head_fields self last self' h :
  else_head self last = (self', h) →
  lines self' = lines self ∧ cursor self' = S (cursor self) ∧ mode self' = mode self.
Proof.
  unfold else_head. intros [= <- <-].
  by rewrite connect_lines, connect_cursor, connect_mode.
Qed.

Lemma foldl_connect_fields v l ps self :
  let self' := foldl (λ self p, connect p v l self) self ps in
  lines self' = lines self ∧ cursor self' = cursor self ∧ mode self' = mode self
  ∧ node_counter self' = node_counter self.
Proof.
  revert self. induction ps as [|p ps IH]; intros self; simpl; [done|].
  destruct (IH (connect p v l self)) as (-> & -> & -> & ->).
  by rewrite connect_lines, connect_cursor, connect_mode, connect_counter.
Qed.

Lemma merge_fields self exits last self' m :
  merge self exits last = (self', m) →
  lines self' = lines self ∧ cursor self' = cursor self ∧ mode self' = mode self.
Proof.
  unfold merge. simpl. intros [= <- <-].
  match goal with |- context [foldl ?f ?s ?l] =>
    destruct (foldl_connect_fields (node_id (S (node_counter self))) None l s)
      as (H1 & H2 & H3 & H4) end.
  simpl in *.
  destruct last as [d|]; [destruct (PyStr.truthy d)|];
    rewrite ?connect_lines, ?connect_cursor, ?connect_mode; auto.
Qed.

Lemma return_stmt_fields self cur buf line self' r :
  return_stmt self cur buf line = (self', r) →
  lines self' = lines self ∧ cursor self' = S (cursor self) ∧ mode self' = mode self.
Proof.
  unfold return_stmt. destruct (flush_buffer self cur buf) as [s1 c1] eqn:Hf.
  apply flush_buffer_fields in Hf as (? & ? & ?). intros [= <- <-]. simpl.
  rewrite connect_lines, connect_cursor, connect_mode. simpl. auto.
Qed.

End Fields.

Arguments flush_buffer : simpl never.
Arguments loop_head : simpl never.
Arguments loop_tail : simpl never.
Arguments if_head : simpl never.
Arguments elif_head : simpl never.
Arguments else_head : simpl never.
Arguments merge : simpl never.
Arguments return_stmt : simpl never.
Arguments classify : simpl never.
Arguments classify_chain : simpl never.
Arguments new_node : simpl never.
Arguments connect : simpl never.

(** ** The functions and the relation agree; the functions are total *)

Section Agreement.

(** One iteration of each loop. *)
Lemma block_loop_S fuel self current_node buffer :
  block_loop (S fuel) self current_node buffer =
    match lines self !! cursor self with
    | None => Some (flush_buffer self current_node buffer)
    | Some line =>
        match classify (mode self) line with
        | KBranchEnd => Some (flush_buffer self current_node buffer)
        | KBlockEnd =>
            let '(self, current_node) := flush_buffer self current_node buffer in
            Some (advance self, current_node)
        | KBlockStart => block_loop fuel (advance self) current_node buffer
        | KLoop =>
            let '(self, loop_cond) := loop_head self current_node buffer line in
            match block_loop fuel self loop_cond [] with
            | None => None
            | Some (self, body_end) =>
                let '(self, exit_node) := loop_tail self body_end loop_cond in
                block_loop fuel self exit_node []
            end
        | KIf =>
            let '(self, cond_node) := if_head self current_node buffer line in
            match block_loop fuel self cond_node [] with
            | None => None
            | Some (self, true_end) =>
                match chain_loop fuel self [true_end] cond_node with
                | None => None
                | Some (self, exit_points, last_decision) =>
                    let '(self, merge_node) := merge self exit_points last_decision in
                    block_loop fuel self merge_node []
                end
            end
        | KReturn => Some (return_stmt self current_node buffer line)
        | KStatement => block_loop fuel (advance self) current_node (buffer ++ [line])
        end
    end.
Proof. reflexivity. Qed.

Lemma chain_loop_S fuel self exit_points last_decision :
  chain_loop (S fuel) self exit_points last_decision =
    match lines self !! cursor self with
    | None => Some (self, exit_points, Some last_decision)
    | Some next_line =>
        match classify_chain next_line with
        | CElif =>
            let '(self, elif_node) := elif_head self last_decision next_line in
            match block_loop fuel self elif_node [] with
            | None => None
            | Some (self, elif_end) =>
                chain_loop fuel self (exit_points ++ [elif_end]) elif_node
            end
        | CElse =>
            let '(self, else_start) := else_head self last_decision in
            match block_loop fuel self else_start [] with
            | None => None
            | Some (self, else_end) => Some (self, exit_points ++ [else_end], None)
            end
        | COther => Some (self, exit_points, Some last_decision)
        end
    end.
Proof. reflexivity. Qed.

(** Every result of the functions is an execution. *)
Lemma loops_sound fuel :
  (∀ self cur buf self' out,
      block_loop fuel self cur buf = Some (self', out) →
      ∃ k, block_exec self cur buf self' out k)
  ∧ (∀ self exits kinds last self' exits' last',
      chain_loop fuel self exits last = Some (self', exits', last') →
      ∃ kinds', chain_exec self exits kinds last self' exits' kinds' last').
Proof.
  induction fuel as [|fuel [IHb IHc]]; [split; intros; discriminate|].
  split.
  - intros self cur buf self' out. rewrite block_loop_S.
    destruct (lines self !! cursor self) as [line|] eqn:Hl;
      [|intros [= H]; exists ByEnd; apply exec_end; auto].
    destruct (classify (mode self) line) eqn:Hc.
    + intros [= H]. exists ByPeek. eapply exec_peek; eauto.
    + destruct (flush_buffer self cur buf) as [s1 c1] eqn:Hf.
      intros [= <- <-]. exists ByBrace. eapply exec_brace; eauto.
    + intros H. apply IHb in H as [k H]. exists k. eapply exec_open; eauto.
    + destruct (loop_head self cur buf line) as [s1 h] eqn:Hh.
      destruct (block_loop fuel s1 h []) as [[s2 body_end]|] eqn:Hb; [|done].
      destruct (loop_tail s2 body_end h) as [s3 e] eqn:Ht.
      intros H. apply IHb in Hb as [kb Hb]. apply IHb in H as [k H].
      exists k. eapply exec_loop; [exact Hl|exact Hc|exact Hh|exact Hb|exact Ht|exact H].
    + destruct (if_head self cur buf line) as [s1 c] eqn:Hh.
      destruct (block_loop fuel s1 c []) as [[s2 true_end]|] eqn:Hb; [|done].
      destruct (chain_loop fuel s2 [true_end] c) as [[[s3 exits] last]|] eqn:Hch; [|done].
      destruct (merge s3 exits last) as [s4 m] eqn:Hm.
      intros H. apply IHb in Hb as [kb Hb]. apply (IHc _ _ [kb]) in Hch as [kinds Hch].
      apply IHb in H as [k H]. exists k.
      eapply exec_if; [exact Hl|exact Hc|exact Hh|exact Hb|exact Hch|exact Hm|exact H].
    + destruct (return_stmt self cur buf line) as [s1 r] eqn:Hr.
      intros [= <- <-]. exists ByReturn. eapply exec_return; eauto.
    + intros H. apply IHb in H as [k H]. exists k. eapply exec_statement; eauto.
  - intros self exits kinds last self' exits' last'. rewrite chain_loop_S.
    destruct (lines self !! cursor self) as [line|] eqn:Hl;
      [|intros [= <- <- <-]; exists kinds; apply chain_end; auto].
    destruct (classify_chain line) eqn:Hc.
    + destruct (elif_head self last line) as [s1 e] eqn:Hh.
      destruct (block_loop fuel s1 e []) as [[s2 elif_end]|] eqn:Hb; [|done].
      intros H. apply IHb in Hb as [kb Hb].
      apply (IHc _ _ (kinds ++ [kb])) in H as [kinds' H].
      exists kinds'. eapply chain_elif; [exact Hl|exact Hc|exact Hh|exact Hb|exact H].
    + destruct (else_head self last) as [s1 e] eqn:Hh.
      destruct (block_loop fuel s1 e []) as [[s2 else_end]|] eqn:Hb; [|done].
      intros [= <- <- <-]. apply IHb in Hb as [kb Hb].
      exists (kinds ++ [kb]). eapply chain_else; eauto.
    + intros [= <- <- <-]. exists kinds. eapply chain_other; eauto.
Qed.

(** The cursor never moves back, and lines and mode are not touched. *)
Lemma exec_fields :
  (∀ self cur buf self' out k,
      block_exec self cur buf self' out k →
      lines self' = lines self ∧ mode self' = mode self ∧ cursor self ≤ cursor self')
  ∧ (∀ self exits kinds last self' exits' kinds' last',
      chain_exec self exits kinds last self' exits' kinds' last' →
      lines self' = lines self ∧ mode self' = mode self ∧ cursor self ≤ cursor self').
Proof.
  apply exec_mutind; intros;
    repeat match goal with
      | H : flush_buffer _ _ _ = _ |- _ => apply flush_buffer_fields in H
      | H : loop_head _ _ _ _ = _ |- _ => apply loop_head_fields in H
      | H : loop_tail _ _ _ = _ |- _ => apply loop_tail_fields in H
      | H : if_head _ _ _ _ = _ |- _ => apply if_head_fields in H
      | H : elif_head _ _ _ = _ |- _ => apply elif_head_fields in H
      | H : else_head _ _ = _ |- _ => apply else_head_fields in H
      | H : merge _ _ _ = _ |- _ => apply merge_fields in H
      | H : return_stmt _ _ _ _ = _ |- _ => apply return_stmt_fields in H
      end;
    simpl in *; destruct_and?; repeat split; try congruence; try lia.
Qed.

Lemma block_exec_fields self cur buf self' out k :
  block_exec self cur buf self' out k →
  lines self' = lines self ∧ mode self' = mode self ∧ cursor self ≤ cursor self'.
Proof. apply exec_fields. Qed.

Lemma chain_exec_fields self exits kinds last self' exits' kinds' last' :
  chain_exec self exits kinds last self' exits' kinds' last' →
  lines self' = lines self ∧ mode self' = mode self ∧ cursor self ≤ cursor self'.
Proof. apply exec_fields. Qed.

(** With more fuel than lines left, both loops return. *)
Lemma loops_total fuel :
  (∀ self cur buf, length (lines self) - cursor self < fuel →
      is_Some (block_loop fuel self cur buf))
  ∧ (∀ self exits last, length (lines self) - cursor self < fuel →
      is_Some (chain_loop fuel self exits last)).
Proof.
  induction fuel as [|fuel [IHb IHc]]; [split; intros; lia|].
  assert (Hsound := loops_sound fuel). destruct Hsound as [Sb Sc].
  split.
  - intros self cur buf Hfuel. rewrite block_loop_S.
    destruct (lines self !! cursor self) as [line|] eqn:Hl; [|done].
    apply lookup_lt_Some in Hl.
    destruct (classify (mode self) line) eqn:Hc; try done.
    + by destruct (flush_buffer self cur buf).
    + apply IHb. simpl. lia.
    + destruct (loop_head self cur buf line) as [s1 h] eqn:Hh.
      apply loop_head_fields in Hh as (Hh1 & Hh2 & _).
      destruct (IHb s1 h []) as [[s2 body_end] Hb]; [rewrite Hh1, Hh2; lia|].
      rewrite Hb. apply Sb in Hb as [kb Hb]. apply block_exec_fields in Hb as (Hb1 & _ & Hb2).
      destruct (loop_tail s2 body_end h) as [s3 e] eqn:Ht.
      apply loop_tail_fields in Ht as (Ht1 & Ht2 & _).
      apply IHb. rewrite Ht1, Ht2, Hb1, Hh1. lia.
    + destruct (if_head self cur buf line) as [s1 c] eqn:Hh.
      apply if_head_fields in Hh as (Hh1 & Hh2 & _).
      destruct (IHb s1 c []) as [[s2 true_end] Hb]; [rewrite Hh1, Hh2; lia|].
      rewrite Hb. apply Sb in Hb as [kb Hb]. apply block_exec_fields in Hb as (Hb1 & _ & Hb2).
      destruct (IHc s2 [true_end] c) as [[[s3 exits] last] Hch]; [rewrite Hb1, Hh1; lia|].
      rewrite Hch. apply (Sc _ _ [kb]) in Hch as [kinds Hch].
      apply chain_exec_fields in Hch as (Hc1 & _ & Hc2).
      destruct (merge s3 exits last) as [s4 m] eqn:Hm.
      apply merge_fields in Hm as (Hm1 & Hm2 & _).
      apply IHb. rewrite Hm1, Hm2, Hc1, Hb1, Hh1. lia.
    + apply IHb. simpl. lia.
  - intros self exits last Hfuel. rewrite chain_loop_S.
    destruct (lines self !! cursor self) as [line|] eqn:Hl; [|done].
    apply lookup_lt_Some in Hl.
    destruct (classify_chain line) eqn:Hc; try done.
    + destruct (elif_head self last line) as [s1 e] eqn:Hh.
      apply elif_head_fields in Hh as (Hh1 & Hh2 & _).
      destruct (IHb s1 e []) as [[s2 elif_end] Hb]; [rewrite Hh1, Hh2; lia|].
      rewrite Hb. apply Sb in Hb as [kb Hb]. apply block_exec_fields in Hb as (Hb1 & _ & Hb2).
      apply IHc. rewrite Hb1, Hh1. lia.
    + destruct (else_head self last) as [s1 e] eqn:Hh.
      apply else_head_fields in Hh as (Hh1 & Hh2 & _).
      destruct (IHb s1 e []) as [[s2 else_end] Hb]; [rewrite Hh1, Hh2; lia|].
      by rewrite Hb.
Qed.

(** [parse_block] always returns. *)
Lemma parse_block_total self entry : is_Some (parse_block self entry).
Proof. apply loops_total. unfold enough_fuel. lia. Qed.

(** Every execution is the result of the functions, for any fuel above
    the number of lines left. *)
Lemma loops_complete :
  (∀ self cur buf self' out k,
      block_exec self cur buf self' out k →
      ∀ fuel, length (lines self) - cursor self < fuel →
      block_loop fuel self cur buf = Some (self', out))
  ∧ (∀ self exits kinds last self' exits' kinds' last',
      chain_exec self exits kinds last self' exits' kinds' last' →
      ∀ fuel, length (lines self) - cursor self < fuel →
      chain_loop fuel self exits last = Some (self', exits', last')).
Proof.
  apply exec_mutind.
  - intros self cur buf self' out Hl Hf [|fuel] Hfuel; [lia|].
    by rewrite block_loop_S, Hl, Hf.
  - intros self cur buf line self' out Hl Hc Hf [|fuel] Hfuel; [lia|].
    by rewrite block_loop_S, Hl, Hc, Hf.
  - intros self cur buf line self1 out Hl Hc Hf [|fuel] Hfuel; [lia|].
    by rewrite block_loop_S, Hl, Hc, Hf.
  - intros self cur buf line self' out k Hl Hc _ IH [|fuel] Hfuel; [lia|].
    rewrite block_loop_S, Hl, Hc. apply lookup_lt_Some in Hl.
    apply IH. simpl. lia.
  - intros self cur buf line self1 h self2 body_end kb self3 e self' out k
      Hl Hc Hh Hb IHb Ht _ IH [|fuel] Hfuel; [lia|].
    rewrite block_loop_S, Hl, Hc, Hh. apply lookup_lt_Some in Hl.
    apply loop_head_fields in Hh as (Hh1 & Hh2 & _).
    apply block_exec_fields in Hb as (Hb1 & _ & Hb2).
    rewrite IHb by (rewrite Hh1, Hh2; lia). rewrite Ht.
    apply loop_tail_fields in Ht as (Ht1 & Ht2 & _).
    apply IH. rewrite Ht1, Ht2, Hb1, Hh1. lia.
  - intros self cur buf line self1 c self2 true_end kb self3 exits kinds last self4 m
      self' out k Hl Hc Hh Hb IHb Hch IHch Hm _ IH [|fuel] Hfuel; [lia|].
    rewrite block_loop_S, Hl, Hc, Hh. apply lookup_lt_Some in Hl.
    apply if_head_fields in Hh as (Hh1 & Hh2 & _).
    apply block_exec_fields in Hb as (Hb1 & _ & Hb2).
    apply chain_exec_fields in Hch as (Hc1 & _ & Hc2).
    rewrite IHb by (rewrite Hh1, Hh2; lia).
    rewrite IHch by (rewrite Hb1, Hh1; lia). rewrite Hm.
    apply merge_fields in Hm as (Hm1 & Hm2 & _).
    apply IH. rewrite Hm1, Hm2, Hc1, Hb1, Hh1. lia.
  - intros self cur buf line self' out Hl Hc Hr [|fuel] Hfuel; [lia|].
    by rewrite block_loop_S, Hl, Hc, Hr.
  - intros self cur buf line self' out k Hl Hc _ IH [|fuel] Hfuel; [lia|].
    rewrite block_loop_S, Hl, Hc. apply lookup_lt_Some in Hl.
    apply IH. simpl. lia.
  - intros self exits kinds last Hl [|fuel] Hfuel; [lia|].
    by rewrite chain_loop_S, Hl.
  - intros self exits kinds last line Hl Hc [|fuel] Hfuel; [lia|].
    by rewrite chain_loop_S, Hl, Hc.
  - intros self exits kinds last line self1 e self2 elif_end kb self' exits' kinds' last'
      Hl Hc Hh Hb IHb _ IH [|fuel] Hfuel; [lia|].
    rewrite chain_loop_S, Hl, Hc, Hh. apply lookup_lt_Some in Hl.
    apply elif_head_fields in Hh as (Hh1 & Hh2 & _).
    apply block_exec_fields in Hb as (Hb1 & _ & Hb2).
    rewrite IHb by (rewrite Hh1, Hh2; lia).
    apply IH. rewrite Hb1, Hh1. lia.
  - intros self exits kinds last line self1 e self2 else_end kb
      Hl Hc Hh Hb IHb [|fuel] Hfuel; [lia|].
    rewrite chain_loop_S, Hl, Hc, Hh. apply lookup_lt_Some in Hl.
    apply else_head_fields in Hh as (Hh1 & Hh2 & _).
    by rewrite IHb by (rewrite Hh1, Hh2; lia).
Qed.

End Agreement.

Section GraphLemmas.

Implicit Types s self : UniversalCFGBuilder.

Lemma node_id_inj a b : node_id a = node_id b → a = b.
Proof. unfold node_id. intros [= H]. by apply pretty_nat_inj in H. Qed.

Lemma node_id_truthy k : PyStr.truthy (node_id k) = true.
Proof. reflexivity. Qed.

Lemma elem_nodes_of self n : n ∈ nodes_of self ↔ is_Some (attrs_of self n).
Proof. apply elem_of_dom. Qed.

Lemma wf_truthy self n : wf self → n ∈ nodes_of self → PyStr.truthy n = true.
Proof. intros Hwf Hn. apply Hwf in Hn as (k & -> & _). apply node_id_truthy. Qed.

Lemma wf_fresh self : wf self → node_id (S (node_counter self)) ∉ nodes_of self.
Proof.
  intros Hwf Hin. apply Hwf in Hin as (k & Hk & Hle).
  apply node_id_inj in Hk. lia.
Qed.

Lemma extends_refl s : extends s s.
Proof. by split. Qed.

Lemma extends_nodes s s' : extends s s' → nodes_of s ⊆ nodes_of s'.
Proof.
  intros He n. rewrite !elem_nodes_of. intros [a Ha].
  exists a. by apply He.
Qed.

Lemma extends_trans s1 s2 s3 : extends s1 s2 → extends s2 s3 → extends s1 s3.
Proof.
  intros H12 H23. split.
  - etrans; [apply H12|apply H23].
  - intros n a Ha. by apply H23, H12.
  - intros u v Hv. rewrite (ext_edges _ _ H23), (ext_edges _ _ H12); [done..|].
    by apply (extends_nodes _ _ H12).
Qed.

Lemma extends_edge_rel s s' u v : wf s → extends s s' → edge_rel s u v → edge_rel s' u v.
Proof.
  intros Hwf He Huv. unfold edge_rel. rewrite (ext_edges _ _ He); [done|].
  by apply Hwf in Huv as [_ ?].
Qed.

Lemma extends_reach s s' u v : wf s → extends s s' → reach s u v → reach s' u v.
Proof.
  intros Hwf He. unfold reach. apply rtc_subrel.
  intros a b. by apply extends_edge_rel.
Qed.

(** [new_node] on a well-formed builder adds a node that was not there. *)
Lemma new_node_spec self label shape style fill id self' :
  wf self →
  new_node label shape style fill self = (id, self') →
  id = node_id (S (node_counter self)) ∧ (id ∉ nodes_of self)
  ∧ node_counter self' = S (node_counter self)
  ∧ _node (graph self')
    = (<[id := node_attrs (clean_label label) shape style fill]> (_node (graph self)))
  ∧ _adj (graph self') = _adj (graph self).
Proof.
  intros Hwf. unfold new_node. intros [= <- <-].
  pose proof (wf_fresh _ Hwf) as Hfresh.
  assert (_node (graph self) !! node_id (S (node_counter self)) = None) as Hnone.
  { by apply not_elem_of_dom. }
  simpl. unfold nx.add_node. rewrite Hnone. done.
Qed.

Lemma new_node_wf self label shape style fill id self' :
  wf self →
  new_node label shape style fill self = (id, self') →
  wf self' ∧ extends self self' ∧ nodes_of self' = {[id]} ∪ nodes_of self
  ∧ attrs_of self' id = Some (node_attrs (clean_label label) shape style fill).
Proof.
  intros Hwf Hnew. destruct (new_node_spec _ _ _ _ _ _ _ Hwf Hnew)
    as (Hid & Hfresh & Hc & Hn & Ha).
  assert (nodes_of self' = {[id]} ∪ nodes_of self) as Hdom.
  { unfold nodes_of. rewrite Hn. apply dom_insert_L. }
  split_and!; [split|split|done|].
  - intros n. rewrite Hdom, Hc. intros [->%elem_of_singleton|Hin]%elem_of_union.
    + exists (S (node_counter self)). split; [done|lia].
    + apply Hwf in Hin as (k & -> & ?). exists k. split; [done|lia].
  - intros u v. unfold edge_rel, edge. rewrite Ha, Hdom. intros Huv.
    apply Hwf in Huv. set_solver.
  - lia.
  - intros n a. unfold attrs_of. rewrite Hn. intros Hna.
    rewrite lookup_insert_ne; [done|]. intros ->.
    apply Hfresh, elem_of_dom. by eexists.
  - intros u v _. unfold edge. by rewrite Ha.
  - unfold attrs_of. rewrite Hn. apply lookup_insert_eq.
Qed.

(** [connect] between nodes of a well-formed builder sets one entry of
    the adjacency map and nothing else. *)
Lemma connect_spec self u v l :
  wf self → u ∈ nodes_of self → v ∈ nodes_of self →
  graph (connect u v l self)
  = mkDiGraph (_node (graph self)) (<[(u, v) := l]> (_adj (graph self)))
  ∧ node_counter (connect u v l self) = node_counter self.
Proof.
  intros Hwf Hu Hv. unfold connect.
  rewrite (wf_truthy _ _ Hwf Hu), (wf_truthy _ _ Hwf Hv). simpl.
  apply elem_nodes_of in Hu as [au Hu]. apply elem_nodes_of in Hv as [av Hv].
  unfold attrs_of in Hu, Hv.
  unfold nx.add_edge, nx.ensure_node. rewrite Hu, Hv. done.
Qed.

Lemma connect_nodes self u v l :
  wf self → u ∈ nodes_of self → v ∈ nodes_of self →
  nodes_of (connect u v l self) = nodes_of self
  ∧ (∀ n, attrs_of (connect u v l self) n = attrs_of self n).
Proof.
  intros Hwf Hu Hv. destruct (connect_spec _ _ _ l Hwf Hu Hv) as [Hg _].
  unfold nodes_of, attrs_of. by rewrite Hg.
Qed.

Lemma connect_edge self u v l a b :
  wf self → u ∈ nodes_of self → v ∈ nodes_of self →
  edge (connect u v l self) a b
  = if decide ((u, v) = (a, b)) then Some l else edge self a b.
Proof.
  intros Hwf Hu Hv. destruct (connect_spec _ _ _ l Hwf Hu Hv) as [Hg _].
  unfold edge. rewrite Hg. simpl. apply lookup_insert.
Qed.

Lemma connect_wf self u v l :
  wf self → u ∈ nodes_of self → v ∈ nodes_of self → wf (connect u v l self).
Proof.
  intros Hwf Hu Hv. destruct (connect_nodes _ _ _ l Hwf Hu Hv) as [Hn _].
  split.
  - intros n. rewrite Hn, connect_counter. apply Hwf.
  - intros a b. unfold edge_rel. rewrite connect_edge, Hn by done.
    case_decide as Heq; [|apply Hwf]. by injection Heq as <- <-.
Qed.

Lemma connect_edge_rel self u v l a b :
  wf self → u ∈ nodes_of self → v ∈ nodes_of self →
  edge_rel self a b → edge_rel (connect u v l self) a b.
Proof.
  intros Hwf Hu Hv. unfold edge_rel. rewrite connect_edge by done.
  by case_decide.
Qed.

Lemma connect_reach self u v l a b :
  wf self → u ∈ nodes_of self → v ∈ nodes_of self →
  reach self a b → reach (connect u v l self) a b.
Proof.
  intros Hwf Hu Hv. unfold reach. apply rtc_subrel.
  intros x y. by apply connect_edge_rel.
Qed.

Lemma connect_reach_new self u v l :
  wf self → u ∈ nodes_of self → v ∈ nodes_of self →
  reach (connect u v l self) u v.
Proof.
  intros Hwf Hu Hv. apply rtc_once. unfold edge_rel.
  rewrite connect_edge by done. by rewrite decide_True.
Qed.

End GraphLemmas.

(** ** How the guarantee of a call composes *)

Section BlockPost.

Implicit Types s self : UniversalCFGBuilder.

Lemma post_refl s cur : wf s → cur ∈ nodes_of s → block_post s cur s cur.
Proof.
  intros Hwf Hcur. split; auto using extends_refl.
  - apply rtc_refl.
Qed.

Lemma post_trans s cur s1 c1 s2 c2 :
  wf s → block_post s cur s1 c1 → block_post s1 c1 s2 c2 → block_post s cur s2 c2.
Proof.
  intros Hwf H1 H2.
  pose proof (extends_nodes _ _ (bp_ext _ _ _ _ H1)) as Hsub.
  split.
  - apply H2.
  - eapply extends_trans; [apply H1|apply H2].
  - apply H2.
  - etrans; [|apply H2].
    eapply extends_reach; [apply H1|apply H2|apply H1].
  - destruct (bp_out_new _ _ _ _ H2) as [->|Hnew]; [apply H1|].
    right. set_solver.
  - intros n Hn. destruct (bp_reach _ _ _ _ H2 n Hn) as [Hn1|Hr].
    + destruct (bp_reach _ _ _ _ H1 n Hn1) as [?|Hr]; [by left|right].
      eapply extends_reach; [apply H1|apply H2|done].
    + right. etrans; [|exact Hr].
      eapply extends_reach; [apply H1|apply H2|apply H1].
Qed.

(** Changing only the cursor keeps the guarantee. *)
Lemma post_advance s cur s' out :
  block_post s cur s' out → block_post s cur (advance s') out.
Proof.
  intros H. split; try apply H.
  - split; [apply (wf_ids _ (bp_wf _ _ _ _ H))|apply (wf_edges _ (bp_wf _ _ _ _ H))].
  - split; [apply (ext_counter _ _ (bp_ext _ _ _ _ H))
           |apply (ext_nodes _ _ (bp_ext _ _ _ _ H))
           |apply (ext_edges _ _ (bp_ext _ _ _ _ H))].
Qed.

(** A new node connected from a reachable node of the call. *)
Lemma post_spawn s cur s1 out p label shape style fill l id s2 :
  block_post s cur s1 out → p ∈ nodes_of s1 → reach s1 cur p →
  new_node label shape style fill s1 = (id, s2) →
  block_post s cur (connect p id l s2) id
  ∧ (id ∉ nodes_of s1) ∧ id = node_id (S (node_counter s1))
  ∧ nodes_of (connect p id l s2) = {[id]} ∪ nodes_of s1
  ∧ attrs_of (connect p id l s2) id
    = Some (node_attrs (clean_label label) shape style fill)
  ∧ (∀ a b, edge (connect p id l s2) a b
            = if decide ((p, id) = (a, b)) then Some l else edge s1 a b).
Proof.
  intros Hpost Hp Hreach Hnew.
  pose proof (bp_wf _ _ _ _ Hpost) as Hwf1.
  destruct (new_node_spec _ _ _ _ _ _ _ Hwf1 Hnew) as (Hid & Hfresh & _ & _ & Hadj).
  destruct (new_node_wf _ _ _ _ _ _ _ Hwf1 Hnew) as (Hwf2 & Hext & Hdom & Hattr).
  assert (p ∈ nodes_of s2) as Hp2 by set_solver.
  assert (id ∈ nodes_of s2) as Hid2 by set_solver.
  destruct (connect_nodes _ _ _ l Hwf2 Hp2 Hid2) as [Hn Ha].
  assert (∀ a b, edge (connect p id l s2) a b
            = if decide ((p, id) = (a, b)) then Some l else edge s1 a b) as Hedge.
  { intros a b. rewrite connect_edge by done. unfold edge. by rewrite Hadj. }
  assert (extends s1 (connect p id l s2)) as Hext1.
  { split.
    - rewrite connect_counter. apply Hext.
    - intros n a Hna. rewrite Ha. by apply Hext.
    - intros a b Hb. rewrite Hedge. case_decide as Heq; [|done].
      injection Heq as <- <-. done. }
  split_and!; try done.
  - split.
    + by apply connect_wf.
    + eapply extends_trans; [apply Hpost|done].
    + by rewrite Hn.
    + etrans; [|by apply connect_reach_new].
      by apply (extends_reach s1).
    + right. intros Hin. apply Hfresh.
      by apply (extends_nodes _ _ (bp_ext _ _ _ _ Hpost)).
    + intros n. rewrite Hn, Hdom. intros [->%elem_of_singleton|Hin]%elem_of_union.
      * right. etrans; [|by apply connect_reach_new].
        by apply (extends_reach s1).
      * destruct (bp_reach _ _ _ _ Hpost n Hin) as [?|Hr]; [by left|right].
        by apply (extends_reach s1).
  - by rewrite Hn.
  - by rewrite Ha.
Qed.

(** An edge between nodes of the call whose target is not a node of [s]. *)
Lemma post_connect s cur s1 out u v l :
  block_post s cur s1 out → u ∈ nodes_of s1 → v ∈ nodes_of s1 → v ∉ nodes_of s →
  block_post s cur (connect u v l s1) out.
Proof.
  intros Hpost Hu Hv Hnew.
  pose proof (bp_wf _ _ _ _ Hpost) as Hwf1.
  destruct (connect_nodes _ _ _ l Hwf1 Hu Hv) as [Hn Ha].
  split.
  - by apply connect_wf.
  - split.
    + rewrite connect_counter. apply Hpost.
    + intros n a Hna. rewrite Ha. by apply Hpost.
    + intros a b Hb. rewrite connect_edge by done.
      case_decide as Heq; [|by apply Hpost]. by injection Heq as <- <-.
  - rewrite Hn. apply Hpost.
  - apply connect_reach; [done..|apply Hpost].
  - apply Hpost.
  - intros n. rewrite Hn. intros Hin.
    destruct (bp_reach _ _ _ _ Hpost n Hin) as [?|Hr]; [by left|right].
    by apply connect_reach.
Qed.

(** Another reachable node of the call can be returned instead. *)
Lemma post_out s cur s1 out p :
  block_post s cur s1 out → p ∈ nodes_of s1 → reach s1 cur p →
  p = cur ∨ p ∉ nodes_of s → block_post s cur s1 p.
Proof. intros [] ???. by split. Qed.

Lemma post_nodes s cur s1 out : block_post s cur s1 out → nodes_of s ⊆ nodes_of s1.
Proof. intros H. apply extends_nodes, H. Qed.

End BlockPost.

(** ** What the straight-line pieces do to the graph *)

Section Pieces.

Implicit Types s self b : UniversalCFGBuilder.

Lemma clean_label_Merge : clean_label "Merge" = "Merge".
Proof. reflexivity. Qed.
Lemma clean_label_Else : clean_label "Else" = "Else".
Proof. reflexivity. Qed.
Lemma clean_label_Exit : clean_label "Exit Loop" = "Exit Loop".
Proof. reflexivity. Qed.
Lemma clean_label_START : clean_label "START" = "START".
Proof. reflexivity. Qed.
Lemma clean_label_END : clean_label "END" = "END".
Proof. reflexivity. Qed.

Lemma flush_post s cur buf s0 pred :
  wf s → cur ∈ nodes_of s →
  flush_buffer s cur buf = (s0, pred) →
  block_post s cur s0 pred.
Proof.
  intros Hwf Hcur. unfold flush_buffer. destruct buf as [|x buf].
  - intros [= <- <-]. by apply post_refl.
  - destruct (new_node _ _ _ _ s) as [id s1] eqn:Hnew. intros [= <- <-].
    eapply post_spawn; [by apply post_refl|done|apply rtc_refl|exact Hnew].
Qed.

Lemma loop_head_line_node : loop_head = line_node "diamond" "#FFF9C4".
Proof. reflexivity. Qed.
Lemma if_head_line_node : if_head = line_node "diamond" "#FFE0B2".
Proof. reflexivity. Qed.
Lemma return_stmt_line_node : return_stmt = line_node "box" "#FFCDD2".
Proof. reflexivity. Qed.

Lemma line_node_post shape fill s cur buf line s1 id :
  wf s → cur ∈ nodes_of s →
  line_node shape fill s cur buf line = (s1, id) →
  ∃ s0 pred,
    flush_buffer s cur buf = (s0, pred) ∧ block_post s cur s0 pred
    ∧ id = node_id (S (node_counter s0)) ∧ (id ∉ nodes_of s0)
    ∧ block_post s cur s1 id
    ∧ nodes_of s1 = {[id]} ∪ nodes_of s0
    ∧ attrs_of s1 id = Some (node_attrs (clean_label line) shape "filled" fill)
    ∧ (∀ a c, edge s1 a c = if decide ((pred, id) = (a, c)) then Some None else edge s0 a c)
    ∧ cursor s1 = S (cursor s).
Proof.
  intros Hwf Hcur. unfold line_node.
  destruct (flush_buffer s cur buf) as [s0 pred] eqn:Hf.
  destruct (new_node line shape "filled" fill s0) as [id' s0'] eqn:Hnew.
  intros [= <- <-]. exists s0, pred.
  pose proof (flush_post _ _ _ _ _ Hwf Hcur Hf) as Hp0.
  destruct (post_spawn _ _ _ _ pred _ _ _ _ None _ _ Hp0
              (bp_out _ _ _ _ Hp0) (bp_reach_out _ _ _ _ Hp0) Hnew)
    as (Hp1 & Hfresh & Hid & Hdom & Hattr & Hedge).
  apply flush_buffer_fields in Hf as (_ & Hcur0 & _).
  apply new_node_fields in Hnew as (_ & Hcur1 & _).
  split_and!; try done.
  - by apply post_advance.
  - simpl. rewrite connect_cursor. congruence.
Qed.

(** Sections 5.B: a node hung below the last decision by a False edge. *)
Lemma elif_head_post b c s out0 last next_line s1 id :
  block_post b c s out0 → last ∈ nodes_of s → reach s c last →
  elif_head s last next_line = (s1, id) →
  block_post b c s1 id ∧ (id ∉ nodes_of s)
  ∧ attrs_of s1 id = Some (node_attrs (clean_label next_line) "diamond" "filled" "#FFE0B2")
  ∧ (∀ a d, edge s1 a d
            = if decide ((last, id) = (a, d)) then Some (Some "False") else edge s a d).
Proof.
  intros Hpost Hlast Hreach. unfold elif_head.
  destruct (new_node _ _ _ _ (advance s)) as [id' s'] eqn:Hnew. intros [= <- <-].
  destruct (post_spawn _ _ _ _ last _ _ _ _ (Some "False") _ _
              (post_advance _ _ _ _ Hpost) Hlast Hreach Hnew)
    as (Hp1 & Hfresh & Hid & Hdom & Hattr & Hedge).
  done.
Qed.

Lemma else_head_post b c s out0 last s1 id :
  block_post b c s out0 → last ∈ nodes_of s → reach s c last →
  else_head s last = (s1, id) →
  block_post b c s1 id ∧ (id ∉ nodes_of s)
  ∧ attrs_of s1 id = Some (node_attrs "Else" "point" "filled" "white")
  ∧ (∀ a d, edge s1 a d
            = if decide ((last, id) = (a, d)) then Some (Some "False") else edge s a d).
Proof.
  intros Hpost Hlast Hreach. unfold else_head.
  destruct (new_node _ _ _ _ (advance s)) as [id' s'] eqn:Hnew. intros [= <- <-].
  destruct (post_spawn _ _ _ _ last _ _ _ _ (Some "False") _ _
              (post_advance _ _ _ _ Hpost) Hlast Hreach Hnew)
    as (Hp1 & Hfresh & Hid & Hdom & Hattr & Hedge).
  done.
Qed.

(** Section 4 after the body: the back-edge and the exit node. *)
Lemma loop_tail_post b c s body_end h s3 e :
  block_post b c s body_end → h ∈ nodes_of s → h ∉ nodes_of b → reach s c h →
  loop_tail s body_end h = (s3, e) →
  block_post b c s3 e ∧ (e ∉ nodes_of s) ∧ e = node_id (S (node_counter s))
  ∧ nodes_of s3 = {[e]} ∪ nodes_of s
  ∧ attrs_of s3 e = Some (node_attrs "Exit Loop" "point" "filled" "white")
  ∧ (∀ a d, edge s3 a d
            = if decide ((h, e) = (a, d)) then Some (Some "False")
              else if decide ((body_end, h) = (a, d)) then Some (Some "Loop")
              else edge s a d).
Proof.
  intros Hpost Hh Hnew Hreach. unfold loop_tail.
  destruct (new_node _ _ _ _ _) as [id' s'] eqn:Hnode. intros [= <- <-].
  pose proof (bp_wf _ _ _ _ Hpost) as Hwf.
  pose proof (bp_out _ _ _ _ Hpost) as Hbe.
  pose proof (post_connect _ _ _ _ body_end h (Some "Loop") Hpost Hbe Hh Hnew) as Hp1.
  destruct (connect_nodes _ _ _ (Some "Loop") Hwf Hbe Hh) as [Hn Ha].
  assert (h ∈ nodes_of (connect body_end h (Some "Loop") s)) as Hh1 by by rewrite Hn.
  destruct (post_spawn _ _ _ _ h _ _ _ _ (Some "False") _ _ Hp1 Hh1
              (connect_reach _ _ _ _ _ _ Hwf Hbe Hh Hreach) Hnode)
    as (Hp2 & Hfresh & Hid & Hdom & Hattr & Hedge).
  rewrite Hn in Hfresh, Hdom. rewrite connect_counter in Hid.
  split_and!; try done.
  intros a d. rewrite Hedge. case_decide; [done|].
  by rewrite connect_edge.
Qed.

Lemma foldl_connect_post b c s out m ps :
  block_post b c s out → m ∈ nodes_of s → m ∉ nodes_of b →
  (∀ p, p ∈ ps → p ∈ nodes_of s) →
  let s' := foldl (λ self p, connect p m None self) s ps in
  block_post b c s' out ∧ nodes_of s' = nodes_of s
  ∧ (∀ n, attrs_of s' n = attrs_of s n)
  ∧ node_counter s' = node_counter s
  ∧ (∀ a d, edge s' a d = if decide (d = m ∧ a ∈ ps) then Some None else edge s a d).
Proof.
  revert s. induction ps as [|p ps IH]; intros s Hpost Hm Hnew Hps; simpl.
  - split_and!; try done. intros a d. rewrite decide_False; [done|].
    intros [_ Hin]. by apply elem_of_nil in Hin.
  - pose proof (bp_wf _ _ _ _ Hpost) as Hwf.
    assert (p ∈ nodes_of s) as Hp by (apply Hps; left).
    destruct (connect_nodes _ _ _ None Hwf Hp Hm) as [Hn Ha].
    destruct (IH (connect p m None s)) as (IH1 & IH2 & IH3 & IH4 & IH5).
    { by apply post_connect. }
    { by rewrite Hn. }
    { done. }
    { intros q Hq. rewrite Hn. apply Hps. by right. }
    split_and!; try done.
    + by rewrite IH2.
    + intros n. by rewrite IH3.
    + by rewrite IH4, connect_counter.
    + intros a d. rewrite IH5, connect_edge by done.
      destruct (decide (d = m ∧ a ∈ ps)) as [[-> Hin]|Hno].
      * rewrite decide_True; [done|]. split; [done|by right].
      * destruct (decide ((p, m) = (a, d))) as [[= <- <-]|Hne].
        -- rewrite decide_True; [done|]. split; [done|left].
        -- rewrite decide_False; [done|]. intros [-> Hin].
           apply elem_of_cons in Hin as [->|Hin]; [done|]. by apply Hno.
Qed.

(** Section 5.C. *)
Lemma merge_post b c s out0 p0 rest last s4 m :
  block_post b c s out0 →
  (∀ p, p ∈ p0 :: rest → p ∈ nodes_of s) → reach s c p0 →
  (∀ d, last = Some d → d ∈ nodes_of s) →
  merge s (p0 :: rest) last = (s4, m) →
  block_post b c s4 m ∧ (m ∉ nodes_of s) ∧ m = node_id (S (node_counter s))
  ∧ nodes_of s4 = {[m]} ∪ nodes_of s
  ∧ attrs_of s4 m = Some (node_attrs "Merge" "point" "filled" "white")
  ∧ (∀ a d, edge s4 a d
            = if decide (d = m)
              then if decide (last = Some a) then Some (Some "False")
                   else if decide (a ∈ p0 :: rest) then Some None else None
              else edge s a d).
Proof.
  intros Hpost Hps Hreach Hlast. unfold merge.
  destruct (new_node _ _ _ _ s) as [id s1] eqn:Hnew. simpl foldl.
  assert (p0 ∈ nodes_of s) as Hp0 by (apply Hps; left).
  destruct (post_spawn _ _ _ _ p0 _ _ _ _ None _ _ Hpost Hp0 Hreach Hnew)
    as (Hp1 & Hfresh & Hid & Hdom & Hattr & Hedge).
  assert (id ∉ nodes_of b) as Hnb.
  { intros Hin. by apply Hfresh, (post_nodes _ _ _ _ Hpost). }
  assert (id ∈ nodes_of (connect p0 id None s1)) as Hid1 by (rewrite Hdom; set_solver).
  destruct (foldl_connect_post b c (connect p0 id None s1) id id rest Hp1 Hid1 Hnb)
    as (Hp2 & Hn2 & Ha2 & Hc2 & He2).
  { intros q Hq. rewrite Hdom. apply elem_of_union_r, Hps. by right. }
  set (s2 := foldl _ _ rest) in *.
  assert (∀ a d, edge s2 a d
            = if decide (d = id)
              then if decide (a ∈ p0 :: rest) then Some None else None
              else edge s a d) as Hedge2.
  { intros a d. rewrite He2, Hedge.
    destruct (decide (d = id)) as [->|Hd].
    - destruct (decide (a ∈ rest)) as [Hin|Hnin].
      + rewrite decide_True by done. rewrite decide_True; [done|by right].
      + rewrite (decide_False (P := _ ∧ _)) by tauto.
        destruct (decide ((p0, id) = (a, id))) as [[= <-]|Hne].
        * rewrite decide_True; [done|left].
        * rewrite decide_False.
          -- destruct (edge s a id) eqn:He; [|done].
             exfalso. apply Hfresh.
             apply (wf_edges _ (bp_wf _ _ _ _ Hpost) a id).
             unfold edge_rel. by rewrite He.
          -- intros [->|Hin]%elem_of_cons; [done|]. done.
    - rewrite (decide_False (P := _ ∧ _)) by tauto.
      rewrite decide_False; [done|]. by intros [= _ <-]. }
  destruct last as [d|].
  - assert (d ∈ nodes_of s) as Hd by by apply Hlast.
    rewrite (wf_truthy _ _ (bp_wf _ _ _ _ Hpost) Hd).
    intros [= <- <-].
    assert (d ∈ nodes_of s2) as Hd2 by (rewrite Hn2, Hdom; set_solver).
    assert (id ∈ nodes_of s2) as Hid2 by by rewrite Hn2.
    destruct (connect_nodes _ _ _ (Some "False") (bp_wf _ _ _ _ Hp2) Hd2 Hid2) as [Hn3 Ha3].
    split_and!; try done.
    + by apply post_connect.
    + by rewrite Hn3, Hn2.
    + by rewrite Ha3, Ha2.
    + intros a e. rewrite connect_edge by (done || apply Hp2). rewrite Hedge2.
      destruct (decide (e = id)) as [->|He].
      * destruct (decide (Some d = Some a)) as [[= <-]|Hne].
        -- by rewrite decide_True.
        -- rewrite decide_False; [done|]. by intros [= <-].
      * rewrite decide_False; [done|]. by intros [= _ <-].
  - intros [= <- <-]. split_and!; try done.
    + by rewrite Hn2.
    + by rewrite Ha2.
Qed.

End Pieces.

(** ** The invariant of the block parser *)

Section Invariant.

Implicit Types s self b : UniversalCFGBuilder.

Lemma wf_advance s : wf s → wf (advance s).
Proof. intros H. split; [apply (wf_ids _ H)|apply (wf_edges _ H)]. Qed.

Lemma post_advance_l s cur s' out :
  block_post (advance s) cur s' out → block_post s cur s' out.
Proof.
  intros H. split; try apply H.
  split; [apply (ext_counter _ _ (bp_ext _ _ _ _ H))
         |apply (ext_nodes _ _ (bp_ext _ _ _ _ H))
         |apply (ext_edges _ _ (bp_ext _ _ _ _ H))].
Qed.

Lemma classify_return_inv m line :
  classify m line = KReturn → PyStr.startswith line "return" = true.
Proof.
  unfold classify.
  repeat match goal with |- context [if ?c then _ else _] => destruct c end;
    congruence.
Qed.

Lemma is_return_node_ext s s' n : extends s s' → is_return_node s n → is_return_node s' n.
Proof. intros He (line & ? & Ha). exists line. split; [done|]. by apply He. Qed.

Lemma is_decision_node_ext s s' n :
  extends s s' → is_decision_node s n → is_decision_node s' n.
Proof. intros He (line & fill & Ha). exists line, fill. by apply He. Qed.

Lemma node_attrs_shape label shape style fill :
  node_attrs label shape style fill !! "shape" = Some shape.
Proof.
  unfold node_attrs. rewrite lookup_insert_ne by done. apply lookup_insert_eq.
Qed.

Lemma return_not_decision s n : is_return_node s n → is_decision_node s n → False.
Proof.
  intros (l1 & _ & H1) (l2 & f & H2).
  assert (attrs_of s n ≫= (.!! "shape") = Some "box") as Hbox.
  { rewrite H1. apply node_attrs_shape. }
  assert (attrs_of s n ≫= (.!! "shape") = Some "diamond") as Hdia.
  { rewrite H2. apply node_attrs_shape. }
  rewrite Hbox in Hdia. discriminate.
Qed.

Lemma snoc_return_nodes s s' exits kinds e kb :
  extends s s' →
  (∀ i p, exits !! i = Some p → kinds !! i = Some ByReturn → is_return_node s p) →
  length kinds = length exits →
  (kb = ByReturn → is_return_node s' e) →
  ∀ i p, (exits ++ [e]) !! i = Some p → (kinds ++ [kb]) !! i = Some ByReturn →
         is_return_node s' p.
Proof.
  intros Hext Hold Hlen Hnew i p Hp Hk.
  destruct (decide (i < length exits)) as [Hlt|Hge].
  - rewrite lookup_app_l in Hp by done. rewrite lookup_app_l in Hk by lia.
    eapply is_return_node_ext; [done|]. by eapply Hold.
  - rewrite lookup_app_r in Hp by lia. rewrite lookup_app_r in Hk by lia.
    rewrite Hlen in Hk.
    destruct (i - length exits) as [|j]; simpl in *; [|done].
    injection Hp as <-. injection Hk as ->. by apply Hnew.
Qed.

Theorem exec_invariant :
  (∀ s cur buf s' out k, block_exec s cur buf s' out k → block_inv s cur buf s' out k)
  ∧ (∀ s exits kinds last s' exits' kinds' last',
       chain_exec s exits kinds last s' exits' kinds' last' →
       chain_inv s exits kinds last s' exits' kinds' last').
Proof.
  apply exec_mutind; unfold block_inv, chain_inv.
  - (* end of input *)
    intros s cur buf s' out _ Hf Hwf Hcur. split; [|done].
    by eapply flush_post.
  - (* elif / else seen *)
    intros s cur buf line s' out _ _ Hf Hwf Hcur. split; [|done].
    by eapply flush_post.
  - (* closing brace *)
    intros s cur buf line s1 out _ _ Hf Hwf Hcur. split; [|done].
    apply post_advance. by eapply flush_post.
  - (* opening brace *)
    intros s cur buf line s' out k _ _ _ IH Hwf Hcur.
    destruct (IH (wf_advance _ Hwf) Hcur) as [Hp Hr].
    split; [by apply post_advance_l|done].
  - (* loop *)
    intros s cur buf line s1 h s2 body_end kb s3 e s' out k
      _ _ Hh _ IHb Ht _ IH Hwf Hcur.
    rewrite loop_head_line_node in Hh.
    destruct (line_node_post _ _ _ _ _ _ _ _ Hwf Hcur Hh)
      as (s0 & pred & _ & Hp0 & _ & Hfresh & Hp1 & _).
    destruct (IHb (bp_wf _ _ _ _ Hp1) (bp_out _ _ _ _ Hp1)) as [Hp2 _].
    pose proof (post_trans _ _ _ _ _ _ Hwf Hp1 Hp2) as Hp12.
    destruct (loop_tail_post s cur s2 body_end h s3 e Hp12) as (Hp3 & _); [| | |exact Ht|].
    { apply (post_nodes _ _ _ _ Hp2), Hp1. }
    { intros Hin. by apply Hfresh, (post_nodes _ _ _ _ Hp0). }
    { eapply extends_reach; [apply Hp1|apply Hp2|apply Hp1]. }
    destruct (IH (bp_wf _ _ _ _ Hp3) (bp_out _ _ _ _ Hp3)) as [Hp4 Hret].
    split; [|done]. by eapply post_trans.
  - (* conditional chain *)
    intros s cur buf line s1 cnd s2 true_end kb s3 exits kinds last s4 m s' out k
      _ _ Hh _ IHb _ IHch Hm _ IH Hwf Hcur.
    rewrite if_head_line_node in Hh.
    destruct (line_node_post _ _ _ _ _ _ _ _ Hwf Hcur Hh)
      as (s0 & pred & _ & Hp0 & _ & Hfresh & Hp1 & _ & Hattr & _).
    destruct (IHb (bp_wf _ _ _ _ Hp1) (bp_out _ _ _ _ Hp1)) as [Hp2 Hret2].
    pose proof (post_trans _ _ _ _ _ _ Hwf Hp1 Hp2) as Hp12.
    destruct (IHch s cur true_end Hwf Hp12)
      as (out1 & Hp3 & Hext3 & Hexits & Hlast & Hrets & Hlen & Hpre).
    { apply (post_nodes _ _ _ _ Hp2), Hp1. }
    { eapply extends_reach; [apply Hp1|apply Hp2|apply Hp1]. }
    { eapply is_decision_node_ext; [apply Hp2|]. by eexists _, _. }
    { intros p ->%list_elem_of_singleton. split; [apply Hp12|apply Hp12]. }
    { intros [|i] p; simpl; [|done]. intros [= <-] [= ->]. by apply Hret2. }
    { done. }
    destruct Hpre as [rest ->]. simpl in Hm.
    destruct (merge_post s cur s3 out1 true_end rest last s4 m Hp3) as (Hp4 & _);
      [| | |exact Hm|].
    { intros p Hp. by apply Hexits. }
    { apply Hexits. left. }
    { intros d Hd. by apply Hlast. }
    destruct (IH (bp_wf _ _ _ _ Hp4) (bp_out _ _ _ _ Hp4)) as [Hp5 Hret].
    split; [|done]. by eapply post_trans.
  - (* return *)
    intros s cur buf line s' out _ Hc Hr Hwf Hcur.
    rewrite return_stmt_line_node in Hr.
    destruct (line_node_post _ _ _ _ _ _ _ _ Hwf Hcur Hr)
      as (s0 & pred & _ & _ & _ & _ & Hp1 & _ & Hattr & _).
    split; [done|]. intros _. exists line. split; [|done].
    by eapply classify_return_inv.
  - (* plain statement *)
    intros s cur buf line s' out k _ _ _ IH Hwf Hcur.
    destruct (IH (wf_advance _ Hwf) Hcur) as [Hp Hr].
    split; [by apply post_advance_l|done].
  - (* chain: end of input *)
    intros s exits kinds last _ b c out0 Hwfb Hp Hl Hrl Hdl Hex Hret Hlen.
    exists out0. split_and!; try done; try apply extends_refl.
    by intros d [= <-].
  - (* chain: any other line *)
    intros s exits kinds last line _ _ b c out0 Hwfb Hp Hl Hrl Hdl Hex Hret Hlen.
    exists out0. split_and!; try done; try apply extends_refl.
    by intros d [= <-].
  - (* chain: elif *)
    intros s exits kinds last line s1 e s2 elif_end kb s' exits' kinds' last'
      _ _ Hh _ IHb _ IH b c out0 Hwfb Hp Hl Hrl Hdl Hex Hret Hlen.
    pose proof (bp_wf _ _ _ _ Hp) as Hwf.
    destruct (elif_head_post _ _ _ _ _ _ _ _ Hp Hl Hrl Hh) as (Hp1 & _ & Hattr & _).
    destruct (elif_head_post _ _ _ _ _ _ _ _ (post_refl s last Hwf Hl) Hl
                (rtc_refl _ _) Hh) as (Hq1 & _).
    destruct (IHb (bp_wf _ _ _ _ Hp1) (bp_out _ _ _ _ Hp1)) as [Hp2 Hret2].
    pose proof (post_trans _ _ _ _ _ _ Hwfb Hp1 Hp2) as Hp12.
    pose proof (extends_trans _ _ _ (bp_ext _ _ _ _ Hq1) (bp_ext _ _ _ _ Hp2)) as Hext.
    destruct (IH b c elif_end Hwfb Hp12)
      as (out1 & Hp3 & Hext3 & Hexits & Hlast & Hrets & Hlen' & Hpre).
    { apply (post_nodes _ _ _ _ Hp2), Hp1. }
    { eapply extends_reach; [apply Hp1|apply Hp2|apply Hp1]. }
    { eapply is_decision_node_ext; [apply Hp2|]. by eexists _, _. }
    { intros p [Hin| ->%list_elem_of_singleton]%elem_of_app.
      - destruct (Hex p Hin) as [Hn Hr]. split.
        + by apply (extends_nodes _ _ Hext).
        + by apply (extends_reach s).
      - split; apply Hp12. }
    { eapply snoc_return_nodes; eauto. }
    { rewrite !length_app. simpl. lia. }
    exists out1. split_and!; try done.
    + by eapply extends_trans.
    + etrans; [|exact Hpre]. by apply prefix_app_r.
  - (* chain: else *)
    intros s exits kinds last line s1 e s2 else_end kb
      _ _ Hh _ IHb b c out0 Hwfb Hp Hl Hrl Hdl Hex Hret Hlen.
    pose proof (bp_wf _ _ _ _ Hp) as Hwf.
    destruct (else_head_post _ _ _ _ _ _ _ Hp Hl Hrl Hh) as (Hp1 & _).
    destruct (else_head_post _ _ _ _ _ _ _ (post_refl s last Hwf Hl) Hl
                (rtc_refl _ _) Hh) as (Hq1 & _).
    destruct (IHb (bp_wf _ _ _ _ Hp1) (bp_out _ _ _ _ Hp1)) as [Hp2 Hret2].
    pose proof (post_trans _ _ _ _ _ _ Hwfb Hp1 Hp2) as Hp12.
    pose proof (extends_trans _ _ _ (bp_ext _ _ _ _ Hq1) (bp_ext _ _ _ _ Hp2)) as Hext.
    exists else_end. split_and!; try done.
    + intros p [Hin| ->%list_elem_of_singleton]%elem_of_app.
      * destruct (Hex p Hin) as [Hn Hr]. split.
        -- by apply (extends_nodes _ _ Hext).
        -- by apply (extends_reach s).
      * split; apply Hp12.
    + eapply snoc_return_nodes; eauto.
    + rewrite !length_app. simpl. lia.
    + by apply prefix_app_r.
Qed.

End Invariant.

(** ** Degrees *)

Section Degrees.

Lemma map_size_gt1 {A} (m : gmap (string * string) A) :
  1 < size m ↔ ∃ k1 k2, k1 ≠ k2 ∧ is_Some (m !! k1) ∧ is_Some (m !! k2).
Proof.
  split.
  - intros Hsz.
    destruct (map_size_ne_0_lookup_1 m) as [k1 H1]; [lia|].
    destruct (map_size_ne_0_lookup_1 (delete k1 m)) as [k2 H2].
    { rewrite map_size_delete_Some by done. lia. }
    exists k1, k2. destruct (decide (k1 = k2)) as [->|Hne].
    + rewrite lookup_delete_eq in H2. by destruct H2.
    + rewrite lookup_delete_ne in H2 by done. done.
  - intros (k1 & k2 & Hne & H1 & H2).
    assert (size (delete k1 m) ≠ 0) as Hd.
    { apply (map_size_ne_0_lookup_2 _ k2). by rewrite lookup_delete_ne. }
    rewrite map_size_delete_Some in Hd by done. lia.
Qed.

(** More than one outgoing edge: two different successors. *)
Lemma out_degree_gt1 G n :
  1 < nx.out_degree G n ↔ ∃ v1 v2, v1 ≠ v2 ∧ nx.has_edge G n v1 ∧ nx.has_edge G n v2.
Proof.
  unfold nx.out_degree, nx.has_edge. rewrite map_size_gt1. split.
  - intros ([u1 v1] & [u2 v2] & Hne & [l1 H1] & [l2 H2]).
    apply map_lookup_filter_Some in H1 as [H1 E1].
    apply map_lookup_filter_Some in H2 as [H2 E2]. simpl in *. subst.
    exists v1, v2. split_and!; [congruence|by eexists..].
  - intros (v1 & v2 & Hne & [l1 H1] & [l2 H2]).
    exists (n, v1), (n, v2). split_and!; [congruence|eexists..];
      by apply map_lookup_filter_Some.
Qed.

Lemma in_degree_0 G n : nx.in_degree G n = 0 ↔ ∀ u, ¬ nx.has_edge G u n.
Proof.
  unfold nx.in_degree, nx.has_edge. rewrite map_size_empty_iff. split.
  - intros Hemp u [l Hl].
    assert (filter (λ e : string * string * option string, e.1.2 = n) (_adj G)
              !! (u, n) = Some l) as Hf by by apply map_lookup_filter_Some.
    rewrite Hemp in Hf. by rewrite lookup_empty in Hf.
  - intros Hno. apply map_empty. intros [u v].
    apply map_lookup_filter_None. right. intros l Hl Hv. simpl in Hv. subst v.
    apply (Hno u). by eexists.
Qed.

End Degrees.

(** ** Metrics (C8) *)

(** C8. [calculate_metrics] depends on the graph only.  On a graph without
    nodes it returns the empty dict.  Otherwise the dict has exactly the
    keys Nodes, Edges, Complexity, Predicates and Regions, where Nodes is
    the number of nodes, Edges the number of edges, Predicates the number
    of nodes with more than one outgoing edge (two different successors),
    Complexity is Edges - Nodes + 2 over the integers, and Regions equals
    Complexity. *)
Theorem calculate_metrics_spec (G : DiGraph) :
  (nx.number_of_nodes G = 0 → calculate_metrics G = ∅)
  ∧ (nx.number_of_nodes G ≠ 0 →
     ∃ (n e p cc : Z) (P : gset string),
       calculate_metrics G !! "Nodes" = Some n
       ∧ calculate_metrics G !! "Edges" = Some e
       ∧ calculate_metrics G !! "Predicates" = Some p
       ∧ calculate_metrics G !! "Complexity" = Some cc
       ∧ calculate_metrics G !! "Regions" = Some cc
       ∧ dom (calculate_metrics G)
         = ({["Nodes"; "Edges"; "Complexity"; "Predicates"; "Regions"]} : gset string)
       ∧ n = Z.of_nat (size (_node G))
       ∧ e = Z.of_nat (size (_adj G))
       ∧ (∀ x, x ∈ P ↔ nx.has_node G x
                        ∧ ∃ v1 v2, v1 ≠ v2 ∧ nx.has_edge G x v1 ∧ nx.has_edge G x v2)
       ∧ p = Z.of_nat (size P)
       ∧ cc = (e - n + 2)%Z).
Proof.
  unfold calculate_metrics, graph_falsy. split.
  - intros ->. done.
  - intros Hne. destruct (Nat.eqb_spec (nx.number_of_nodes G) 0) as [?|_]; [done|].
    eexists _, _, _, _,
      (dom (filter (λ na : string * gmap string string, 1 < nx.out_degree G na.1) (_node G))).
    split_and!; try reflexivity.
    + intros x. rewrite elem_of_dom. unfold nx.has_node. rewrite <-out_degree_gt1.
      split.
      * intros [a [Ha Hd]%map_lookup_filter_Some]. split; [by eexists|done].
      * intros [[a Ha] Hd]. exists a. by apply map_lookup_filter_Some.
    + unfold predicates. by rewrite size_dom.
Qed.

(** ** Inputs without statement lines (C10) *)

Section NoStatements.

(** Over brace lines only, the block parser changes nothing but the
    cursor and returns its entry node. *)
Lemma block_loop_braces fuel :
  ∀ s cur,
    (∀ i l, cursor s ≤ i → lines s !! i = Some l → is_brace (mode s) l) →
    length (lines s) - cursor s < fuel →
    ∃ s', block_loop fuel s cur [] = Some (s', cur)
          ∧ graph s' = graph s ∧ node_counter s' = node_counter s.
Proof.
  induction fuel as [|fuel IH]; intros s cur Hall Hfuel; [lia|].
  rewrite block_loop_S.
  destruct (lines s !! cursor s) as [line|] eqn:Hl; [|by eexists].
  destruct (Hall _ _ (Nat.le_refl _) Hl) as [Hc|Hc]; rewrite Hc.
  - apply lookup_lt_Some in Hl.
    destruct (IH (advance s) cur) as (s' & -> & Hg & Hn).
    + intros i l Hi. apply Hall. simpl in Hi. lia.
    + simpl. lia.
    + by eexists.
  - by eexists.
Qed.

Lemma parse_lines_braces m ls :
  Forall (is_brace m) ls →
  ∃ s', parse_lines init m ls = Some s' ∧ graph s' = start_end_graph.
Proof.
  intros Hall. unfold parse_lines, parse_block.
  destruct (new_node "START" "oval" "filled" "#C8E6C9" _) as [start s1] eqn:Hnew.
  unfold new_node in Hnew. injection Hnew as <- <-.
  match goal with |- context [block_loop ?f ?s ?c []] =>
    destruct (block_loop_braces f s c) as (s' & -> & Hg & Hn) end.
  - simpl. intros i l _ Hl. by eapply Forall_lookup_1 in Hall.
  - unfold enough_fuel. lia.
  - eexists. split; [reflexivity|].
    unfold connect, new_node. simpl. rewrite Hg, Hn. reflexivity.
Qed.

End NoStatements.

Section Blank.

Lemma contains_char_space c s :
  PyStr.isspace c = false → all_space s = true → PyStr.contains_char c s = false.
Proof.
  intros Hc. induction s as [|d s IH]; simpl; [done|].
  intros [Hd Hs]%andb_true_iff. rewrite (IH Hs), orb_false_r.
  destruct (Ascii.eqb_spec c d) as [->|]; [congruence|done].
Qed.

Lemma strip_comments_space s :
  all_space s = true → PyStr.strip_comments "#" s = s.
Proof.
  unfold PyStr.strip_comments. induction s as [|d s IH]; [done|].
  simpl all_space. intros [Hd Hs]%andb_true_iff.
  change (PyStr.strip_comments_go "#" false (String d s))
    with (if String.prefix "#" (String d s)
          then PyStr.strip_comments_go "#" true s
          else String d (PyStr.strip_comments_go "#" false s)).
  change (String.prefix "#" (String d s))
    with (if ascii_dec "#" d then String.prefix "" s else false).
  destruct (ascii_dec "#" d) as [<-|_]; [done|]. by rewrite (IH Hs).
Qed.

Lemma split_lines_space s :
  all_space s = true → Forall (λ l, all_space l = true) (PyStr.split_lines s).
Proof.
  induction s as [|d s IH]; simpl; [by repeat constructor|].
  intros [Hd Hs]%andb_true_iff. specialize (IH Hs).
  destruct (Ascii.eqb d PyStr.newline); [by constructor|].
  destruct (PyStr.split_lines s) as [|h t].
  - repeat constructor. simpl. by rewrite Hd.
  - apply Forall_cons in IH as [Hh Ht]. constructor; [|done].
    simpl. by rewrite Hd, Hh.
Qed.

Lemma strip_space l : all_space l = true → PyStr.strip l = EmptyString.
Proof.
  unfold PyStr.strip. intros H.
  assert (PyStr.lstrip l = EmptyString) as ->; [|done].
  induction l as [|d l IH]; simpl in *; [done|].
  apply andb_true_iff in H as [-> Hl]. by apply IH.
Qed.

(** A text of whitespace only is normalised to no line at all. *)
Lemma normalize_space code_text :
  all_space code_text = true → normalize code_text = (python_style, []).
Proof.
  intros H. unfold normalize.
  rewrite (contains_char_space "{" _ eq_refl H). simpl andb. cbv iota.
  rewrite (strip_comments_space _ H). f_equal.
  pose proof (split_lines_space _ H) as Hall.
  induction Hall as [|l ls Hl _ IH]; simpl; [done|].
  by rewrite (strip_space _ Hl).
Qed.

End Blank.

(** C10. When the normalised text has no statement line (it has no line at
    all, or bare brace lines only), [parse] on a fresh builder returns the
    graph with exactly the nodes START and END joined by one unlabeled
    edge, whose metrics are Nodes = 2, Edges = 1, Complexity = 1 and
    Predicates = 0. *)
Theorem parse_no_statement (code_text : string) :
  Forall (is_brace (normalize code_text).1) (normalize code_text).2 →
  ∃ s', parse init code_text = Some s'
        ∧ graph s' = start_end_graph
        ∧ nx.number_of_nodes (graph s') = 2
        ∧ nx.number_of_edges (graph s') = 1
        ∧ edge s' "N1" "N2" = Some None
        ∧ calculate_metrics (graph s') !! "Nodes" = Some 2%Z
        ∧ calculate_metrics (graph s') !! "Edges" = Some 1%Z
        ∧ calculate_metrics (graph s') !! "Complexity" = Some 1%Z
        ∧ calculate_metrics (graph s') !! "Predicates" = Some 0%Z.
Proof.
  intros Hall. unfold parse. destruct (normalize code_text) as [m ls]. simpl in Hall.
  destruct (parse_lines_braces m ls Hall) as (s' & -> & Hg).
  exists s'. unfold edge. rewrite Hg. split_and!; reflexivity.
Qed.

(** In particular for every text of whitespace only. *)
Corollary parse_blank_text (code_text : string) :
  all_space code_text = true →
  ∃ s', parse init code_text = Some s' ∧ graph s' = start_end_graph.
Proof.
  intros H. unfold parse. rewrite (normalize_space _ H).
  apply parse_lines_braces. constructor.
Qed.

Lemma parse_no_statement_witness :
  ∃ s', parse init "   " = Some s' ∧ graph s' = start_end_graph.
Proof.
  destruct (parse_no_statement "   ") as (s' & H1 & H2 & _).
  - vm_compute. constructor.
  - by exists s'.
Defined.

(** ** Edges between one ordered pair (C1) *)

(** C1, as stated, fails.  On the input [if x:] the merge step connects the
    pair (N2, N3) twice, unlabeled for the recorded exit and labeled False
    for the open decision; the finished graph holds one edge for that pair,
    labeled False, and three edges in all for the four connect calls. *)
Lemma connect_twice_one_edge :
  let s1 := (new_node "Merge" "point" "filled" "white" before_merge_of_if).2 in
  let once := connect "N2" "N3" None s1 in
  let twice := connect "N2" "N3" (Some "False") once in
  merge before_merge_of_if ["N2"] (Some "N2") = (twice, "N3")
  ∧ edge once "N2" "N3" = Some None
  ∧ edge twice "N2" "N3" = Some (Some "False")
  ∧ nx.number_of_edges (graph once) = 2
  ∧ nx.number_of_edges (graph twice) = 2
  ∧ match parse_lines init python_style ["if x:"] with
    | Some s' =>
        nx.number_of_edges (graph s') = 3
        ∧ edge s' "N2" "N3" = Some (Some "False")
        ∧ calculate_metrics (graph s') !! "Edges" = Some 3%Z
    | None => False
    end.
Proof. vm_compute. repeat split. Qed.

(** C1, amended.  The graph holds at most one edge per ordered pair of
    nodes.  A connect on a pair that is already joined adds no edge and
    replaces the label of the existing one; the number of edges counts the
    pair once. *)
Theorem connect_same_pair (self : UniversalCFGBuilder) (u v : string)
    (l1 l2 : option string) :
  nx.number_of_edges (graph (connect u v l2 (connect u v l1 self)))
  = nx.number_of_edges (graph (connect u v l1 self))
  ∧ _adj (graph (connect u v l2 (connect u v l1 self)))
    = _adj (graph (connect u v l2 self))
  ∧ (PyStr.truthy u && PyStr.truthy v = true →
     edge (connect u v l1 self) u v = Some l1
     ∧ edge (connect u v l2 (connect u v l1 self)) u v = Some l2).
Proof.
  unfold connect, edge, nx.number_of_edges.
  destruct (PyStr.truthy u && PyStr.truthy v); simpl; [|done].
  split_and!.
  - apply map_size_insert_Some. rewrite lookup_insert_eq. by eexists.
  - apply insert_insert_eq.
  - intros _. by rewrite !lookup_insert_eq.
Qed.

(** ** Reuse of a builder (C2) *)

(** C2 fails on the code: [parse] sets lines, cursor and mode again but
    keeps the graph and the node counter.  A second [parse] of the text [a]
    on the same builder returns a graph with six nodes N1 .. N6, the three
    of the first call among them, where a fresh builder gives three. *)
Theorem parse_reuse_keeps_graph :
  match parse init "a" with
  | Some s1 =>
      match parse s1 "a" with
      | Some s2 =>
          nx.number_of_nodes (graph s1) = 3 ∧ node_counter s1 = 3
          ∧ nx.number_of_nodes (graph s2) = 6 ∧ node_counter s2 = 6
          ∧ label_of s2 "N1" = Some "START" ∧ label_of s2 "N4" = Some "START"
          ∧ nx.in_degree (graph s2) "N1" = 0 ∧ nx.in_degree (graph s2) "N4" = 0
          ∧ nx.number_of_nodes (graph s2) ≠ nx.number_of_nodes (graph s1)
      | None => False
      end
  | None => False
  end.
Proof. vm_compute. repeat split. discriminate. Qed.

(** ** How a block ends (C3) *)

Section BlockEnds.

Lemma classify_branch_end m line :
  PyStr.startswith line "elif" || PyStr.startswith line "else" = true →
  classify m line = KBranchEnd.
Proof. unfold classify. by intros ->. Qed.

Lemma classify_close_brace : classify c_style "}" = KBlockEnd.
Proof. reflexivity. Qed.

(** Through which exit a call has left, read off the final cursor. *)
Lemma block_exit_cursor s cur buf s' out k :
  block_exec s cur buf s' out k →
  match k with
  | ByPeek => ∃ line, lines s' !! cursor s' = Some line
                      ∧ classify (mode s') line = KBranchEnd
  | ByBrace => ∃ c, cursor s' = S c ∧ cursor s ≤ c
                    ∧ ∃ line, lines s' !! c = Some line
                              ∧ classify (mode s') line = KBlockEnd
  | ByReturn => ∃ c, cursor s' = S c ∧ cursor s ≤ c
                     ∧ ∃ line, lines s' !! c = Some line
                               ∧ classify (mode s') line = KReturn
  | ByEnd => length (lines s') ≤ cursor s'
  end.
Proof.
  revert s cur buf s' out k.
  apply (block_exec_ind2
           (λ s cur buf s' out k,
              match k with
              | ByPeek => ∃ line, lines s' !! cursor s' = Some line
                                  ∧ classify (mode s') line = KBranchEnd
              | ByBrace => ∃ c, cursor s' = S c ∧ cursor s ≤ c
                                ∧ ∃ line, lines s' !! c = Some line
                                          ∧ classify (mode s') line = KBlockEnd
              | ByReturn => ∃ c, cursor s' = S c ∧ cursor s ≤ c
                                 ∧ ∃ line, lines s' !! c = Some line
                                           ∧ classify (mode s') line = KReturn
              | ByEnd => length (lines s') ≤ cursor s'
              end)
           (λ _ _ _ _ _ _ _ _, True)); try done.
  - intros s cur buf s' out Hl Hf.
    apply flush_buffer_fields in Hf as (-> & -> & _). by apply lookup_ge_None.
  - intros s cur buf line s' out Hl Hc Hf.
    apply flush_buffer_fields in Hf as (-> & -> & ->). by exists line.
  - intros s cur buf line s1 out Hl Hc Hf.
    apply flush_buffer_fields in Hf as (Hl1 & Hc1 & Hm1). exists (cursor s).
    simpl. rewrite Hl1, Hc1, Hm1. split_and!; [done..|]. by exists line.
  - intros s cur buf line s' out k Hl Hc _ IH.
    destruct k; [done| | |done]; destruct IH as (c & -> & Hle & Hline);
      exists c; simpl in Hle; (split_and!; [done|lia|done]).
  - intros s cur buf line s1 h s2 body_end kb s3 e s' out k Hl Hc Hh Hb _ Ht _ IH.
    apply loop_head_fields in Hh as (_ & Hc1 & _).
    apply block_exec_fields in Hb as (_ & _ & Hc2).
    apply loop_tail_fields in Ht as (_ & Hc3 & _).
    destruct k; [done| | |done]; destruct IH as (c & -> & Hle & Hline);
      exists c; (split_and!; [done|lia|done]).
  - intros s cur buf line s1 cnd s2 true_end kb s3 exits kinds last s4 m s' out k
      Hl Hc Hh Hb _ Hch _ Hm _ IH.
    apply if_head_fields in Hh as (_ & Hc1 & _).
    apply block_exec_fields in Hb as (_ & _ & Hc2).
    apply chain_exec_fields in Hch as (_ & _ & Hc3).
    apply merge_fields in Hm as (_ & Hc4 & _).
    destruct k; [done| | |done]; destruct IH as (c & -> & Hle & Hline);
      exists c; (split_and!; [done|lia|done]).
  - intros s cur buf line s' out Hl Hc Hr.
    apply return_stmt_fields in Hr as (Hl1 & Hc1 & Hm1). exists (cursor s).
    rewrite Hl1, Hc1, Hm1. split_and!; [done..|]. by exists line.
  - intros s cur buf line s' out k Hl Hc _ IH.
    destruct k; [done| | |done]; destruct IH as (c & -> & Hle & Hline);
      exists c; simpl in Hle; (split_and!; [done|lia|done]).
Qed.

End BlockEnds.

(** C3. Let the loop of [parse_block] be at a builder whose pending buffer
    flushes to [(self', out)].  If the current line starts with elif or
    else, the call returns [out] with the builder [self']: the cursor has
    not moved and that line is still the current one.  If the mode is
    c_style and the current line is the closing brace, the call returns
    [out] with the cursor one past that line.  At the end of the input the
    call returns [out] with the cursor past the last line, so that no line
    is left unconsumed. *)
Theorem termination_by_peek (fuel : nat) (self : UniversalCFGBuilder)
    (current_node : string) (buffer : list string)
    (self' : UniversalCFGBuilder) (out : string) :
  flush_buffer self current_node buffer = (self', out) →
  (∀ line, lines self !! cursor self = Some line →
           PyStr.startswith line "elif" || PyStr.startswith line "else" = true →
           block_loop (S fuel) self current_node buffer = Some (self', out)
           ∧ cursor self' = cursor self
           ∧ lines self' !! cursor self' = Some line)
  ∧ (mode self = c_style → lines self !! cursor self = Some "}" →
     block_loop (S fuel) self current_node buffer = Some (advance self', out)
     ∧ cursor (advance self') = S (cursor self)
     ∧ lines (advance self') !! cursor self = Some "}")
  ∧ (lines self !! cursor self = None →
     block_loop (S fuel) self current_node buffer = Some (self', out)
     ∧ length (lines self') ≤ cursor self').
Proof.
  intros Hf. pose proof (flush_buffer_fields _ _ _ _ _ Hf) as (Hl & Hc & Hm).
  split_and!.
  - intros line Hline Hpre. rewrite block_loop_S, Hline.
    rewrite (classify_branch_end _ _ Hpre), Hf, Hl, Hc. done.
  - intros Hmode Hline. rewrite block_loop_S, Hline, Hmode, classify_close_brace, Hf.
    simpl. by rewrite Hl, Hc.
  - intros Hline. rewrite block_loop_S, Hline, Hf, Hl, Hc.
    split; [done|]. by apply lookup_ge_None.
Qed.

Lemma termination_by_peek_witness :
  let s := mkBuilder nx.empty 0 ["a"; "else:"; "b"] 1 python_style in
  block_loop 1 s "N1" [] = Some (s, "N1") ∧ cursor s = 1.
Proof.
  intros s.
  destruct (termination_by_peek 0 s "N1" [] s "N1" eq_refl) as (H & _ & _).
  destruct (H "else:" eq_refl eq_refl) as (Hrun & _ & _).
  split; [exact Hrun|reflexivity].
Defined.

(** ** One entry node, everything reachable (C7) *)

Section Entry.

Lemma wf_init_lines m ls : wf (mkBuilder nx.empty 0 ls 0 m).
Proof.
  split.
  - intros n Hn. unfold nodes_of in Hn. simpl in Hn. by rewrite dom_empty_L in Hn.
  - intros u v [l Hl]. unfold edge in Hl. simpl in Hl. by rewrite lookup_empty in Hl.
Qed.

(** The result of a call of the function satisfies the invariant. *)
Lemma block_loop_post fuel s cur buf s' out :
  wf s → cur ∈ nodes_of s →
  block_loop fuel s cur buf = Some (s', out) →
  block_post s cur s' out.
Proof.
  intros Hwf Hcur Hrun.
  apply (proj1 (loops_sound fuel)) in Hrun as [k Hrun].
  by apply (proj1 exec_invariant) in Hrun as [Hp _].
Qed.

(** [parse_lines] on a fresh builder: START is [N1], the graph is
    well-formed, no edge enters START and every node is reachable. *)
Lemma parse_lines_post m ls :
  ∃ s', parse_lines init m ls = Some s'
        ∧ wf s'
        ∧ attrs_of s' "N1" = Some (node_attrs "START" "oval" "filled" "#C8E6C9")
        ∧ (∀ u, edge s' u "N1" = None)
        ∧ (∀ n, n ∈ nodes_of s' → reach s' "N1" n).
Proof.
  unfold parse_lines. cbv zeta.
  change (mkBuilder (graph init) (node_counter init) ls 0 m)
    with (mkBuilder nx.empty 0 ls 0 m).
  pose proof (wf_init_lines m ls) as Hwf0.
  destruct (new_node "START" "oval" "filled" "#C8E6C9" _) as [start s1] eqn:Hnew.
  destruct (new_node_wf _ _ _ _ _ _ _ Hwf0 Hnew) as (Hwf1 & _ & Hdom & Hattr).
  destruct (new_node_spec _ _ _ _ _ _ _ Hwf0 Hnew) as (Hid & _ & _ & _ & Hadj).
  simpl in Hid. change (node_id 1) with "N1" in Hid. subst start.
  assert (nodes_of s1 = {["N1"]}) as Hdom1.
  { rewrite Hdom. unfold nodes_of. simpl. rewrite dom_empty_L. set_solver. }
  destruct (parse_block_total s1 "N1") as [[s2 last] Hrun]. rewrite Hrun.
  assert ("N1" ∈ nodes_of s1) as Hin by (rewrite Hdom1; set_solver).
  pose proof (block_loop_post _ _ _ _ _ _ Hwf1 Hin Hrun) as Hp.
  destruct (new_node "END" "oval" "filled" "#FFCDD2" s2) as [e s3] eqn:Hend.
  destruct (post_spawn _ _ _ _ last _ _ _ _ None _ _ Hp (bp_out _ _ _ _ Hp)
              (bp_reach_out _ _ _ _ Hp) Hend) as (Hp3 & _).
  eexists. split; [reflexivity|]. split_and!.
  - apply Hp3.
  - by apply (ext_nodes _ _ (bp_ext _ _ _ _ Hp3)).
  - intros u. rewrite (ext_edges _ _ (bp_ext _ _ _ _ Hp3)) by done.
    unfold edge. rewrite Hadj. simpl. apply lookup_empty.
  - intros n Hn. destruct (bp_reach _ _ _ _ Hp3 n Hn) as [Hn1|Hr]; [|done].
    rewrite Hdom1 in Hn1. apply elem_of_singleton in Hn1 as ->. apply rtc_refl.
Qed.

End Entry.

(** C7. For every text, [parse] on a fresh builder returns; in the finished
    graph the node N1, labeled START, is the one node without an incoming
    edge, and every node can be reached from it along directed edges. *)
Theorem single_entry_all_reachable (code_text : string) :
  ∃ s', parse init code_text = Some s'
        ∧ attrs_of s' "N1" = Some (node_attrs "START" "oval" "filled" "#C8E6C9")
        ∧ (∀ n, n ∈ nodes_of s' → (nx.in_degree (graph s') n = 0 ↔ n = "N1"))
        ∧ (∀ n, n ∈ nodes_of s' → reach s' "N1" n).
Proof.
  unfold parse. destruct (normalize code_text) as [m ls].
  destruct (parse_lines_post m ls) as (s' & Hrun & Hwf & Hattr & Hno & Hreach).
  exists s'. split_and!; [done..| |done].
  intros n Hn. rewrite in_degree_0. split.
  - intros Hdeg. destruct (rtc_inv_r _ _ (Hreach n Hn)) as [->|(u & _ & Hu)]; [done|].
    by destruct (Hdeg u).
  - intros -> u [l Hl]. unfold edge in Hno. by rewrite Hno in Hl.
Qed.

(** ** Recognising the keywords *)

Section Keywords.

Lemma startswith_app s p : PyStr.startswith s p = true ↔ ∃ r, s = p +:+ r.
Proof.
  unfold PyStr.startswith. revert s.
  induction p as [|a p IH]; intros s.
  - split; [by exists s|by destruct s].
  - destruct s as [|b s]; simpl; [split; [done|by intros [r ?]]|].
    destruct (ascii_dec a b) as [<-|Hne].
    + rewrite IH. split; intros [r Hr]; exists r.
      * by rewrite Hr.
      * change (String a s = String a (p +:+ r)) in Hr. by injection Hr.
    + split; [done|]. intros [r Hr].
      change (String b s = String a (p +:+ r)) in Hr. congruence.
Qed.

Lemma classify_loop m line :
  PyStr.startswith line "for" || PyStr.startswith line "while" = true →
  classify m line = KLoop.
Proof.
  intros [[r ->]%startswith_app|[r ->]%startswith_app]%orb_true_iff;
    destruct r, m; reflexivity.
Qed.

Lemma classify_if m line : PyStr.startswith line "if" = true → classify m line = KIf.
Proof. intros [r ->]%startswith_app. destruct r, m; reflexivity. Qed.

Lemma classify_return m line :
  PyStr.startswith line "return" = true → classify m line = KReturn.
Proof. intros [r ->]%startswith_app. destruct r, m; reflexivity. Qed.

End Keywords.

(** ** The loop construct (C5) *)

Section Loop.

Implicit Types s : UniversalCFGBuilder.

Lemma spawn_extends s p label shape style fill l id s1 :
  wf s → p ∈ nodes_of s →
  new_node label shape style fill s = (id, s1) →
  extends s (connect p id l s1).
Proof.
  intros Hwf Hp Hnew.
  destruct (post_spawn s p s p p _ _ _ _ l _ _ (post_refl _ _ Hwf Hp) Hp
              (rtc_refl _ _) Hnew) as (Hpost & _).
  apply Hpost.
Qed.

Lemma loop_tail_attrs s body_end h s3 e :
  wf s → body_end ∈ nodes_of s → h ∈ nodes_of s →
  loop_tail s body_end h = (s3, e) →
  ∀ n a, attrs_of s n = Some a → attrs_of s3 n = Some a.
Proof.
  intros Hwf Hb Hh. unfold loop_tail.
  destruct (new_node _ _ _ _ _) as [id s'] eqn:Hnode. intros [= <- <-] n a Ha.
  destruct (connect_nodes _ _ _ (Some "Loop") Hwf Hb Hh) as [Hn Hattrs].
  apply (ext_nodes _ _ (spawn_extends _ h _ _ _ _ (Some "False") _ _
                          (connect_wf _ _ _ _ Hwf Hb Hh) ltac:(by rewrite Hn) Hnode)).
  by rewrite Hattrs.
Qed.

End Loop.

(** C5. When the block parser of a well-formed builder is at a line that
    starts with for or while, it flushes the buffer, creates a diamond node
    for the header with an unlabeled edge from the predecessor, consumes
    the line and parses the body with the header as entry.  Whatever node
    the body returns (also the node of a return line), the finished call
    has an edge labeled Loop from it to the header, a new point node
    "Exit Loop" with an edge labeled False from the header, and the call
    goes on with the exit node as predecessor. *)
Theorem loop_construct (fuel : nat) (s : UniversalCFGBuilder) (cur : string)
    (buf : list string) (line : string) (s' : UniversalCFGBuilder) (out : string) :
  wf s → cur ∈ nodes_of s →
  lines s !! cursor s = Some line →
  PyStr.startswith line "for" || PyStr.startswith line "while" = true →
  block_loop (S fuel) s cur buf = Some (s', out) →
  ∃ s0 pred s1 header s2 body_end s3 exit_node,
    flush_buffer s cur buf = (s0, pred)
    ∧ loop_head s cur buf line = (s1, header)
    ∧ (header ∉ nodes_of s0) ∧ cursor s1 = S (cursor s)
    ∧ block_loop fuel s1 header [] = Some (s2, body_end)
    ∧ loop_tail s2 body_end header = (s3, exit_node)
    ∧ (exit_node ∉ nodes_of s2)
    ∧ block_loop fuel s3 exit_node [] = Some (s', out)
    ∧ attrs_of s' header
      = Some (node_attrs (clean_label line) "diamond" "filled" "#FFF9C4")
    ∧ attrs_of s' exit_node = Some (node_attrs "Exit Loop" "point" "filled" "white")
    ∧ edge s' pred header = Some None
    ∧ edge s' body_end header = Some (Some "Loop")
    ∧ edge s' header exit_node = Some (Some "False").
Proof.
  intros Hwf Hcur Hline Hkw Hrun.
  rewrite block_loop_S, Hline, (classify_loop _ _ Hkw) in Hrun.
  destruct (loop_head s cur buf line) as [s1 h] eqn:Hh.
  destruct (block_loop fuel s1 h []) as [[s2 body_end]|] eqn:Hbody; [|done].
  destruct (loop_tail s2 body_end h) as [s3 e] eqn:Ht.
  pose proof Hh as Hh'. rewrite loop_head_line_node in Hh'.
  destruct (line_node_post _ _ _ _ _ _ _ _ Hwf Hcur Hh')
    as (s0 & pred & Hf & Hp0 & Hid & Hfresh & Hp1 & Hdom1 & Hattr & Hedge1 & Hc1).
  pose proof (block_loop_post _ _ _ _ _ _ (bp_wf _ _ _ _ Hp1) (bp_out _ _ _ _ Hp1) Hbody)
    as Hp2.
  pose proof (post_trans _ _ _ _ _ _ Hwf Hp1 Hp2) as Hp12.
  assert (h ∈ nodes_of s2) as Hh2 by apply (post_nodes _ _ _ _ Hp2), Hp1.
  assert (h ∉ nodes_of s) as Hhs.
  { intros Hin. by apply Hfresh, (post_nodes _ _ _ _ Hp0). }
  destruct (loop_tail_post s cur s2 body_end h s3 e Hp12 Hh2 Hhs)
    as (Hp3 & Hfe & _ & Hdom3 & Hattre & Hedge3); [|exact Ht|].
  { eapply extends_reach; [apply Hp1|apply Hp2|apply Hp1]. }
  pose proof (block_loop_post _ _ _ _ _ _ (bp_wf _ _ _ _ Hp3) (bp_out _ _ _ _ Hp3) Hrun)
    as Hp4.
  assert (h ∈ nodes_of s3) as Hh3 by (rewrite Hdom3; set_solver).
  assert (e ≠ h) as Heh by (intros ->; done).
  assert (pred ∈ nodes_of s0) as Hpred by apply Hp0.
  assert (body_end ≠ pred) as Hbp.
  { destruct (bp_out_new _ _ _ _ Hp2) as [->|Hnew].
    - intros <-. done.
    - intros ->. apply Hnew. rewrite Hdom1. set_solver. }
  exists s0, pred, s1, h, s2, body_end, s3, e.
  split_and!; try done.
  - apply (ext_nodes _ _ (bp_ext _ _ _ _ Hp4)).
    apply (loop_tail_attrs _ _ _ _ _ (bp_wf _ _ _ _ Hp2) (bp_out _ _ _ _ Hp2) Hh2 Ht).
    by apply (ext_nodes _ _ (bp_ext _ _ _ _ Hp2)).
  - by apply (ext_nodes _ _ (bp_ext _ _ _ _ Hp4)).
  - rewrite (ext_edges _ _ (bp_ext _ _ _ _ Hp4)) by done.
    rewrite Hedge3, decide_False, decide_False by congruence.
    rewrite (ext_edges _ _ (bp_ext _ _ _ _ Hp2)) by apply Hp1.
    by rewrite Hedge1, decide_True.
  - rewrite (ext_edges _ _ (bp_ext _ _ _ _ Hp4)) by done.
    by rewrite Hedge3, decide_False, decide_True by congruence.
  - rewrite (ext_edges _ _ (bp_ext _ _ _ _ Hp4)) by apply Hp3.
    by rewrite Hedge3, decide_True.
Qed.

Lemma start_state_wf m ls : wf (start_state m ls) ∧ "N1" ∈ nodes_of (start_state m ls).
Proof.
  unfold start_state.
  destruct (new_node "START" "oval" "filled" "#C8E6C9" _) as [start s1] eqn:Hnew.
  destruct (new_node_wf _ _ _ _ _ _ _ (wf_init_lines m ls) Hnew) as (Hwf & _ & Hdom & _).
  destruct (new_node_spec _ _ _ _ _ _ _ (wf_init_lines m ls) Hnew) as (-> & _).
  split; [done|]. simpl. rewrite Hdom. apply elem_of_union_l, elem_of_singleton.
  reflexivity.
Qed.

Lemma loop_construct_witness :
  ∃ s' out body_end header,
    block_loop 3 (start_state python_style ["while x:"; "return"]) "N1" []
      = Some (s', out)
    ∧ edge s' body_end header = Some (Some "Loop")
    ∧ attrs_of s' header
      = Some (node_attrs (clean_label "while x:") "diamond" "filled" "#FFF9C4").
Proof.
  pose (s := start_state python_style ["while x:"; "return"]).
  destruct (start_state_wf python_style ["while x:"; "return"]) as [Hwf Hin].
  destruct (proj1 (loops_total 3) s "N1" []) as [[s' out] Hrun]; [simpl; lia|].
  destruct (loop_construct 2 s "N1" [] "while x:" s' out Hwf Hin eq_refl eq_refl Hrun)
    as (s0 & pred & s1 & header & s2 & body_end & s3 & e
        & _ & _ & _ & _ & _ & _ & _ & _ & Ha & _ & _ & Hloop & _).
  by exists s', out, body_end, header.
Defined.

(** ** The conditional chain (C6, C4) *)

Section Chain.

Implicit Types s : UniversalCFGBuilder.

(** How the inner loop of section 5.B has stopped: with the chain closed
    ([None]) exactly after the branch of an else line, and otherwise, with
    the last decision still open, at the end of the input or at a line
    that continues no chain. *)
Lemma chain_loop_outcome fuel :
  ∀ s exits d s' exits' last',
    chain_loop fuel s exits d = Some (s', exits', last') →
    match last' with
    | None =>
        ∃ s_e d_e line s_e1 else_start else_end fuel',
          lines s_e !! cursor s_e = Some line
          ∧ classify_chain line = CElse
          ∧ else_head s_e d_e = (s_e1, else_start)
          ∧ block_loop fuel' s_e1 else_start [] = Some (s', else_end)
          ∧ last exits' = Some else_end
    | Some d' =>
        lines s' !! cursor s' = None
        ∨ ∃ line, lines s' !! cursor s' = Some line ∧ classify_chain line = COther
    end.
Proof.
  induction fuel as [|fuel IH]; intros s exits d s' exits' last'; [done|].
  rewrite chain_loop_S.
  destruct (lines s !! cursor s) as [line|] eqn:Hl; [|intros [= <- <- <-]; by left].
  destruct (classify_chain line) eqn:Hc.
  - destruct (elif_head s d line) as [s1 e].
    destruct (block_loop fuel s1 e []) as [[s2 elif_end]|]; [|done]. apply IH.
  - destruct (else_head s d) as [s1 e] eqn:Hh.
    destruct (block_loop fuel s1 e []) as [[s2 else_end]|] eqn:Hb; [|done].
    intros [= <- <- <-]. exists s, d, line, s1, e, else_end, fuel.
    split_and!; try done. apply last_snoc.
  - intros [= <- <- <-]. right. by exists line.
Qed.

(** The facts about one conditional construct that C6 and C4 share. *)
Lemma conditional_post s cur buf line s1 cnd s2 true_end kb s3 exits kinds last
    s4 m s' out k :
  wf s → cur ∈ nodes_of s →
  if_head s cur buf line = (s1, cnd) →
  block_exec s1 cnd [] s2 true_end kb →
  chain_exec s2 [true_end] [kb] cnd s3 exits kinds last →
  merge s3 exits last = (s4, m) →
  block_exec s4 m [] s' out k →
  (m ∉ nodes_of s3) ∧ nodes_of s4 = {[m]} ∪ nodes_of s3
  ∧ attrs_of s' m = Some (node_attrs "Merge" "point" "filled" "white")
  ∧ (∀ u, edge s' u m
          = if decide (last = Some u) then Some (Some "False")
            else if decide (u ∈ exits) then Some None else None)
  ∧ (∀ d, last = Some d → is_decision_node s' d)
  ∧ (∀ i p, exits !! i = Some p → kinds !! i = Some ByReturn → is_return_node s' p).
Proof.
  intros Hwf Hcur Hh Hb Hch Hm Hrest.
  rewrite if_head_line_node in Hh.
  destruct (line_node_post _ _ _ _ _ _ _ _ Hwf Hcur Hh)
    as (s0 & pred & _ & Hp0 & _ & Hfresh & Hp1 & _ & Hattr & _).
  destruct (proj1 exec_invariant _ _ _ _ _ _ Hb (bp_wf _ _ _ _ Hp1) (bp_out _ _ _ _ Hp1))
    as [Hp2 Hret2].
  pose proof (post_trans _ _ _ _ _ _ Hwf Hp1 Hp2) as Hp12.
  destruct (proj2 exec_invariant _ _ _ _ _ _ _ _ Hch s cur true_end Hwf Hp12)
    as (out1 & Hp3 & Hext3 & Hexits & Hlast & Hrets & Hlen & Hpre).
  { apply (post_nodes _ _ _ _ Hp2), Hp1. }
  { eapply extends_reach; [apply Hp1|apply Hp2|apply Hp1]. }
  { eapply is_decision_node_ext; [apply Hp2|]. by eexists _, _. }
  { intros p ->%list_elem_of_singleton. split; [apply Hp12|apply Hp12]. }
  { intros [|i] p; simpl; [|done]. intros [= <-] [= ->]. by apply Hret2. }
  { done. }
  destruct Hpre as [rest ->].
  destruct (merge_post s cur s3 out1 true_end rest last s4 m Hp3)
    as (Hp4 & Hfm & _ & Hdom4 & Hattrm & Hedge4); [| | |exact Hm|].
  { intros p Hp. by apply Hexits. }
  { apply Hexits. left. }
  { intros d Hd. by apply Hlast. }
  destruct (merge_post s3 true_end s3 true_end true_end rest last s4 m)
    as (Hq4 & _); [| | | |exact Hm|].
  { apply post_refl; [apply Hp3|]. apply Hexits. left. }
  { intros p Hp. by apply Hexits. }
  { apply rtc_refl. }
  { intros d Hd. by apply Hlast. }
  destruct (proj1 exec_invariant _ _ _ _ _ _ Hrest (bp_wf _ _ _ _ Hp4)
              (bp_out _ _ _ _ Hp4)) as [Hp5 _].
  pose proof (extends_trans _ _ _ (bp_ext _ _ _ _ Hq4) (bp_ext _ _ _ _ Hp5)) as Hext35.
  split_and!; try done.
  - by apply (ext_nodes _ _ (bp_ext _ _ _ _ Hp5)).
  - intros u. rewrite (ext_edges _ _ (bp_ext _ _ _ _ Hp5)) by apply Hp4.
    by rewrite Hedge4, decide_True.
  - intros d Hd. eapply is_decision_node_ext; [exact Hext35|]. by apply Hlast.
  - intros i p Hi Hk. eapply is_return_node_ext; [exact Hext35|]. by eapply Hrets.
Qed.

End Chain.

(** C6, as stated, fails when the last branch of an open chain is empty:
    for the input [if x:] the one recorded exit is the decision node N2
    itself, and its edge to the merge node N3 carries the label False. *)
Lemma empty_branch_exit_not_unlabeled :
  let s := start_state python_style ["if x:"] in
  match if_head s "N1" [] "if x:" with
  | (s1, cond_node) =>
      match block_loop 1 s1 cond_node [] with
      | Some (s2, true_end) =>
          match chain_loop 1 s2 [true_end] cond_node with
          | Some (s3, exit_points, last_decision) =>
              exit_points = ["N2"] ∧ last_decision = Some "N2"
              ∧ match block_loop 3 s "N1" [] with
                | Some (s', _) =>
                    label_of s' "N3" = Some "Merge"
                    ∧ edge s' "N2" "N3" ≠ Some None
                    ∧ edge s' "N2" "N3" = Some (Some "False")
                | None => False
                end
          | None => False
          end
      | None => False
      end
  end.
Proof. vm_compute. repeat split. discriminate. Qed.

(** C6, amended.  When the block parser of a well-formed builder is at a
    line that starts with if, it parses the branches and then creates
    exactly one node, the point node "Merge", which becomes the predecessor
    for the rest of the call.  In the finished call the edges into the
    merge node are: from every recorded branch exit, unlabeled, except that
    an exit that is the open last decision itself has its one edge labeled
    False; and from the last decision, labeled False, when the chain is
    open.  A chain is closed exactly when its loop has ended with the branch
    of an else line; then every edge into the merge node is unlabeled.  An
    open chain has stopped at the end of input or at a line that is neither
    elif nor else, and its last decision is a decision node. *)
Theorem chain_closure (fuel : nat) (s : UniversalCFGBuilder) (cur : string)
    (buf : list string) (line : string) (s' : UniversalCFGBuilder) (out : string) :
  wf s → cur ∈ nodes_of s →
  lines s !! cursor s = Some line →
  PyStr.startswith line "if" = true →
  block_loop (S fuel) s cur buf = Some (s', out) →
  ∃ s1 cond_node s2 true_end s3 exit_points last_decision s4 merge_node,
    if_head s cur buf line = (s1, cond_node)
    ∧ block_loop fuel s1 cond_node [] = Some (s2, true_end)
    ∧ chain_loop fuel s2 [true_end] cond_node = Some (s3, exit_points, last_decision)
    ∧ merge s3 exit_points last_decision = (s4, merge_node)
    ∧ block_loop fuel s4 merge_node [] = Some (s', out)
    ∧ (merge_node ∉ nodes_of s3) ∧ nodes_of s4 = {[merge_node]} ∪ nodes_of s3
    ∧ attrs_of s' merge_node = Some (node_attrs "Merge" "point" "filled" "white")
    ∧ (∀ u, edge s' u merge_node
            = if decide (last_decision = Some u) then Some (Some "False")
              else if decide (u ∈ exit_points) then Some None else None)
    ∧ match last_decision with
      | None =>
          (∀ u l, edge s' u merge_node = Some l → l = None ∧ u ∈ exit_points)
          ∧ ∃ s_e d_e else_line s_e1 else_start else_end fuel',
              lines s_e !! cursor s_e = Some else_line
              ∧ classify_chain else_line = CElse
              ∧ else_head s_e d_e = (s_e1, else_start)
              ∧ block_loop fuel' s_e1 else_start [] = Some (s3, else_end)
              ∧ last exit_points = Some else_end
      | Some d =>
          is_decision_node s' d
          ∧ edge s' d merge_node = Some (Some "False")
          ∧ (lines s3 !! cursor s3 = None
             ∨ ∃ next_line, lines s3 !! cursor s3 = Some next_line
                            ∧ classify_chain next_line = COther)
      end.
Proof.
  intros Hwf Hcur Hline Hkw Hrun.
  rewrite block_loop_S, Hline, (classify_if _ _ Hkw) in Hrun.
  destruct (if_head s cur buf line) as [s1 c] eqn:Hh.
  destruct (block_loop fuel s1 c []) as [[s2 true_end]|] eqn:Hb; [|done].
  destruct (chain_loop fuel s2 [true_end] c) as [[[s3 exits] last]|] eqn:Hch; [|done].
  destruct (merge s3 exits last) as [s4 m] eqn:Hm.
  destruct (proj1 (loops_sound fuel) _ _ _ _ _ Hb) as [kb Eb].
  destruct (proj2 (loops_sound fuel) _ _ [kb] _ _ _ _ Hch) as [kinds Ech].
  destruct (proj1 (loops_sound fuel) _ _ _ _ _ Hrun) as [k Erest].
  destruct (conditional_post _ _ _ _ _ _ _ _ _ _ _ _ _ _ _ _ _ _
              Hwf Hcur Hh Eb Ech Hm Erest)
    as (Hfm & Hdom & Hattr & Hedge & Hdec & _).
  pose proof (chain_loop_outcome _ _ _ _ _ _ _ Hch) as Hout.
  exists s1, c, s2, true_end, s3, exits, last, s4, m.
  split_and!; try done.
  destruct last as [d|].
  - split_and!; [by apply Hdec| |done].
    by rewrite Hedge, decide_True.
  - split; [|done]. intros u l. rewrite Hedge, decide_False by done.
    case_decide; [|done]. by intros [= <-].
Qed.

Lemma chain_closure_witness :
  ∃ s' out merge_node,
    block_loop 3 (start_state python_style ["if x:"; "a"]) "N1" [] = Some (s', out)
    ∧ attrs_of s' merge_node = Some (node_attrs "Merge" "point" "filled" "white").
Proof.
  pose (s := start_state python_style ["if x:"; "a"]).
  destruct (start_state_wf python_style ["if x:"; "a"]) as [Hwf Hin].
  destruct (proj1 (loops_total 3) s "N1" []) as [[s' out] Hrun]; [simpl; lia|].
  destruct (chain_closure 2 s "N1" [] "if x:" s' out Hwf Hin eq_refl eq_refl Hrun)
    as (s1 & c & s2 & true_end & s3 & exits & last & s4 & m
        & _ & _ & _ & _ & _ & _ & _ & Hattr & _).
  by exists s', out, m.
Defined.

(** ** A return at the top level (C9) *)

Section Locality.

Implicit Types s : UniversalCFGBuilder.
Implicit Types L : list string.

Lemma agree_lookup n L L' i : take n L = take n L' → i < n → L !! i = L' !! i.
Proof.
  intros H Hi. rewrite <-(lookup_take_lt L n i), <-(lookup_take_lt L' n i) by done.
  by rewrite H.
Qed.

Lemma agree_le n m L L' : take n L = take n L' → m ≤ n → take m L = take m L'.
Proof.
  intros H Hle. replace m with (min m n) by lia.
  by rewrite <-!take_take, H.
Qed.

Lemma connect_relines L u v l s :
  connect u v l (with_lines L s) = with_lines L (connect u v l s).
Proof. unfold connect. by destruct (_ && _). Qed.

Lemma new_node_relines L label shape style fill s id s' :
  new_node label shape style fill s = (id, s') →
  new_node label shape style fill (with_lines L s) = (id, with_lines L s').
Proof. unfold new_node. by intros [= <- <-]. Qed.

Lemma flush_buffer_relines L s cur buf s' out :
  flush_buffer s cur buf = (s', out) →
  flush_buffer (with_lines L s) cur buf = (with_lines L s', out).
Proof.
  unfold flush_buffer. destruct buf as [|x buf]; [by intros [= <- <-]|].
  destruct (new_node _ _ _ _ s) as [id s1] eqn:Hnew.
  rewrite (new_node_relines L _ _ _ _ _ _ _ Hnew). intros [= <- <-].
  by rewrite connect_relines.
Qed.

Lemma line_node_relines L shape fill s cur buf line s' id :
  line_node shape fill s cur buf line = (s', id) →
  line_node shape fill (with_lines L s) cur buf line = (with_lines L s', id).
Proof.
  unfold line_node. destruct (flush_buffer s cur buf) as [s0 pred] eqn:Hf.
  rewrite (flush_buffer_relines L _ _ _ _ _ Hf).
  destruct (new_node _ _ _ _ s0) as [n s1] eqn:Hnew.
  rewrite (new_node_relines L _ _ _ _ _ _ _ Hnew). intros [= <- <-].
  by rewrite connect_relines.
Qed.

Lemma loop_tail_relines L s body_end h s' e :
  loop_tail s body_end h = (s', e) →
  loop_tail (with_lines L s) body_end h = (with_lines L s', e).
Proof.
  unfold loop_tail. rewrite connect_relines.
  destruct (new_node _ _ _ _ _) as [n s1] eqn:Hnew.
  rewrite (new_node_relines L _ _ _ _ _ _ _ Hnew). intros [= <- <-].
  by rewrite connect_relines.
Qed.

Lemma elif_head_relines L s d line s' e :
  elif_head s d line = (s', e) →
  elif_head (with_lines L s) d line = (with_lines L s', e).
Proof.
  unfold elif_head.
  destruct (new_node _ _ _ _ (advance s)) as [n s1] eqn:Hnew.
  change (advance (with_lines L s)) with (with_lines L (advance s)).
  rewrite (new_node_relines L _ _ _ _ _ _ _ Hnew). intros [= <- <-].
  by rewrite connect_relines.
Qed.

Lemma else_head_relines L s d s' e :
  else_head s d = (s', e) →
  else_head (with_lines L s) d = (with_lines L s', e).
Proof.
  unfold else_head.
  destruct (new_node _ _ _ _ (advance s)) as [n s1] eqn:Hnew.
  change (advance (with_lines L s)) with (with_lines L (advance s)).
  rewrite (new_node_relines L _ _ _ _ _ _ _ Hnew). intros [= <- <-].
  by rewrite connect_relines.
Qed.

Lemma foldl_connect_relines L m ps s :
  foldl (λ self p, connect p m None self) (with_lines L s) ps
  = with_lines L (foldl (λ self p, connect p m None self) s ps).
Proof.
  revert s. induction ps as [|p ps IH]; intros s; simpl; [done|].
  by rewrite connect_relines, IH.
Qed.

Lemma merge_relines L s exits last s' m :
  merge s exits last = (s', m) →
  merge (with_lines L s) exits last = (with_lines L s', m).
Proof.
  unfold merge.
  destruct (new_node _ _ _ _ s) as [n s1] eqn:Hnew.
  rewrite (new_node_relines L _ _ _ _ _ _ _ Hnew).
  rewrite foldl_connect_relines.
  destruct last as [d|]; [destruct (PyStr.truthy d)|]; intros [= <- <-];
    by rewrite ?connect_relines.
Qed.

End Locality.

Section LocalityExec.

Implicit Types s : UniversalCFGBuilder.
Implicit Types L : list string.

Lemma relines_lookup L s n o :
  take n L = take n (lines s) → cursor s < n →
  lines s !! cursor s = o →
  lines (with_lines L s) !! cursor (with_lines L s) = o.
Proof. intros HL Hn <-. simpl. by apply (agree_lookup n). Qed.

Lemma examined_ge k c : c ≤ examined k c.
Proof. destruct k; simpl; lia. Qed.

(** A call that follows a nested call has looked at every line the
    nested call has looked at. *)
Lemma examined_nested s cur buf s' out k kb c2 :
  block_exec s cur buf s' out k → c2 ≤ cursor s →
  examined kb c2 ≤ examined k (cursor s').
Proof.
  intros H Hc2. pose proof (block_exit_cursor _ _ _ _ _ _ H) as Hexit.
  apply block_exec_fields in H as (_ & _ & Hle).
  destruct k, kb; simpl in *; try lia;
    destruct Hexit as (c & -> & ? & _); lia.
Qed.

(** The result of a call depends on the lines it has looked at only. *)
Lemma exec_relines :
  (∀ s cur buf s' out k,
      block_exec s cur buf s' out k →
      ∀ L, take (examined k (cursor s')) L = take (examined k (cursor s')) (lines s) →
           block_exec (with_lines L s) cur buf (with_lines L s') out k)
  ∧ (∀ s exits kinds d s' exits' kinds' last',
      chain_exec s exits kinds d s' exits' kinds' last' →
      ∀ L, take (S (cursor s')) L = take (S (cursor s')) (lines s) →
           chain_exec (with_lines L s) exits kinds d
                      (with_lines L s') exits' kinds' last').
Proof.
  apply exec_mutind.
  - intros s cur buf s' out Hl Hf L HL.
    pose proof (flush_buffer_fields _ _ _ _ _ Hf) as (_ & Hc & _).
    apply exec_end.
    + eapply relines_lookup; [exact HL|simpl; lia|done].
    + by apply flush_buffer_relines.
  - intros s cur buf line s' out Hl Hk Hf L HL.
    pose proof (flush_buffer_fields _ _ _ _ _ Hf) as (_ & Hc & _).
    eapply exec_peek; [|exact Hk|by apply flush_buffer_relines].
    eapply relines_lookup; [exact HL|simpl; lia|done].
  - intros s cur buf line s1 out Hl Hk Hf L HL.
    pose proof (flush_buffer_fields _ _ _ _ _ Hf) as (_ & Hc & _).
    change (with_lines L (advance s1)) with (advance (with_lines L s1)).
    eapply exec_brace; [|exact Hk|by apply flush_buffer_relines].
    eapply relines_lookup; [exact HL|simpl; lia|done].
  - intros s cur buf line s' out k Hl Hk Hrest IH L HL.
    pose proof (block_exec_fields _ _ _ _ _ _ Hrest) as (_ & _ & Hle).
    pose proof (examined_ge k (cursor s')). simpl in Hle.
    eapply exec_open; [|exact Hk|by apply IH].
    eapply relines_lookup; [exact HL|lia|done].
  - intros s cur buf line s1 h s2 body_end kb s3 e s' out k
      Hl Hk Hh Hb IHb Ht Hrest IH L HL.
    pose proof (loop_head_fields _ _ _ _ _ _ Hh) as (Hl1 & Hc1 & _).
    pose proof (block_exec_fields _ _ _ _ _ _ Hb) as (Hl2 & _ & Hc2).
    pose proof (loop_tail_fields _ _ _ _ _ Ht) as (Hl3 & Hc3 & _).
    pose proof (block_exec_fields _ _ _ _ _ _ Hrest) as (_ & _ & Hc4).
    pose proof (examined_ge k (cursor s')).
    rewrite loop_head_line_node in Hh.
    eapply exec_loop.
    + eapply relines_lookup; [exact HL|lia|done].
    + exact Hk.
    + rewrite loop_head_line_node. by apply line_node_relines.
    + apply IHb. rewrite Hl1. eapply agree_le; [exact HL|].
      eapply examined_nested; [exact Hrest|lia].
    + by apply loop_tail_relines.
    + apply IH. by rewrite Hl3, Hl2, Hl1.
  - intros s cur buf line s1 c s2 true_end kb s3 exits kinds last s4 m s' out k
      Hl Hk Hh Hb IHb Hch IHch Hm Hrest IH L HL.
    pose proof (if_head_fields _ _ _ _ _ _ Hh) as (Hl1 & Hc1 & _).
    pose proof (block_exec_fields _ _ _ _ _ _ Hb) as (Hl2 & _ & Hc2).
    pose proof (chain_exec_fields _ _ _ _ _ _ _ _ Hch) as (Hl3 & _ & Hc3).
    pose proof (merge_fields _ _ _ _ _ Hm) as (Hl4 & Hc4 & _).
    pose proof (block_exec_fields _ _ _ _ _ _ Hrest) as (_ & _ & Hc5).
    pose proof (examined_ge k (cursor s')).
    assert (S (cursor s3) ≤ examined k (cursor s')) as Hch_bound.
    { apply (examined_nested _ _ _ _ _ _ ByEnd _ Hrest). lia. }
    rewrite if_head_line_node in Hh.
    eapply exec_if.
    + eapply relines_lookup; [exact HL|lia|done].
    + exact Hk.
    + rewrite if_head_line_node. by apply line_node_relines.
    + apply IHb. rewrite Hl1. eapply agree_le; [exact HL|].
      pose proof (examined_nested _ _ _ _ _ _ kb (cursor s2) Hrest).
      destruct kb; simpl in *; lia.
    + apply IHch. rewrite Hl2, Hl1. by eapply agree_le.
    + by apply merge_relines.
    + apply IH. by rewrite Hl4, Hl3, Hl2, Hl1.
  - intros s cur buf line s' out Hl Hk Hr L HL.
    pose proof (return_stmt_fields _ _ _ _ _ _ Hr) as (_ & Hc & _).
    rewrite return_stmt_line_node in Hr.
    eapply exec_return; [|exact Hk|].
    + eapply relines_lookup; [exact HL|simpl; lia|done].
    + rewrite return_stmt_line_node. by apply line_node_relines.
  - intros s cur buf line s' out k Hl Hk Hrest IH L HL.
    pose proof (block_exec_fields _ _ _ _ _ _ Hrest) as (_ & _ & Hle).
    pose proof (examined_ge k (cursor s')). simpl in Hle.
    eapply exec_statement; [|exact Hk|by apply IH].
    eapply relines_lookup; [exact HL|lia|done].
  - intros s exits kinds d Hl L HL. apply chain_end.
    eapply relines_lookup; [exact HL|lia|done].
  - intros s exits kinds d line Hl Hk L HL. eapply chain_other; [|exact Hk].
    eapply relines_lookup; [exact HL|lia|done].
  - intros s exits kinds d line s1 e s2 elif_end kb s' exits' kinds' last'
      Hl Hk Hh Hb IHb Hch IH L HL.
    pose proof (elif_head_fields _ _ _ _ _ Hh) as (Hl1 & Hc1 & _).
    pose proof (block_exec_fields _ _ _ _ _ _ Hb) as (Hl2 & _ & Hc2).
    pose proof (chain_exec_fields _ _ _ _ _ _ _ _ Hch) as (_ & _ & Hc3).
    eapply chain_elif.
    + eapply relines_lookup; [exact HL|lia|done].
    + exact Hk.
    + by apply elif_head_relines.
    + apply IHb. rewrite Hl1. eapply agree_le; [exact HL|].
      destruct kb; simpl; lia.
    + apply IH. by rewrite Hl2, Hl1.
  - intros s exits kinds d line s1 e s2 else_end kb Hl Hk Hh Hb IHb L HL.
    pose proof (else_head_fields _ _ _ _ Hh) as (Hl1 & Hc1 & _).
    pose proof (block_exec_fields _ _ _ _ _ _ Hb) as (Hl2 & _ & Hc2).
    eapply chain_else.
    + eapply relines_lookup; [exact HL|lia|done].
    + exact Hk.
    + by apply else_head_relines.
    + apply IHb. rewrite Hl1. eapply agree_le; [exact HL|].
      destruct kb; simpl; lia.
Qed.

End LocalityExec.

Section TopLevelReturn.

Lemma parse_lines_unfold m ls :
  parse_lines init m ls
  = match parse_block (start_state m ls) "N1" with
    | None => None
    | Some (self, last_node) => Some (finish self last_node)
    end.
Proof. reflexivity. Qed.

Lemma parse_lines_exec m ls s1 last k :
  block_exec (start_state m ls) "N1" [] s1 last k →
  parse_lines init m ls = Some (finish s1 last).
Proof.
  intros H. rewrite parse_lines_unfold. unfold parse_block.
  rewrite (proj1 loops_complete _ _ _ _ _ _ H); [done|].
  unfold enough_fuel. lia.
Qed.

Lemma finish_relines L s last :
  finish (with_lines L s) last = with_lines L (finish s last).
Proof.
  unfold finish. destruct (new_node _ _ _ _ s) as [e s1] eqn:Hnew.
  rewrite (new_node_relines L _ _ _ _ _ _ _ Hnew). apply connect_relines.
Qed.

End TopLevelReturn.

(** C9. Let the top-level call of the block parser, on the lines [ls] of a
    fresh builder, leave through a return line with the builder [s1] and
    the return node [ret].  Then [parse] returns the builder [finish s1 ret]:
    its graph is the graph built up to the return line plus the END node
    and an unlabeled edge from the return node to it.  The lines after the
    return line are never looked at: replacing them by any lines [rest]
    gives the same graph, with the same number of nodes created, and the
    cursor stays right after the return line. *)
Theorem top_level_return (m : Mode) (ls : list string) (s1 : UniversalCFGBuilder)
    (ret : string) :
  block_exec (start_state m ls) "N1" [] s1 ret ByReturn →
  let end_node := node_id (S (node_counter s1)) in
  parse_lines init m ls = Some (finish s1 ret)
  ∧ (∃ line, cursor s1 ≤ length ls
             ∧ ls !! (cursor s1 - 1) = Some line
             ∧ PyStr.startswith line "return" = true)
  ∧ is_return_node (finish s1 ret) ret
  ∧ nodes_of (finish s1 ret) = {[end_node]} ∪ nodes_of s1
  ∧ attrs_of (finish s1 ret) end_node = Some (node_attrs "END" "oval" "filled" "#FFCDD2")
  ∧ (∀ u v, edge (finish s1 ret) u v
            = if decide ((ret, end_node) = (u, v)) then Some None else edge s1 u v)
  ∧ ∀ rest, ∃ s',
      parse_lines init m (take (cursor s1) ls ++ rest) = Some s'
      ∧ graph s' = graph (finish s1 ret)
      ∧ node_counter s' = node_counter (finish s1 ret)
      ∧ cursor s' = cursor s1.
Proof.
  intros Hexec end_node.
  destruct (start_state_wf m ls) as [Hwf Hin].
  destruct (proj1 exec_invariant _ _ _ _ _ _ Hexec Hwf Hin) as [Hpost Hret].
  destruct (block_exit_cursor _ _ _ _ _ _ Hexec) as (c & Hc & _ & line & Hline & Hk).
  destruct (block_exec_fields _ _ _ _ _ _ Hexec) as (Hlines & Hmode & _).
  change (lines (start_state m ls)) with ls in Hlines. rewrite Hlines in Hline.
  assert (cursor s1 ≤ length ls) as Hle.
  { apply lookup_lt_Some in Hline. lia. }
  unfold finish.
  destruct (new_node "END" "oval" "filled" "#FFCDD2" s1) as [e s2] eqn:Hnew.
  destruct (post_spawn _ _ _ _ ret _ _ _ _ None _ _ Hpost (bp_out _ _ _ _ Hpost)
              (bp_reach_out _ _ _ _ Hpost) Hnew)
    as (Hp2 & _ & He & Hdom & Hattr & Hedge).
  pose proof (spawn_extends _ ret _ _ _ _ None _ _ (bp_wf _ _ _ _ Hpost)
                (bp_out _ _ _ _ Hpost) Hnew) as Hext.
  subst e. fold end_node in Hnew, Hp2, Hdom, Hattr, Hedge, Hext |- *.
  assert (finish s1 ret = connect ret end_node None s2) as Hfin.
  { unfold finish. by rewrite Hnew. }
  split_and!.
  - rewrite (parse_lines_exec _ _ _ _ _ Hexec). by rewrite Hfin.
  - exists line. rewrite Hc. split_and!; [lia| |by eapply classify_return_inv].
    by replace (S c - 1) with c by lia.
  - eapply is_return_node_ext; [exact Hext|by apply Hret].
  - done.
  - done.
  - done.
  - intros rest. set (L := take (cursor s1) ls ++ rest).
    assert (take (cursor s1) L = take (cursor s1) ls) as HL.
    { unfold L. rewrite take_app_le by (rewrite length_take; lia).
      rewrite take_take. f_equal. lia. }
    pose proof (proj1 exec_relines _ _ _ _ _ _ Hexec L HL) as HexecL.
    change (with_lines L (start_state m ls)) with (start_state m L) in HexecL.
    exists (finish (with_lines L s1) ret).
    split; [by apply (parse_lines_exec _ _ _ _ _ HexecL)|].
    rewrite finish_relines, Hfin. split_and!; [done..|].
    change (cursor (with_lines L (connect ret end_node None s2)))
      with (cursor (connect ret end_node None s2)).
    rewrite connect_cursor. by apply new_node_fields in Hnew as (_ & ? & _).
Qed.

Lemma top_level_return_witness :
  ∃ s', parse_lines init python_style ["a"; "return x"; "b"; "if y:"] = Some s'
        ∧ ∃ ret, is_return_node s' ret.
Proof.
  pose (ls := ["a"; "return x"; "b"; "if y:"]).
  pose (r := return_stmt (advance (start_state python_style ls)) "N1" ["a"] "return x").
  assert (block_exec (start_state python_style ls) "N1" [] r.1 r.2 ByReturn) as Hexec.
  { eapply exec_statement; [reflexivity|reflexivity|].
    eapply exec_return; reflexivity. }
  destruct (top_level_return python_style ls r.1 r.2 Hexec) as (Hparse & _ & Hret & _).
  exists (finish r.1 r.2). split; [exact Hparse|]. exists r.2. exact Hret.
Defined.

(** ** The scenarios of the specification, evaluated *)

(** Scenario A: three statements make one node between START and END. *)
Example scenario_sequential :
  observe (parse init ("a" +:+ PyStr.nl +:+ "b" +:+ PyStr.nl +:+ "c"))
  = Some (3, 2, 1%Z, 0%Z).
Proof. vm_compute. reflexivity. Qed.

(** Scenario B: if / else. *)
Example scenario_if_else :
  match parse_lines init python_style ["if x > 0:"; "a"; "else:"; "b"] with
  | Some s =>
      observe (Some s) = Some (7, 7, 2%Z, 1%Z)
      ∧ label_of s "N2" = Some "if x > 0:" ∧ label_of s "N4" = Some "Else"
      ∧ label_of s "N6" = Some "Merge"
      ∧ edge s "N2" "N3" = Some None ∧ edge s "N2" "N4" = Some (Some "False")
      ∧ edge s "N3" "N6" = Some None ∧ edge s "N5" "N6" = Some None
      ∧ edge s "N6" "N7" = Some None
  | None => False
  end.
Proof. vm_compute. repeat split. Qed.

(** Scenario D: a loop. *)
Example scenario_loop :
  match parse_lines init python_style ["while x:"; "a"] with
  | Some s =>
      observe (Some s) = Some (5, 5, 2%Z, 1%Z)
      ∧ edge s "N3" "N2" = Some (Some "Loop")
      ∧ edge s "N2" "N4" = Some (Some "False")
      ∧ label_of s "N4" = Some "Exit Loop" ∧ edge s "N4" "N5" = Some None
  | None => False
  end.
Proof. vm_compute. repeat split. Qed.

(** Brace mode: braces and statements get lines of their own, and
    [else if] becomes [elif]. *)
Example scenario_braces :
  normalize "if (x) { a; } else if (y) { return 1; } b;"
  = (c_style, ["if (x)"; "{"; "a;"; "}"; "elif (y)"; "{"; "return 1;"; "}"; "b;"]).
Proof. vm_compute. reflexivity. Qed.

(** * Further properties of the code *)

(** ** Labels stored by [new_node] *)

Section Labels.

Lemma length_append a b :
  String.length (a +:+ b) = String.length a + String.length b.
Proof. induction a as [|c a IH]; simpl; [done|]. by rewrite IH. Qed.

Lemma length_substring_le n m s : String.length (String.substring n m s) ≤ m.
Proof.
  revert n m. induction s as [|c s IH]; intros [|n] [|m]; simpl; try lia.
  - specialize (IH 0 m). lia.
  - apply (IH n 0).
  - apply (IH n (S m)).
Qed.

Lemma contains_char_append c a b :
  PyStr.contains_char c (a +:+ b) = PyStr.contains_char c a || PyStr.contains_char c b.
Proof. induction a as [|d a IH]; simpl; [done|]. by rewrite IH, orb_assoc. Qed.

Lemma contains_char_substring c n m s :
  PyStr.contains_char c s = false →
  PyStr.contains_char c (String.substring n m s) = false.
Proof.
  revert n m. induction s as [|d s IH]; intros [|n] [|m]; simpl; try done.
  - intros [Hd Hs]%orb_false_iff. by rewrite Hd, IH.
  - intros [Hd Hs]%orb_false_iff. by apply IH.
  - intros [Hd Hs]%orb_false_iff. by apply IH.
Qed.

(** Replacing a character removes every occurrence of it. *)
Lemma contains_char_replace c new s :
  PyStr.contains_char c new = false →
  PyStr.contains_char c (PyStr.replace (String c EmptyString) new s) = false.
Proof.
  intros Hnew. unfold PyStr.replace. induction s as [|d s IH]; [done|].
  change (PyStr.replace_go (String c EmptyString) new 0 (String d s))
    with (if String.prefix (String c EmptyString) (String d s)
          then new +:+ PyStr.replace_go (String c EmptyString) new 0 s
          else String d (PyStr.replace_go (String c EmptyString) new 0 s)).
  change (String.prefix (String c EmptyString) (String d s))
    with (if ascii_dec c d then String.prefix EmptyString s else false).
  destruct (ascii_dec c d) as [<-|Hne].
  - assert (String.prefix EmptyString s = true) as -> by by destruct s.
    by rewrite contains_char_append, Hnew, IH.
  - simpl. rewrite IH, orb_false_r. by apply Ascii.eqb_neq.
Qed.

(** The cleaned label has at most 40 characters: 20, three dots and 15
    when the text is longer. *)
Lemma clean_label_length label : String.length (clean_label label) ≤ 40.
Proof.
  unfold clean_label. destruct (Nat.ltb_spec 40 (String.length
    (PyStr.replace (String PyStr.dquote EmptyString) "'" (PyStr.strip label))))
    as [Hlong|Hshort]; [|lia].
  rewrite !length_append. unfold PyStr.take, PyStr.take_last.
  pose proof (length_substring_le 0 20
    (PyStr.replace (String PyStr.dquote EmptyString) "'" (PyStr.strip label))).
  pose proof (length_substring_le
    (String.length (PyStr.replace (String PyStr.dquote EmptyString) "'"
       (PyStr.strip label)) - 15) 15
    (PyStr.replace (String PyStr.dquote EmptyString) "'" (PyStr.strip label))).
  simpl String.length at 2. lia.
Qed.

Lemma clean_label_no_dquote label :
  PyStr.contains_char PyStr.dquote (clean_label label) = false.
Proof.
  unfold clean_label.
  pose proof (contains_char_replace PyStr.dquote "'" (PyStr.strip label) eq_refl) as Hr.
  destruct (40 <? _); [|done].
  rewrite !contains_char_append. unfold PyStr.take, PyStr.take_last.
  by rewrite !contains_char_substring.
Qed.

End Labels.

(** X1. Whatever the builder and the label text, [new_node] returns the id
    made of the letter N and the incremented counter, and the node of that
    id then carries the cleaned label, which has at most 40 characters and
    no double quote, together with the given shape, style and fill; the
    adjacency and the fields lines, cursor and mode are left as they are. *)
Theorem new_node_stores_clean_label (label shape style fill : string)
    (self : UniversalCFGBuilder) :
  let id := (new_node label shape style fill self).1 in
  let self' := (new_node label shape style fill self).2 in
  id = node_id (S (node_counter self))
  ∧ node_counter self' = S (node_counter self)
  ∧ label_of self' id = Some (clean_label label)
  ∧ String.length (clean_label label) ≤ 40
  ∧ PyStr.contains_char PyStr.dquote (clean_label label) = false
  ∧ attrs_of self' id ≫= (.!! "shape") = Some shape
  ∧ attrs_of self' id ≫= (.!! "style") = Some style
  ∧ attrs_of self' id ≫= (.!! "fillcolor") = Some fill
  ∧ _adj (graph self') = _adj (graph self)
  ∧ (∀ n, n ≠ id → attrs_of self' n = attrs_of self n).
Proof.
  unfold new_node, label_of, attrs_of, nx.add_node. simpl.
  set (id := node_id (S (node_counter self))).
  set (a := node_attrs (clean_label label) shape style fill).
  assert (a !! "label" = Some (clean_label label)) as Hl by apply lookup_insert_eq.
  assert (a !! "shape" = Some shape) as Hs by apply node_attrs_shape.
  assert (a !! "style" = Some style) as Hst.
  { unfold a, node_attrs. rewrite !lookup_insert_ne by done. apply lookup_insert_eq. }
  assert (a !! "fillcolor" = Some fill) as Hf.
  { unfold a, node_attrs. rewrite !lookup_insert_ne by done. apply lookup_insert_eq. }
  pose proof (clean_label_length label) as Hlen.
  pose proof (clean_label_no_dquote label) as Hq.
  destruct (_node (graph self) !! id) as [old|] eqn:Hold; simpl;
    rewrite lookup_insert_eq; simpl.
  - rewrite !(lookup_union_l' a old) by (by eexists).
    split_and!; try done. intros n Hn. by rewrite lookup_insert_ne.
  - split_and!; try done. intros n Hn. by rewrite lookup_insert_ne.
Qed.

(** ** What every parsed graph looks like *)

Section Built.

Implicit Types s : UniversalCFGBuilder.

Lemma shape_box : "box" ∈ node_shapes.
Proof. set_solver. Qed.

Lemma shape_oval : "oval" ∈ node_shapes.
Proof. set_solver. Qed.

Lemma shape_diamond : "diamond" ∈ node_shapes.
Proof. set_solver. Qed.

Lemma shape_point : "point" ∈ node_shapes.
Proof. set_solver. Qed.

Lemma label_none : None ∈ edge_labels.
Proof. set_solver. Qed.

Lemma label_false : Some "False" ∈ edge_labels.
Proof. set_solver. Qed.

Lemma label_loop : Some "Loop" ∈ edge_labels.
Proof. set_solver. Qed.

Lemma build_step_wf s s' :
  wf s → build_step s s' →
  wf s' ∧ nodes_of s ⊆ nodes_of s' ∧ node_counter s ≤ node_counter s'.
Proof.
  intros Hwf Hstep. revert Hwf.
  destruct Hstep as [s0 p label shape fill l id s1 Hp _ _ Hnew|s0 u v l Hu Hv _|s0];
    intros Hwf.
  - destruct (new_node_wf _ _ _ _ _ _ _ Hwf Hnew) as (Hwf1 & Hext & Hdom & _).
    destruct (new_node_spec _ _ _ _ _ _ _ Hwf Hnew) as (_ & _ & Hc & _).
    assert (p ∈ nodes_of s1) as Hp1 by (rewrite Hdom; set_solver).
    assert (id ∈ nodes_of s1) as Hid1 by (rewrite Hdom; set_solver).
    destruct (connect_nodes _ _ _ l Hwf1 Hp1 Hid1) as [Hn _].
    split_and!; [by apply connect_wf|rewrite Hn, Hdom; set_solver|].
    rewrite connect_counter. lia.
  - destruct (connect_nodes _ _ _ l Hwf Hu Hv) as [Hn _].
    split_and!; [by apply connect_wf|by rewrite Hn|by rewrite connect_counter].
  - split_and!; [by apply wf_advance|done..].
Qed.

Lemma built_wf s s' :
  built s s' → wf s →
  wf s' ∧ nodes_of s ⊆ nodes_of s' ∧ node_counter s ≤ node_counter s'.
Proof.
  induction 1 as [s|s1 s2 s3 Hstep _ IH]; intros Hwf; [done|].
  destruct (build_step_wf _ _ Hwf Hstep) as (Hwf2 & Hsub & Hc).
  destruct (IH Hwf2) as (Hwf3 & Hsub3 & Hc3).
  split_and!; [done|set_solver|lia].
Qed.

Lemma build_step_tidy s s' : wf s → tidy s → build_step s s' → tidy s'.
Proof.
  intros Hwf Ht Hstep. revert Hwf Ht.
  destruct Hstep as [s0 p label shape fill l id s1 Hp Hshape Hl Hnew|s0 u v l Hu Hv Hl|s0];
    intros Hwf Ht.
  - destruct (new_node_wf _ _ _ _ _ _ _ Hwf Hnew) as (Hwf1 & Hext & Hdom & Hattr).
    destruct (new_node_spec _ _ _ _ _ _ _ Hwf Hnew) as (Hid & Hfresh & Hc & Hn & Ha).
    assert (p ∈ nodes_of s1) as Hp1 by (rewrite Hdom; set_solver).
    assert (id ∈ nodes_of s1) as Hid1 by (rewrite Hdom; set_solver).
    destruct (connect_spec _ _ _ l Hwf1 Hp1 Hid1) as [Hg Hcc].
    destruct (connect_nodes _ _ _ l Hwf1 Hp1 Hid1) as [Hnodes Hattrs].
    assert (_adj (graph s0) !! (p, id) = None) as Hnew_edge.
    { destruct (_adj (graph s0) !! (p, id)) eqn:He; [|done].
      exfalso. apply Hfresh. apply (wf_edges _ Hwf p id). unfold edge_rel, edge.
      by rewrite He. }
    split.
    + intros k Hk. rewrite Hnodes, Hdom. rewrite Hcc, Hc in Hk.
      destruct (decide (k = S (node_counter s0))) as [->|Hne].
      * rewrite Hid. set_solver.
      * apply elem_of_union_r, (tidy_ids _ Ht). lia.
    + rewrite Hcc, Hc, Hg. unfold nx.number_of_nodes. simpl. rewrite Hn.
      rewrite map_size_insert_None by (by apply not_elem_of_dom).
      f_equal. apply (tidy_count _ Ht).
    + intros n a. rewrite Hattrs. unfold attrs_of. rewrite Hn.
      destruct (decide (id = n)) as [<-|Hne].
      * rewrite lookup_insert_eq. intros [= <-]. by exists label, shape, fill.
      * rewrite lookup_insert_ne by done. apply (tidy_attrs _ Ht).
    + intros u v l'. unfold edge. rewrite Hg. simpl. rewrite Ha, lookup_insert.
      case_decide; [by intros [= <-]|apply (tidy_labels _ Ht)].
    + rewrite Hcc, Hc, Hg. unfold nx.number_of_edges. simpl. rewrite Ha.
      rewrite map_size_insert_None by done.
      pose proof (tidy_edges _ Ht) as He. unfold nx.number_of_edges in He. lia.
  - destruct (connect_spec _ _ _ l Hwf Hu Hv) as [Hg Hcc].
    destruct (connect_nodes _ _ _ l Hwf Hu Hv) as [Hnodes Hattrs].
    split.
    + intros k. rewrite Hnodes, Hcc. apply (tidy_ids _ Ht).
    + rewrite Hcc, Hg. apply (tidy_count _ Ht).
    + intros n a. rewrite Hattrs. apply (tidy_attrs _ Ht).
    + intros a b l'. unfold edge. rewrite Hg. simpl. rewrite lookup_insert.
      case_decide; [by intros [= <-]|apply (tidy_labels _ Ht)].
    + rewrite Hcc, Hg. unfold nx.number_of_edges. simpl.
      pose proof (tidy_edges _ Ht) as He. unfold nx.number_of_edges in He.
      rewrite map_size_insert. destruct (_adj (graph s0) !! (u, v)); simpl; lia.
  - destruct Ht. by split.
Qed.

Lemma built_tidy s s' : built s s' → wf s → tidy s → tidy s'.
Proof.
  induction 1 as [s|s1 s2 s3 Hstep _ IH]; intros Hwf Ht; [done|].
  apply IH; [by apply (build_step_wf _ _ Hwf Hstep)|by eapply build_step_tidy].
Qed.

Lemma built_trans s1 s2 s3 : built s1 s2 → built s2 s3 → built s1 s3.
Proof. intros H1 H2. unfold built in *. by etrans. Qed.

(** A new node below an existing one is one step. *)
Lemma spawn_built s p label shape fill l id s1 :
  wf s → p ∈ nodes_of s → shape ∈ node_shapes → l ∈ edge_labels →
  new_node label shape "filled" fill s = (id, s1) →
  built s (connect p id l s1) ∧ id ∈ nodes_of (connect p id l s1).
Proof.
  intros Hwf Hp Hs Hl Hnew. split; [by eapply rtc_once, bs_spawn|].
  destruct (new_node_wf _ _ _ _ _ _ _ Hwf Hnew) as (Hwf1 & _ & Hdom & _).
  assert (p ∈ nodes_of s1) as Hp1 by (rewrite Hdom; set_solver).
  assert (id ∈ nodes_of s1) as Hid1 by (rewrite Hdom; set_solver).
  by rewrite (proj1 (connect_nodes _ _ _ l Hwf1 Hp1 Hid1)).
Qed.

Lemma flush_built s cur buf s0 pred :
  wf s → cur ∈ nodes_of s →
  flush_buffer s cur buf = (s0, pred) →
  built s s0 ∧ pred ∈ nodes_of s0.
Proof.
  intros Hwf Hcur. unfold flush_buffer. destruct buf as [|x buf].
  - intros [= <- <-]. split; [apply rtc_refl|done].
  - destruct (new_node _ _ _ _ s) as [id s1] eqn:Hnew. intros [= <- <-].
    exact (spawn_built _ _ _ _ _ None _ _ Hwf Hcur shape_box label_none Hnew).
Qed.

Lemma line_node_built shape fill s cur buf line s1 id :
  wf s → cur ∈ nodes_of s → shape ∈ node_shapes →
  line_node shape fill s cur buf line = (s1, id) →
  built s s1 ∧ id ∈ nodes_of s1.
Proof.
  intros Hwf Hcur Hshape. unfold line_node.
  destruct (flush_buffer s cur buf) as [s0 pred] eqn:Hf.
  destruct (new_node line shape "filled" fill s0) as [n s0'] eqn:Hnew.
  intros [= <- <-].
  destruct (flush_built _ _ _ _ _ Hwf Hcur Hf) as [Hb0 Hpred].
  destruct (built_wf _ _ Hb0 Hwf) as (Hwf0 & _).
  destruct (spawn_built _ pred _ _ _ None _ _ Hwf0 Hpred Hshape label_none Hnew)
    as [Hb1 Hid].
  split; [|done].
  eapply built_trans; [exact Hb0|]. eapply built_trans; [exact Hb1|].
  apply rtc_once, bs_advance.
Qed.

Lemma loop_tail_built s body_end h s3 e :
  wf s → body_end ∈ nodes_of s → h ∈ nodes_of s →
  loop_tail s body_end h = (s3, e) →
  built s s3 ∧ e ∈ nodes_of s3.
Proof.
  intros Hwf Hb Hh. unfold loop_tail.
  destruct (new_node _ _ _ _ _) as [n s'] eqn:Hnew. intros [= <- <-].
  assert (built s (connect body_end h (Some "Loop") s)) as Hb1.
  { apply rtc_once, bs_connect; [done..|apply label_loop]. }
  destruct (built_wf _ _ Hb1 Hwf) as (Hwf1 & Hsub & _).
  destruct (spawn_built _ h _ _ _ (Some "False") _ _ Hwf1 (Hsub _ Hh)
              shape_point label_false Hnew) as [Hb2 He].
  split; [by eapply built_trans|done].
Qed.

Lemma elif_head_built s d line s1 e :
  wf s → d ∈ nodes_of s →
  elif_head s d line = (s1, e) →
  built s s1 ∧ e ∈ nodes_of s1.
Proof.
  intros Hwf Hd. unfold elif_head.
  destruct (new_node _ _ _ _ (advance s)) as [n s'] eqn:Hnew. intros [= <- <-].
  destruct (spawn_built (advance s) d _ _ _ (Some "False") _ _ (wf_advance _ Hwf) Hd
              shape_diamond label_false Hnew) as [Hb He].
  split; [|done]. eapply rtc_l; [apply bs_advance|exact Hb].
Qed.

Lemma else_head_built s d s1 e :
  wf s → d ∈ nodes_of s →
  else_head s d = (s1, e) →
  built s s1 ∧ e ∈ nodes_of s1.
Proof.
  intros Hwf Hd. unfold else_head.
  destruct (new_node _ _ _ _ (advance s)) as [n s'] eqn:Hnew. intros [= <- <-].
  destruct (spawn_built (advance s) d _ _ _ (Some "False") _ _ (wf_advance _ Hwf) Hd
              shape_point label_false Hnew) as [Hb He].
  split; [|done]. eapply rtc_l; [apply bs_advance|exact Hb].
Qed.

Lemma foldl_connect_built m ps s :
  wf s → m ∈ nodes_of s → (∀ p, p ∈ ps → p ∈ nodes_of s) →
  built s (foldl (λ self p, connect p m None self) s ps).
Proof.
  revert s. induction ps as [|p ps IH]; intros s Hwf Hm Hps; simpl; [apply rtc_refl|].
  assert (p ∈ nodes_of s) as Hp by (apply Hps; left).
  assert (build_step s (connect p m None s)) as Hstep.
  { apply bs_connect; [done..|apply label_none]. }
  destruct (build_step_wf _ _ Hwf Hstep) as (Hwf1 & Hsub & _).
  eapply rtc_l; [exact Hstep|]. apply IH; [done|by apply Hsub|].
  intros q Hq. apply Hsub, Hps. by right.
Qed.

Lemma merge_built s p0 rest last s4 m :
  wf s → (∀ p, p ∈ p0 :: rest → p ∈ nodes_of s) →
  (∀ d, last = Some d → d ∈ nodes_of s) →
  merge s (p0 :: rest) last = (s4, m) →
  built s s4 ∧ m ∈ nodes_of s4.
Proof.
  intros Hwf Hps Hlast. unfold merge.
  destruct (new_node _ _ _ _ s) as [id s1] eqn:Hnew. simpl foldl.
  assert (p0 ∈ nodes_of s) as Hp0 by (apply Hps; left).
  destruct (spawn_built _ p0 _ _ _ None _ _ Hwf Hp0 shape_point label_none Hnew)
    as [Hb1 Hid].
  destruct (built_wf _ _ Hb1 Hwf) as (Hwf1 & Hsub1 & _).
  assert (built (connect p0 id None s1)
            (foldl (λ self p, connect p id None self) (connect p0 id None s1) rest))
    as Hb2.
  { apply foldl_connect_built; [done..|]. intros q Hq. apply Hsub1, Hps. by right. }
  destruct (built_wf _ _ Hb2 Hwf1) as (Hwf2 & Hsub2 & _).
  set (s2 := foldl _ _ rest) in *.
  destruct last as [d|].
  - assert (d ∈ nodes_of s) as Hd by by apply Hlast.
    rewrite (wf_truthy _ _ Hwf Hd). intros [= <- <-].
    assert (build_step s2 (connect d id (Some "False") s2)) as Hstep.
    { apply bs_connect; [by apply Hsub2, Hsub1|by apply Hsub2|apply label_false]. }
    destruct (build_step_wf _ _ Hwf2 Hstep) as (_ & Hsub3 & _).
    split; [|by apply Hsub3, Hsub2].
    eapply built_trans; [exact Hb1|]. eapply built_trans; [exact Hb2|].
    by apply rtc_once.
  - intros [= <- <-]. split; [|by apply Hsub2].
    by eapply built_trans.
Qed.

(** Every execution of the block parser is a sequence of such steps. *)
Lemma exec_built :
  (∀ s cur buf s' out k,
      block_exec s cur buf s' out k →
      wf s → cur ∈ nodes_of s → built s s' ∧ out ∈ nodes_of s')
  ∧ (∀ s exits kinds d s' exits' kinds' last',
      chain_exec s exits kinds d s' exits' kinds' last' →
      wf s → d ∈ nodes_of s → (∀ p, p ∈ exits → p ∈ nodes_of s) →
      built s s'
      ∧ (∀ p, p ∈ exits' → p ∈ nodes_of s')
      ∧ (∀ d', last' = Some d' → d' ∈ nodes_of s')
      ∧ exits `prefix_of` exits').
Proof.
  apply exec_mutind.
  - intros s cur buf s' out _ Hf Hwf Hcur. by eapply flush_built.
  - intros s cur buf line s' out _ _ Hf Hwf Hcur. by eapply flush_built.
  - intros s cur buf line s1 out _ _ Hf Hwf Hcur.
    destruct (flush_built _ _ _ _ _ Hwf Hcur Hf) as [Hb Hout].
    split; [|done]. eapply built_trans; [exact Hb|]. apply rtc_once, bs_advance.
  - intros s cur buf line s' out k _ _ _ IH Hwf Hcur.
    destruct (IH (wf_advance _ Hwf) Hcur) as [Hb Hout].
    split; [|done]. eapply rtc_l; [apply bs_advance|exact Hb].
  - intros s cur buf line s1 h s2 body_end kb s3 e s' out k
      _ _ Hh _ IHb Ht _ IH Hwf Hcur.
    rewrite loop_head_line_node in Hh.
    destruct (line_node_built _ _ _ _ _ _ _ _ Hwf Hcur shape_diamond Hh) as [Hb1 Hh1].
    destruct (built_wf _ _ Hb1 Hwf) as (Hwf1 & _).
    destruct (IHb Hwf1 Hh1) as [Hb2 Hbe].
    destruct (built_wf _ _ Hb2 Hwf1) as (Hwf2 & Hsub2 & _).
    destruct (loop_tail_built _ _ _ _ _ Hwf2 Hbe (Hsub2 _ Hh1) Ht) as [Hb3 He].
    destruct (built_wf _ _ Hb3 Hwf2) as (Hwf3 & _).
    destruct (IH Hwf3 He) as [Hb4 Hout].
    split; [|done].
    eapply built_trans; [exact Hb1|]. eapply built_trans; [exact Hb2|].
    by eapply built_trans.
  - intros s cur buf line s1 c s2 true_end kb s3 exits kinds last s4 m s' out k
      _ _ Hh _ IHb _ IHch Hm _ IH Hwf Hcur.
    rewrite if_head_line_node in Hh.
    destruct (line_node_built _ _ _ _ _ _ _ _ Hwf Hcur shape_diamond Hh) as [Hb1 Hc1].
    destruct (built_wf _ _ Hb1 Hwf) as (Hwf1 & _).
    destruct (IHb Hwf1 Hc1) as [Hb2 Hte].
    destruct (built_wf _ _ Hb2 Hwf1) as (Hwf2 & Hsub2 & _).
    destruct (IHch Hwf2 (Hsub2 _ Hc1)) as (Hb3 & Hexits & Hlast & [rest ->]).
    { by intros p ->%list_elem_of_singleton. }
    destruct (built_wf _ _ Hb3 Hwf2) as (Hwf3 & _).
    destruct (merge_built _ _ _ _ _ _ Hwf3 Hexits Hlast Hm) as [Hb4 Hm4].
    destruct (built_wf _ _ Hb4 Hwf3) as (Hwf4 & _).
    destruct (IH Hwf4 Hm4) as [Hb5 Hout].
    split; [|done].
    eapply built_trans; [exact Hb1|]. eapply built_trans; [exact Hb2|].
    eapply built_trans; [exact Hb3|]. by eapply built_trans.
  - intros s cur buf line s' out _ _ Hr Hwf Hcur.
    rewrite return_stmt_line_node in Hr.
    exact (line_node_built _ _ _ _ _ _ _ _ Hwf Hcur shape_box Hr).
  - intros s cur buf line s' out k _ _ _ IH Hwf Hcur.
    destruct (IH (wf_advance _ Hwf) Hcur) as [Hb Hout].
    split; [|done]. eapply rtc_l; [apply bs_advance|exact Hb].
  - intros s exits kinds d _ Hwf Hd Hex.
    split_and!; [apply rtc_refl|done|by intros ? [= <-]|done].
  - intros s exits kinds d line _ _ Hwf Hd Hex.
    split_and!; [apply rtc_refl|done|by intros ? [= <-]|done].
  - intros s exits kinds d line s1 e s2 elif_end kb s' exits' kinds' last'
      _ _ Hh _ IHb _ IH Hwf Hd Hex.
    destruct (elif_head_built _ _ _ _ _ Hwf Hd Hh) as [Hb1 He].
    destruct (built_wf _ _ Hb1 Hwf) as (Hwf1 & Hsub1 & _).
    destruct (IHb Hwf1 He) as [Hb2 Hee].
    destruct (built_wf _ _ Hb2 Hwf1) as (Hwf2 & Hsub2 & _).
    destruct (IH Hwf2 (Hsub2 _ He)) as (Hb3 & Hexits & Hlast & Hpre).
    { intros p [Hin| ->%list_elem_of_singleton]%elem_of_app; [|done].
      by apply Hsub2, Hsub1, Hex. }
    split_and!; [|done..|].
    + eapply built_trans; [exact Hb1|]. by eapply built_trans.
    + etrans; [|exact Hpre]. by apply prefix_app_r.
  - intros s exits kinds d line s1 e s2 else_end kb _ _ Hh _ IHb Hwf Hd Hex.
    destruct (else_head_built _ _ _ _ Hwf Hd Hh) as [Hb1 He].
    destruct (built_wf _ _ Hb1 Hwf) as (Hwf1 & Hsub1 & _).
    destruct (IHb Hwf1 He) as [Hb2 Hee].
    destruct (built_wf _ _ Hb2 Hwf1) as (Hwf2 & Hsub2 & _).
    split_and!; [by eapply built_trans| |done|by apply prefix_app_r].
    intros p [Hin| ->%list_elem_of_singleton]%elem_of_app; [|done].
    by apply Hsub2, Hsub1, Hex.
Qed.

Lemma start_state_tidy m ls : tidy (start_state m ls).
Proof.
  destruct (start_state_wf m ls) as [Hwf Hin]. split.
  - intros k Hk. change (node_counter (start_state m ls)) with 1 in Hk.
    by replace k with 1 by lia.
  - reflexivity.
  - intros n a. unfold attrs_of, start_state, new_node, nx.add_node. simpl.
    rewrite lookup_empty. simpl.
    destruct (decide (node_id 1 = n)) as [<-|Hne].
    + rewrite lookup_insert_eq. intros [= <-].
      exists "START", "oval", "#C8E6C9". split; [done|apply shape_oval].
    + by rewrite lookup_insert_ne.
  - intros u v l. unfold edge. by simpl.
  - simpl. lia.
Qed.

(** [parse] on a fresh builder ends in a well-formed, tidy builder with at
    least the two nodes START and END; END has the highest id. *)
Lemma parse_lines_tidy m ls :
  ∃ s', parse_lines init m ls = Some s' ∧ wf s' ∧ tidy s' ∧ 2 ≤ node_counter s'
        ∧ attrs_of s' (node_id (node_counter s'))
          = Some (node_attrs "END" "oval" "filled" "#FFCDD2").
Proof.
  destruct (start_state_wf m ls) as [Hwf Hin].
  destruct (parse_block_total (start_state m ls) "N1") as [[s1 last] Hrun].
  destruct (proj1 (loops_sound _) _ _ _ _ _ Hrun) as [k Hexec].
  destruct (proj1 exec_built _ _ _ _ _ _ Hexec Hwf Hin) as [Hb Hlast].
  destruct (built_wf _ _ Hb Hwf) as (Hwf1 & _ & Hc1).
  exists (finish s1 last). split; [by eapply parse_lines_exec|].
  unfold finish. destruct (new_node "END" "oval" "filled" "#FFCDD2" s1) as [e s2] eqn:Hnew.
  destruct (spawn_built _ last _ _ _ None _ _ Hwf1 Hlast shape_oval label_none Hnew)
    as [Hb2 _].
  destruct (built_wf _ _ Hb2 Hwf1) as (Hwf2 & _ & Hc2).
  destruct (new_node_spec _ _ _ _ _ _ _ Hwf1 Hnew) as (He & _ & Hc & _).
  destruct (new_node_wf _ _ _ _ _ _ _ Hwf1 Hnew) as (Hwf1' & _ & Hdom & Hattr).
  split_and!; [done| | |].
  - eapply built_tidy; [|exact Hwf|apply start_state_tidy].
    by eapply built_trans.
  - rewrite connect_counter, Hc.
    change (node_counter (start_state m ls)) with 1 in Hc1. lia.
  - rewrite connect_counter, Hc, <- He.
    rewrite (proj2 (connect_nodes s2 last e None Hwf1' ltac:(rewrite Hdom; set_solver)
                      ltac:(rewrite Hdom; set_solver))).
    by rewrite Hattr, clean_label_END.
Qed.

End Built.

(** X2. For every text, [parse] on a fresh builder returns, and the nodes
    of the finished graph are exactly N1, ..., Nk where k is the final
    value of the node counter: no id is skipped or used twice, the graph
    has as many nodes as ids were handed out, there are at least two, and
    the node with the highest id is END. *)
Theorem parse_node_ids (code_text : string) :
  ∃ s', parse init code_text = Some s'
        ∧ nx.number_of_nodes (graph s') = node_counter s'
        ∧ 2 ≤ node_counter s'
        ∧ (∀ n, n ∈ nodes_of s' ↔ ∃ k, 1 ≤ k ≤ node_counter s' ∧ n = node_id k)
        ∧ label_of s' (node_id (node_counter s')) = Some "END".
Proof.
  unfold parse. destruct (normalize code_text) as [m ls].
  destruct (parse_lines_tidy m ls) as (s' & Hrun & Hwf & Ht & Hc & Hend).
  exists s'. split_and!; [done|apply (tidy_count _ Ht)|done| |].
  - intros n. split.
    + intros (k & -> & Hk)%(wf_ids _ Hwf). by exists k.
    + intros (k & Hk & ->). by apply (tidy_ids _ Ht).
  - unfold label_of. by rewrite Hend.
Qed.

(** X3. In every graph [parse] returns on a fresh builder, each node
    carries the four attributes label, shape, style and fillcolor and no
    other: the label is a cleaned text of at most 40 characters without a
    double quote, the shape is box, oval, diamond or point, and the style
    is filled. *)
Theorem parse_node_attributes (code_text : string) :
  ∃ s', parse init code_text = Some s'
        ∧ ∀ n, n ∈ nodes_of s' →
               ∃ label shape fill,
                 attrs_of s' n = Some (node_attrs label shape "filled" fill)
                 ∧ shape ∈ node_shapes
                 ∧ String.length label ≤ 40
                 ∧ PyStr.contains_char PyStr.dquote label = false.
Proof.
  unfold parse. destruct (normalize code_text) as [m ls].
  destruct (parse_lines_tidy m ls) as (s' & Hrun & Hwf & Ht & _).
  exists s'. split; [done|]. intros n [a Ha]%elem_nodes_of.
  destruct (tidy_attrs _ Ht _ _ Ha) as (label & shape & fill & -> & Hshape).
  exists (clean_label label), shape, fill.
  split_and!; [done|done|apply clean_label_length|apply clean_label_no_dquote].
Qed.

(** X4. In every graph [parse] returns on a fresh builder, both ends of
    each edge are nodes that [new_node] has made: each has an id that was
    handed out and carries the label, shape, style and fill colour stored
    by [new_node], not the empty attribute dict of a node that [add_edge]
    adds for a missing endpoint.  The graph has as many nodes as ids were
    handed out, so [add_edge] has added none.  The label of each edge is
    absent, False or Loop. *)
Theorem parse_edges (code_text : string) :
  ∃ s', parse init code_text = Some s'
        ∧ nx.number_of_nodes (graph s') = node_counter s'
        ∧ ∀ u v l, edge s' u v = Some l →
                   made_by_new_node s' u ∧ made_by_new_node s' v
                   ∧ (l = None ∨ l = Some "False" ∨ l = Some "Loop").
Proof.
  unfold parse. destruct (normalize code_text) as [m ls].
  destruct (parse_lines_tidy m ls) as (s' & Hrun & Hwf & Ht & _).
  assert (∀ n, n ∈ nodes_of s' → made_by_new_node s' n) as Hmade.
  { intros n Hn. destruct (wf_ids _ Hwf n Hn) as (k & -> & Hk).
    apply elem_nodes_of in Hn as [a Ha].
    destruct (tidy_attrs _ Ht _ _ Ha) as (label & shape & fill & -> & _).
    exists k, label, shape, fill.
    split; [done|]. split; [exact Hk|]. split; [done|].
    rewrite Ha. intros Hempty.
    pose proof (f_equal (λ o : option (gmap string string), o ≫= (.!! "shape")) Hempty)
      as Hs.
    simpl in Hs. by rewrite node_attrs_shape, lookup_empty in Hs. }
  exists s'. split_and!; [done|apply (tidy_count _ Ht)|]. intros u v l Hl.
  destruct (wf_edges _ Hwf u v) as [Hu Hv]; [by eexists|].
  split_and!; [by apply Hmade..|].
  apply (tidy_labels _ Ht) in Hl. unfold edge_labels in Hl. set_solver.
Qed.

(** X5. For every text, the metrics of the graph [parse] returns on a
    fresh builder are defined: there are at least two nodes, at least as
    many edges as nodes but one, and so Complexity (and Regions) is at
    least 1. *)
Theorem parse_metrics_bounds (code_text : string) :
  ∃ s' n e cc,
    parse init code_text = Some s'
    ∧ calculate_metrics (graph s') !! "Nodes" = Some n
    ∧ calculate_metrics (graph s') !! "Edges" = Some e
    ∧ calculate_metrics (graph s') !! "Complexity" = Some cc
    ∧ calculate_metrics (graph s') !! "Regions" = Some cc
    ∧ (2 ≤ n)%Z ∧ (n - 1 ≤ e)%Z ∧ (1 ≤ cc)%Z.
Proof.
  unfold parse. destruct (normalize code_text) as [m ls].
  destruct (parse_lines_tidy m ls) as (s' & Hrun & Hwf & Ht & Hc & _).
  pose proof (tidy_count _ Ht) as Hn. pose proof (tidy_edges _ Ht) as He.
  exists s', (Z.of_nat (nx.number_of_nodes (graph s'))),
    (Z.of_nat (nx.number_of_edges (graph s'))),
    (Z.of_nat (nx.number_of_edges (graph s'))
     - Z.of_nat (nx.number_of_nodes (graph s')) + 2)%Z.
  unfold calculate_metrics, graph_falsy.
  destruct (Nat.eqb_spec (nx.number_of_nodes (graph s')) 0) as [H0|_]; [lia|].
  split_and!; [done|reflexivity..|lia|lia|lia].
Qed.

(** ** Successors *)

Section OutDegree.

Implicit Types s : UniversalCFGBuilder.

Lemma outdeg_lookup s n a b l :
  filter (λ e : string * string * option string, e.1.1 = n) (_adj (graph s)) !! (a, b)
  = Some l ↔ a = n ∧ edge s n b = Some l.
Proof.
  rewrite map_lookup_filter_Some. unfold edge. simpl. split.
  - by intros [H ->].
  - by intros [-> H].
Qed.

(** The out-degree of a node depends on the edges leaving it only. *)
Lemma outdeg_agree s s' n : (∀ v, edge s' n v = edge s n v) → outdeg s' n = outdeg s n.
Proof.
  intros H. unfold outdeg, nx.out_degree. f_equal. apply map_eq. intros [a b].
  apply option_eq. intros l. rewrite !outdeg_lookup. by rewrite H.
Qed.

(** One more target. *)
Lemma outdeg_extra s s' n m :
  (∀ v, v ≠ m → edge s' n v = edge s n v) → edge s n m = None →
  outdeg s' n = outdeg s n + match edge s' n m with Some _ => 1 | None => 0 end.
Proof.
  intros Hother Hnone. destruct (edge s' n m) as [l|] eqn:Hm.
  - unfold outdeg, nx.out_degree.
    assert (filter (λ e : string * string * option string, e.1.1 = n) (_adj (graph s'))
            = <[(n, m) := l]>
                (filter (λ e : string * string * option string, e.1.1 = n)
                   (_adj (graph s)))) as ->.
    { apply map_eq. intros [a b]. apply option_eq. intros x.
      rewrite lookup_insert_Some, !outdeg_lookup. split.
      - intros [-> Hx]. destruct (decide (b = m)) as [->|Hb].
        + left. split; [done|congruence].
        + right. split; [congruence|]. split; [done|]. by rewrite <- Hother.
      - intros [[[= <- <-] <-]|[Hne [-> Hx]]]; [done|]. split; [done|].
        rewrite Hother; [done|]. congruence. }
    rewrite map_size_insert_None; [lia|].
    apply eq_None_not_Some. intros [x Hx]. apply outdeg_lookup in Hx as [_ Hx].
    congruence.
  - rewrite Nat.add_0_r. apply outdeg_agree. intros v.
    destruct (decide (v = m)) as [->|Hv]; [congruence|by apply Hother].
Qed.

Lemma outdeg_0 s n : outdeg s n = 0 ↔ ∀ v, edge s n v = None.
Proof.
  unfold outdeg, nx.out_degree. rewrite map_size_empty_iff. split.
  - intros Hemp v. apply eq_None_not_Some. intros [l Hl].
    assert (filter (λ e : string * string * option string, e.1.1 = n) (_adj (graph s))
              !! (n, v) = Some l) as Hf by by apply outdeg_lookup.
    rewrite Hemp in Hf. by rewrite lookup_empty in Hf.
  - intros Hno. apply map_empty. intros [a b]. apply eq_None_not_Some.
    intros [l Hl]. apply outdeg_lookup in Hl as [-> Hl]. by rewrite Hno in Hl.
Qed.

Lemma outdeg_fresh s n : wf s → n ∉ nodes_of s → outdeg s n = 0.
Proof.
  intros Hwf Hn. apply outdeg_0. intros v. apply eq_None_not_Some. intros Hv.
  by apply Hn, (wf_edges _ Hwf n v).
Qed.

Lemma outdeg_pos s n v : is_Some (edge s n v) → 1 ≤ outdeg s n.
Proof.
  intros [l Hl]. destruct (outdeg s n) eqn:H0; [|lia].
  rewrite outdeg_0 in H0. by rewrite H0 in Hl.
Qed.

End OutDegree.

(** ** How control flows through the graph *)

Section Flow.

Implicit Types s : UniversalCFGBuilder.

Lemma build_step_mono s s' :
  wf s → build_step s s' →
  (∀ n a, attrs_of s n = Some a → attrs_of s' n = Some a)
  ∧ (∀ u v, edge_rel s u v → edge_rel s' u v).
Proof.
  intros Hwf Hstep. revert Hwf.
  destruct Hstep as [s0 p label shape fill l id s1 Hp _ _ Hnew|s0 u v l Hu Hv _|s0];
    intros Hwf.
  - destruct (new_node_wf _ _ _ _ _ _ _ Hwf Hnew) as (Hwf1 & Hext & Hdom & _).
    assert (p ∈ nodes_of s1) as Hp1 by (rewrite Hdom; set_solver).
    assert (id ∈ nodes_of s1) as Hid1 by (rewrite Hdom; set_solver).
    split.
    + intros n a Ha. rewrite (proj2 (connect_nodes _ _ _ l Hwf1 Hp1 Hid1)).
      by apply Hext.
    + intros a b Hab. apply connect_edge_rel; [done..|].
      by apply (extends_edge_rel s0).
  - split.
    + intros n a Ha. by rewrite (proj2 (connect_nodes _ _ _ l Hwf Hu Hv)).
    + intros a b Hab. by apply connect_edge_rel.
  - done.
Qed.

Lemma built_mono s s' :
  built s s' → wf s →
  (∀ n a, attrs_of s n = Some a → attrs_of s' n = Some a)
  ∧ (∀ u v, edge_rel s u v → edge_rel s' u v).
Proof.
  induction 1 as [s|s1 s2 s3 Hstep _ IH]; intros Hwf; [done|].
  destruct (build_step_mono _ _ Hwf Hstep) as [Ha He].
  destruct (IH (proj1 (build_step_wf _ _ Hwf Hstep))) as [Ha' He'].
  split; [intros n a H; by apply Ha', Ha|intros u v H; by apply He', He].
Qed.

Lemma built_decision s s' n :
  built s s' → wf s → is_decision_node s n → is_decision_node s' n.
Proof.
  intros Hb Hwf (line & fill & Ha). exists line, fill.
  by apply (proj1 (built_mono _ _ Hb Hwf)).
Qed.

Lemma built_reach s s' u v : built s s' → wf s → reach s u v → reach s' u v.
Proof.
  intros Hb Hwf. unfold reach. apply rtc_subrel. intros a b.
  apply (proj2 (built_mono _ _ Hb Hwf)).
Qed.

(** A new node below [p]: its exact effect. *)
Lemma spawn_shape s p label shape style fill l id s1 :
  wf s → p ∈ nodes_of s →
  new_node label shape style fill s = (id, s1) →
  block_post s p (connect p id l s1) id
  ∧ (id ∉ nodes_of s)
  ∧ nodes_of (connect p id l s1) = {[id]} ∪ nodes_of s
  ∧ attrs_of (connect p id l s1) id
    = Some (node_attrs (clean_label label) shape style fill)
  ∧ (∀ a b, edge (connect p id l s1) a b
            = if decide ((p, id) = (a, b)) then Some l else edge s a b).
Proof.
  intros Hwf Hp Hnew.
  destruct (post_spawn s p s p p _ _ _ _ l _ _ (post_refl _ _ Hwf Hp) Hp
              (rtc_refl _ _) Hnew) as (H1 & H2 & _ & H3 & H4 & H5).
  done.
Qed.

Lemma spawn_degree s p label shape style fill l id s1 n :
  wf s → p ∈ nodes_of s →
  new_node label shape style fill s = (id, s1) →
  outdeg (connect p id l s1) n = outdeg s n + (if decide (n = p) then 1 else 0).
Proof.
  intros Hwf Hp Hnew.
  destruct (spawn_shape _ _ _ _ _ _ l _ _ Hwf Hp Hnew) as (_ & Hfresh & _ & _ & He).
  assert (edge s n id = None) as Hnone.
  { apply eq_None_not_Some. intros H. by apply Hfresh, (wf_edges _ Hwf n id). }
  rewrite (outdeg_extra s _ n id); [|intros v Hv; rewrite He; by rewrite decide_False
                                    by congruence|done].
  rewrite He. destruct (decide (n = p)) as [->|Hne].
  - by rewrite decide_True.
  - rewrite decide_False by congruence. by rewrite Hnone.
Qed.

Lemma flow_refl s cur : outdeg s cur = 0 → flow s cur s cur.
Proof. intros H0. split; [done|done|by left|done|done]. Qed.

Lemma flow_advance s cur s' out : flow s cur s' out → flow s cur (advance s') out.
Proof. intros []. by split. Qed.

Lemma flow_advance_l s cur s' out : flow (advance s) cur s' out → flow s cur s' out.
Proof. intros []. by split. Qed.

Lemma flow_trans s cur s1 c1 s2 c2 :
  wf s → cur ∈ nodes_of s →
  block_post s cur s1 c1 → block_post s1 c1 s2 c2 →
  flow s cur s1 c1 → flow s1 c1 s2 c2 → flow s cur s2 c2.
Proof.
  intros Hwf Hcur P1 P2 F1 F2.
  pose proof (post_nodes _ _ _ _ P1) as Hsub1.
  pose proof (post_nodes _ _ _ _ P2) as Hsub2.
  assert (∀ n, n ∈ nodes_of s → n ≠ cur → n ≠ c1) as Hc1.
  { intros n Hn Hne ->. by destruct (bp_out_new _ _ _ _ P1). }
  split.
  - apply F2.
  - intros n Hn Hne v.
    rewrite (fl_old _ _ _ _ F2) by (by apply Hsub1 || by apply Hc1).
    by apply F1.
  - destruct (decide (c1 = cur)) as [->|Hne]; [apply F2|].
    right. destruct (fl_cur _ _ _ _ F1) as [?|H1]; [done|].
    rewrite <- H1. apply outdeg_agree. intros v.
    apply (fl_old _ _ _ _ F2); [by apply Hsub1|congruence].
  - intros n Hn2 Hns Hne2. destruct (decide (n ∈ nodes_of s1)) as [Hn1|Hn1].
    + destruct (decide (n = c1)) as [->|Hnc1].
      * destruct (fl_cur _ _ _ _ F2) as [->|H1]; [done|].
        rewrite H1. split; [lia|]. discriminate.
      * destruct (fl_new _ _ _ _ F1 n Hn1 Hns Hnc1) as [Hb Hd].
        assert (outdeg s2 n = outdeg s1 n) as ->.
        { apply outdeg_agree. intros v. by apply (fl_old _ _ _ _ F2). }
        split; [done|]. intros H2.
        eapply is_decision_node_ext; [apply P2|by apply Hd].
    + by apply (fl_new _ _ _ _ F2).
  - intros n Hn2 Hns. destruct (decide (n ∈ nodes_of s1)) as [Hn1|Hn1].
    + etrans; [|apply (bp_reach_out _ _ _ _ P2)].
      eapply extends_reach; [apply P1|apply P2|by apply (fl_reach _ _ _ _ F1)].
    + by apply (fl_reach _ _ _ _ F2).
Qed.

Lemma spawn_flow s p label shape style fill l id s1 :
  wf s → p ∈ nodes_of s → outdeg s p = 0 →
  new_node label shape style fill s = (id, s1) →
  flow s p (connect p id l s1) id.
Proof.
  intros Hwf Hp H0 Hnew.
  destruct (spawn_shape _ _ _ _ _ _ l _ _ Hwf Hp Hnew) as (_ & Hfresh & Hdom & _ & He).
  assert (id ≠ p) as Hne by (intros ->; done).
  split.
  - rewrite (spawn_degree _ _ _ _ _ _ l _ _ id Hwf Hp Hnew).
    rewrite decide_False by done. rewrite (outdeg_fresh _ _ Hwf Hfresh). done.
  - intros n Hn Hnp v. rewrite He. rewrite decide_False; [done|congruence].
  - right. rewrite (spawn_degree _ _ _ _ _ _ l _ _ p Hwf Hp Hnew).
    rewrite decide_True by done. lia.
  - intros n. rewrite Hdom. set_solver.
  - intros n. rewrite Hdom. intros [->%elem_of_singleton|?]%elem_of_union ?; [|done].
    apply rtc_refl.
Qed.

Lemma flush_flow s cur buf s0 pred :
  wf s → cur ∈ nodes_of s → outdeg s cur = 0 →
  flush_buffer s cur buf = (s0, pred) →
  flow s cur s0 pred.
Proof.
  intros Hwf Hcur H0. unfold flush_buffer. destruct buf as [|x buf].
  - intros [= <- <-]. by apply flow_refl.
  - destruct (new_node _ _ _ _ s) as [id s1] eqn:Hnew. intros [= <- <-].
    by eapply spawn_flow.
Qed.

(** Sections 4, 5.A and 6 up to the new node for the line. *)
Lemma line_node_flow shape fill s cur buf line s1 id :
  wf s → cur ∈ nodes_of s → outdeg s cur = 0 →
  line_node shape fill s cur buf line = (s1, id) →
  flow s cur s1 id ∧ block_post s cur s1 id ∧ (id ∉ nodes_of s)
  ∧ attrs_of s1 id = Some (node_attrs (clean_label line) shape "filled" fill).
Proof.
  intros Hwf Hcur H0 Hline.
  destruct (line_node_post _ _ _ _ _ _ _ _ Hwf Hcur Hline)
    as (s0 & pred & Hf & Hp0 & _ & Hfresh & Hp1 & _ & Hattr & _ & _).
  split_and!; [|done| |done].
  - revert Hline. unfold line_node. rewrite Hf.
    destruct (new_node line shape "filled" fill s0) as [n s0'] eqn:Hnew.
    intros [= <- <-].
    pose proof (flush_flow _ _ _ _ _ Hwf Hcur H0 Hf) as F0.
    pose proof (bp_wf _ _ _ _ Hp0) as Hwf0.
    pose proof (bp_out _ _ _ _ Hp0) as Hpred.
    destruct (spawn_shape _ _ _ _ _ _ None _ _ Hwf0 Hpred Hnew) as (Hps & _).
    apply flow_advance.
    eapply flow_trans; [done|done|exact Hp0|exact Hps|exact F0|].
    eapply spawn_flow; [done|done|apply F0|exact Hnew].
  - intros Hin. by apply Hfresh, (post_nodes _ _ _ _ Hp0).
Qed.

(** Section 4 after the body. *)
Lemma loop_tail_shape s be h s3 e :
  wf s → be ∈ nodes_of s → h ∈ nodes_of s → edge s be h = None →
  loop_tail s be h = (s3, e) →
  wf s3 ∧ built s s3 ∧ (e ∉ nodes_of s) ∧ nodes_of s3 = {[e]} ∪ nodes_of s
  ∧ edge_rel s3 be h ∧ edge_rel s3 h e
  ∧ (∀ n v, n ≠ be → n ≠ h → edge s3 n v = edge s n v)
  ∧ (∀ n, outdeg s3 n = outdeg s n + (if decide (n = be) then 1 else 0)
                         + (if decide (n = h) then 1 else 0)).
Proof.
  intros Hwf Hbe Hh Hnone Htail.
  destruct (loop_tail_built _ _ _ _ _ Hwf Hbe Hh Htail) as [Hb _].
  revert Htail. unfold loop_tail.
  destruct (new_node _ _ _ _ _) as [n' s'] eqn:Hnew. intros [= <- <-].
  pose proof (connect_wf _ _ _ (Some "Loop") Hwf Hbe Hh) as Hwf1.
  destruct (connect_nodes _ _ _ (Some "Loop") Hwf Hbe Hh) as [Hn1 _].
  assert (h ∈ nodes_of (connect be h (Some "Loop") s)) as Hh1 by by rewrite Hn1.
  destruct (spawn_shape _ _ _ _ _ _ (Some "False") _ _ Hwf1 Hh1 Hnew)
    as (Hp & Hfresh & Hdom & _ & He).
  rewrite Hn1 in Hfresh, Hdom.
  split_and!; [apply Hp|done|done|done| | | |].
  - unfold edge_rel. rewrite He. rewrite decide_False by (intros [= -> ->]; done).
    rewrite connect_edge by done. by rewrite decide_True.
  - unfold edge_rel. rewrite He. by rewrite decide_True.
  - intros n v Hnbe Hnh. rewrite He. rewrite decide_False by congruence.
    rewrite connect_edge by done. by rewrite decide_False by congruence.
  - intros n. rewrite (spawn_degree _ _ _ _ _ _ (Some "False") _ _ n Hwf1 Hh1 Hnew).
    f_equal. destruct (decide (n = be)) as [->|Hne].
    + rewrite (outdeg_extra s _ be h); [|intros v Hv; rewrite connect_edge by done;
                                          by rewrite decide_False by congruence|done].
      rewrite connect_edge by done. by rewrite decide_True.
    + rewrite Nat.add_0_r. apply outdeg_agree. intros v.
      rewrite connect_edge by done. by rewrite decide_False by congruence.
Qed.

(** Section 5.C. *)
Lemma merge_shape s p0 rest last s4 m :
  wf s → (∀ p, p ∈ p0 :: rest → p ∈ nodes_of s) →
  (∀ d, last = Some d → d ∈ nodes_of s) →
  merge s (p0 :: rest) last = (s4, m) →
  wf s4 ∧ built s s4 ∧ (m ∉ nodes_of s) ∧ nodes_of s4 = {[m]} ∪ nodes_of s
  ∧ (∀ a d, edge s4 a d
            = if decide (d = m)
              then if decide (last = Some a) then Some (Some "False")
                   else if decide (a ∈ p0 :: rest) then Some None else None
              else edge s a d)
  ∧ (∀ n, outdeg s4 n
          = outdeg s n + (if decide (n ∈ p0 :: rest ∨ last = Some n) then 1 else 0)).
Proof.
  intros Hwf Hps Hlast Hm.
  destruct (merge_built _ _ _ _ _ _ Hwf Hps Hlast Hm) as [Hb _].
  assert (p0 ∈ nodes_of s) as Hp0 by (apply Hps; left).
  destruct (merge_post s p0 s p0 p0 rest last s4 m (post_refl _ _ Hwf Hp0) Hps
              (rtc_refl _ _) Hlast Hm) as (Hp & Hfresh & _ & Hdom & _ & He).
  split_and!; [apply Hp|done|done|done|done|].
  intros n.
  assert (edge s n m = None) as Hnone.
  { apply eq_None_not_Some. intros H. by apply Hfresh, (wf_edges _ Hwf n m). }
  rewrite (outdeg_extra s s4 n m); [|intros v Hv; rewrite He; by rewrite decide_False|done].
  f_equal. rewrite He, decide_True by done.
  destruct (decide (last = Some n)) as [Hl|Hl].
  - rewrite decide_True; [done|by right].
  - destruct (decide (n ∈ p0 :: rest)) as [Hin|Hin].
    + rewrite decide_True; [done|by left].
    + rewrite decide_False; [done|tauto].
Qed.

(** Section 5.B: the node for an elif or else line, below the last
    decision. *)
Lemma branch_head_shape s d label shape style fill l e s0 :
  wf s → d ∈ nodes_of s →
  new_node label shape style fill (advance s) = (e, s0) →
  let s1 := connect d e l s0 in
  wf s1 ∧ block_post s d s1 e ∧ (e ∉ nodes_of s) ∧ nodes_of s1 = {[e]} ∪ nodes_of s
  ∧ attrs_of s1 e = Some (node_attrs (clean_label label) shape style fill)
  ∧ (∀ n v, n ≠ d → edge s1 n v = edge s n v)
  ∧ edge_rel s1 d e
  ∧ (∀ n, outdeg s1 n = outdeg s n + (if decide (n = d) then 1 else 0)).
Proof.
  intros Hwf Hd Hnew s1.
  destruct (spawn_shape (advance s) d _ _ _ _ l _ _ (wf_advance _ Hwf) Hd Hnew)
    as (Hp & Hfresh & Hdom & Hattr & He).
  split_and!; [apply Hp|by apply post_advance_l|done|done|done| | |].
  - intros n v Hn. unfold s1. rewrite He. by rewrite decide_False by congruence.
  - unfold edge_rel, s1. rewrite He. by rewrite decide_True.
  - intros n. apply (spawn_degree (advance s) d _ _ _ _ l _ _ n (wf_advance _ Hwf) Hd Hnew).
Qed.

(** One loop construct: header, body, back-edge and exit node. *)
Lemma loop_flow s cur s1 h s2 be s3 e :
  wf s → cur ∈ nodes_of s →
  block_post s cur s1 h → (h ∉ nodes_of s) → is_decision_node s1 h → flow s cur s1 h →
  block_post s1 h s2 be → built s1 s2 → flow s1 h s2 be →
  loop_tail s2 be h = (s3, e) →
  flow s cur s3 e.
Proof.
  intros Hwf Hcur P1 Hhs Hdec F1 P2 B2 F2 Htail.
  pose proof (bp_wf _ _ _ _ P1) as Hwf1. pose proof (bp_wf _ _ _ _ P2) as Hwf2.
  pose proof (post_nodes _ _ _ _ P1) as Hsub1.
  pose proof (post_nodes _ _ _ _ P2) as Hsub2.
  pose proof (bp_out _ _ _ _ P1) as Hh1. pose proof (bp_out _ _ _ _ P2) as Hbe2.
  pose proof (bp_out_new _ _ _ _ P2) as Hbe.
  assert (edge s2 be h = None) as Hnone.
  { destruct Hbe as [->|Hbe].
    - apply outdeg_0, F2.
    - rewrite (ext_edges _ _ (bp_ext _ _ _ _ P2)) by done.
      apply eq_None_not_Some. intros H. by apply Hbe, (wf_edges _ Hwf1 be h). }
  destruct (loop_tail_shape _ _ _ _ _ Hwf2 Hbe2 (Hsub2 _ Hh1) Hnone Htail)
    as (Hwf3 & B3 & Hes2 & Hdom3 & Ebh & Ehe & Eother & Hdeg).
  assert (∀ n, n ∈ nodes_of s1 → n ≠ h → n ≠ be) as Hnbe.
  { intros n Hn Hnh ->. by destruct Hbe. }
  assert (∀ n, n ∈ nodes_of s1 → n ≠ h → ∀ v, edge s3 n v = edge s1 n v) as Hkeep.
  { intros n Hn Hnh v. rewrite Eother by (done || by apply Hnbe).
    by apply (fl_old _ _ _ _ F2). }
  assert (h ≠ cur) as Hhcur by (intros ->; done).
  assert (e ≠ h) as Heh by (intros ->; by apply Hes2, Hsub2).
  assert (e ≠ be) as Hebe by (intros ->; done).
  assert (is_decision_node s3 h) as Hdec3.
  { apply (built_decision s1); [by eapply built_trans|done|done]. }
  assert (reach s3 h e) as Rhe by by apply rtc_once.
  assert (reach s3 be e) as Rbe by (eapply rtc_l; [exact Ebh|exact Rhe]).
  split.
  - rewrite Hdeg, !decide_False by done. rewrite (outdeg_fresh _ _ Hwf2 Hes2). done.
  - intros n Hn Hne v. rewrite Hkeep; [by apply F1|by apply Hsub1|].
    intros ->. done.
  - right. destruct (fl_cur _ _ _ _ F1) as [?|H1]; [done|].
    rewrite <- H1. apply outdeg_agree. intros v. apply Hkeep; [by apply Hsub1|done].
  - intros n Hn3 Hns Hne. rewrite Hdom3 in Hn3.
    apply elem_of_union in Hn3 as [Hn3%elem_of_singleton|Hn2]; [done|].
    rewrite Hdeg. destruct (decide (n = h)) as [->|Hnh].
    + split; [|done]. destruct (decide (h = be)) as [<-|Hhbe].
      * rewrite (fl_sink _ _ _ _ F2). lia.
      * destruct (fl_cur _ _ _ _ F2) as [?|H1]; [done|]. rewrite H1. lia.
    + destruct (decide (n = be)) as [->|Hnb].
      * rewrite (fl_sink _ _ _ _ F2). split; [lia|]. intros; lia.
      * rewrite !Nat.add_0_r. destruct (decide (n ∈ nodes_of s1)) as [Hn1|Hn1].
        -- destruct (fl_new _ _ _ _ F1 n Hn1 Hns Hnh) as [Hb Hd].
           assert (outdeg s2 n = outdeg s1 n) as ->.
           { apply outdeg_agree. intros v. by apply (fl_old _ _ _ _ F2). }
           split; [done|]. intros H2.
           apply (built_decision s1); [by eapply built_trans|done|by apply Hd].
        -- destruct (fl_new _ _ _ _ F2 n Hn2 Hn1 Hnb) as [Hb Hd].
           split; [done|]. intros H2. apply (built_decision s2); [done|done|by apply Hd].
  - intros n Hn3 Hns. rewrite Hdom3 in Hn3.
    apply elem_of_union in Hn3 as [->%elem_of_singleton|Hn2]; [apply rtc_refl|].
    destruct (decide (n ∈ nodes_of s1)) as [Hn1|Hn1].
    + etrans; [|exact Rhe].
      apply (built_reach s1); [by eapply built_trans|done|by apply (fl_reach _ _ _ _ F1)].
    + etrans; [|exact Rbe].
      apply (built_reach s2); [done|done|by apply (fl_reach _ _ _ _ F2)].
Qed.

(** One conditional construct: condition, true branch, the elif and else
    branches, and the merge node. *)
Lemma cond_flow s cur s1 c s2 te s3 exits last s4 m :
  wf s → cur ∈ nodes_of s →
  block_post s cur s1 c → (c ∉ nodes_of s) → is_decision_node s1 c → flow s cur s1 c →
  block_post s1 c s2 te → built s1 s2 → flow s1 c s2 te →
  built s2 s3 → [te] `prefix_of` exits →
  (∀ p, p ∈ exits → p ∈ nodes_of s3) → (∀ d, last = Some d → d ∈ nodes_of s3) →
  chain_flow s2 [te] c s3 exits last →
  merge s3 exits last = (s4, m) →
  flow s cur s4 m.
Proof.
  intros Hwf Hcur P1 Hcs Hdec F1 P2 B2 F2 B3 [rest ->] Hexits Hlast CF Hm.
  simpl in *.
  pose proof (bp_wf _ _ _ _ P1) as Hwf1. pose proof (bp_wf _ _ _ _ P2) as Hwf2.
  destruct (built_wf _ _ B3 Hwf2) as (Hwf3 & Hsub3 & _).
  pose proof (post_nodes _ _ _ _ P1) as Hsub1.
  pose proof (post_nodes _ _ _ _ P2) as Hsub2.
  pose proof (bp_out _ _ _ _ P1) as Hc1.
  pose proof (bp_out_new _ _ _ _ P2) as Hte.
  destruct (merge_shape _ _ _ _ _ _ Hwf3 Hexits Hlast Hm)
    as (Hwf4 & B4 & Hms3 & Hdom4 & He4 & Hdeg).
  assert (∀ n, n ∈ nodes_of s1 → n ≠ c → ¬ (n ∈ te :: rest ∨ last = Some n)) as Hnp.
  { intros n Hn1 Hnc [Hin|Hl].
    - destruct (cf_fresh _ _ _ _ _ _ CF n Hin) as [->%list_elem_of_singleton|Hn2].
      + by destruct Hte.
      + by apply Hn2, Hsub2.
    - destruct (cf_last_fresh _ _ _ _ _ _ CF n Hl) as [?|Hn2]; [done|].
      by apply Hn2, Hsub2. }
  assert (∀ n, n ∈ nodes_of s1 → n ≠ c → ∀ v, edge s4 n v = edge s1 n v) as Hkeep.
  { intros n Hn1 Hnc v. rewrite He4. destruct (decide (v = m)) as [->|Hv].
    - rewrite decide_False by (intros ?; apply (Hnp n); auto).
      rewrite decide_False by (intros ?; apply (Hnp n); auto).
      symmetry. apply eq_None_not_Some. intros H.
      apply Hms3, Hsub3, Hsub2. by apply (wf_edges _ Hwf1 n m).
    - rewrite (cf_old _ _ _ _ _ _ CF) by (done || by apply Hsub2).
      by apply (fl_old _ _ _ _ F2). }
  assert (c ≠ cur) as Hccur by (intros ->; done).
  assert (built s1 s4) as B14.
  { eapply built_trans; [exact B2|]. by eapply built_trans. }
  assert (built s2 s4) as B24 by by eapply built_trans.
  assert (∀ p, p ∈ te :: rest → reach s4 p m) as Rexit.
  { intros p Hp. apply rtc_once. unfold edge_rel. rewrite He4, decide_True by done.
    destruct (decide (last = Some p)); [done|]. by rewrite decide_True. }
  assert (outdeg s2 c ≤ 1) as Hc2.
  { destruct (fl_cur _ _ _ _ F2) as [->|H1]; [|lia].
    rewrite (fl_sink _ _ _ _ F2). lia. }
  split.
  - rewrite Hdeg. rewrite (outdeg_fresh _ _ Hwf3 Hms3).
    rewrite decide_False; [done|]. intros [Hin|Hl]; apply Hms3; auto.
  - intros n Hn Hne v. rewrite Hkeep; [by apply F1|by apply Hsub1|].
    intros ->. done.
  - right. destruct (fl_cur _ _ _ _ F1) as [?|H1]; [done|].
    rewrite <- H1. apply outdeg_agree. intros v. apply Hkeep; [by apply Hsub1|done].
  - intros n Hn4 Hns Hne. rewrite Hdom4 in Hn4.
    apply elem_of_union in Hn4 as [Hn4%elem_of_singleton|Hn3]; [done|].
    rewrite Hdeg. destruct (decide (n ∈ te :: rest ∨ last = Some n)) as [Hpend|Hpend].
    + assert (outdeg s3 n ≤ 1 ∧ (outdeg s3 n = 1 → is_decision_node s3 n)) as [Hle Hd].
      { destruct Hpend as [Hin|Hl].
        - by apply (cf_exits _ _ _ _ _ _ CF).
        - destruct (cf_last _ _ _ _ _ _ CF n Hl) as [? ?]. done. }
      split; [lia|]. intros H2. apply (built_decision s3); [done|done|].
      apply Hd. lia.
    + rewrite Nat.add_0_r.
      destruct (decide (n ∈ nodes_of s2)) as [Hn2|Hn2].
      * destruct (decide (n = c)) as [->|Hnc].
        -- assert (last ≠ Some c) as Hl by tauto.
           pose proof (cf_d_ge _ _ _ _ _ _ CF Hl).
           pose proof (cf_d_le _ _ _ _ _ _ CF).
           split; [lia|]. intros _. by apply (built_decision s1).
        -- assert (outdeg s3 n = outdeg s2 n) as ->.
           { apply outdeg_agree. intros v. by apply (cf_old _ _ _ _ _ _ CF). }
           destruct (decide (n ∈ nodes_of s1)) as [Hn1|Hn1].
           ++ destruct (fl_new _ _ _ _ F1 n Hn1 Hns Hnc) as [Hb Hd].
              assert (outdeg s2 n = outdeg s1 n) as ->.
              { apply outdeg_agree. intros v. by apply (fl_old _ _ _ _ F2). }
              split; [done|]. intros H2. apply (built_decision s1); [done|done|by apply Hd].
           ++ assert (n ≠ te) as Hnte.
              { intros ->. apply Hpend. left. left. }
              destruct (fl_new _ _ _ _ F2 n Hn2 Hn1 Hnte) as [Hb Hd].
              split; [done|]. intros H2. apply (built_decision s2); [done|done|by apply Hd].
      * destruct (cf_new _ _ _ _ _ _ CF n Hn3 Hn2) as [Hb Hd]; [tauto|tauto|].
        split; [done|]. intros H2. apply (built_decision s3); [done|done|by apply Hd].
  - intros n Hn4 Hns. rewrite Hdom4 in Hn4.
    apply elem_of_union in Hn4 as [->%elem_of_singleton|Hn3]; [apply rtc_refl|].
    assert (reach s4 te m) as Rte by (apply Rexit; left).
    destruct (decide (n ∈ nodes_of s2)) as [Hn2|Hn2].
    + destruct (decide (n ∈ nodes_of s1)) as [Hn1|Hn1].
      * etrans; [|exact Rte]. etrans.
        -- apply (built_reach s1); [done|done|by apply (fl_reach _ _ _ _ F1)].
        -- apply (built_reach s2); [done|done|apply P2].
      * etrans; [|exact Rte].
        apply (built_reach s2); [done|done|by apply (fl_reach _ _ _ _ F2)].
    + destruct (cf_reach _ _ _ _ _ _ CF n Hn3 Hn2) as (p & Hp & Hr).
      etrans; [|by apply Rexit].
      by apply (built_reach s3).
Qed.

(** The branch after an elif or else line, as seen from the chain. *)
Lemma branch_flow s exits d s1 e s2 ee :
  wf s → d ∈ nodes_of s → (∀ p, p ∈ exits → p ∈ nodes_of s) →
  is_decision_node s d → (d ∈ exits → outdeg s d = 0) →
  (∀ p, p ∈ exits → outdeg s p ≤ 1 ∧ (outdeg s p = 1 → is_decision_node s p)) →
  wf s1 → built s s1 → block_post s d s1 e → (e ∉ nodes_of s) →
  nodes_of s1 = {[e]} ∪ nodes_of s →
  (∀ n v, n ≠ d → edge s1 n v = edge s n v) →
  (∀ n, outdeg s1 n = outdeg s n + (if decide (n = d) then 1 else 0)) →
  block_post s1 e s2 ee → built s1 s2 → flow s1 e s2 ee →
  (∀ p, p ∈ exits ++ [ee] → p ∈ nodes_of s2)
  ∧ (e ∈ exits ++ [ee] → outdeg s2 e = 0)
  ∧ outdeg s2 e ≤ 1
  ∧ (∀ p, p ∈ exits ++ [ee] →
          outdeg s2 p ≤ 1 ∧ (outdeg s2 p = 1 → is_decision_node s2 p))
  ∧ (∀ n, n ∈ nodes_of s → n ≠ d → ∀ v, edge s2 n v = edge s n v)
  ∧ outdeg s2 d = S (outdeg s d)
  ∧ (∀ n, n ∈ nodes_of s2 → n ∉ nodes_of s → n ≠ e → n ≠ ee →
          (n ∉ nodes_of s1)
          ∧ 1 ≤ outdeg s2 n ≤ 2 ∧ (outdeg s2 n = 2 → is_decision_node s2 n))
  ∧ (ee = e ∨ ee ∉ nodes_of s1)
  ∧ (∀ n, n ∈ nodes_of s2 → n ∉ nodes_of s → reach s2 n ee).
Proof.
  intros Hwf Hd Hex Hdec Hd0 Hexd Hwf1 B1 P1 Hes Hdom1 E1 D1 P2 B2 F2.
  pose proof (bp_wf _ _ _ _ P2) as Hwf2.
  pose proof (post_nodes _ _ _ _ P1) as Hsub1.
  pose proof (post_nodes _ _ _ _ P2) as Hsub2.
  pose proof (bp_out _ _ _ _ P1) as He1.
  pose proof (bp_out_new _ _ _ _ P2) as Hee.
  assert (∀ n, n ∈ nodes_of s → n ≠ e) as Hne by (intros n Hn ->; done).
  assert (∀ n, n ∈ nodes_of s → outdeg s2 n = outdeg s1 n) as Hdeg2.
  { intros n Hn. apply outdeg_agree. intros v.
    apply (fl_old _ _ _ _ F2); [by apply Hsub1|by apply Hne]. }
  assert (built s s2) as B02 by by eapply built_trans.
  split_and!.
  - intros p [Hin| ->%list_elem_of_singleton]%elem_of_app; [|apply P2].
    by apply Hsub2, Hsub1, Hex.
  - intros [Hin| ->%list_elem_of_singleton]%elem_of_app; [|apply F2].
    exfalso. by apply Hes, Hex.
  - destruct (fl_cur _ _ _ _ F2) as [->|H1]; [|lia]. rewrite (fl_sink _ _ _ _ F2). lia.
  - intros p [Hin| ->%list_elem_of_singleton]%elem_of_app.
    + rewrite (Hdeg2 p) by by apply Hex. rewrite D1.
      destruct (decide (p = d)) as [->|Hpd].
      * rewrite (Hd0 Hin). split; [simpl; lia|]. intros _.
        by apply (built_decision s).
      * rewrite Nat.add_0_r. destruct (Hexd p Hin) as [Hle Hdp]. split; [done|].
        intros H1. apply (built_decision s); [done|done|by apply Hdp].
    + rewrite (fl_sink _ _ _ _ F2). split; [lia|]. intros; lia.
  - intros n Hn Hnd v. rewrite (fl_old _ _ _ _ F2) by (by apply Hsub1 || by apply Hne).
    by apply E1.
  - rewrite (Hdeg2 d Hd), D1, decide_True by done. lia.
  - intros n Hn2 Hns Hnote Hnee.
    assert (n ∉ nodes_of s1) as Hn1.
    { rewrite Hdom1. set_solver. }
    split; [done|]. by apply (fl_new _ _ _ _ F2).
  - done.
  - intros n Hn2 Hns. destruct (decide (n ∈ nodes_of s1)) as [Hn1|Hn1].
    + rewrite Hdom1 in Hn1. assert (n = e) as -> by set_solver. apply P2.
    + by apply (fl_reach _ _ _ _ F2).
Qed.

(** The flow invariant holds for every execution. *)
Lemma exec_flow :
  (∀ s cur buf s' out k,
      block_exec s cur buf s' out k →
      wf s → cur ∈ nodes_of s → outdeg s cur = 0 → flow s cur s' out)
  ∧ (∀ s exits kinds d s' exits' kinds' last',
      chain_exec s exits kinds d s' exits' kinds' last' →
      wf s → d ∈ nodes_of s → (∀ p, p ∈ exits → p ∈ nodes_of s) →
      is_decision_node s d → outdeg s d ≤ 1 → (d ∈ exits → outdeg s d = 0) →
      (∀ p, p ∈ exits → outdeg s p ≤ 1 ∧ (outdeg s p = 1 → is_decision_node s p)) →
      chain_flow s exits d s' exits' last').
Proof.
  apply exec_mutind.
  - (* end of input *)
    intros s cur buf s' out _ Hf Hwf Hcur H0. by eapply flush_flow.
  - (* elif / else seen *)
    intros s cur buf line s' out _ _ Hf Hwf Hcur H0. by eapply flush_flow.
  - (* closing brace *)
    intros s cur buf line s1 out _ _ Hf Hwf Hcur H0.
    apply flow_advance. by eapply flush_flow.
  - (* opening brace *)
    intros s cur buf line s' out k _ _ _ IH Hwf Hcur H0.
    apply flow_advance_l. by apply IH; [apply wf_advance|..].
  - (* loop *)
    intros s cur buf line s1 h s2 body_end kb s3 e s' out k
      _ _ Hh Hbody IHb Ht Hrest IH Hwf Hcur H0.
    rewrite loop_head_line_node in Hh.
    destruct (line_node_flow _ _ _ _ _ _ _ _ Hwf Hcur H0 Hh) as (F1 & P1 & Hhs & Hattr).
    pose proof (bp_wf _ _ _ _ P1) as Hwf1. pose proof (bp_out _ _ _ _ P1) as Hh1.
    destruct (proj1 exec_invariant _ _ _ _ _ _ Hbody Hwf1 Hh1) as [P2 _].
    destruct (proj1 exec_built _ _ _ _ _ _ Hbody Hwf1 Hh1) as [B2 _].
    pose proof (IHb Hwf1 Hh1 (fl_sink _ _ _ _ F1)) as F2.
    assert (is_decision_node s1 h) as Hdec by by eexists _, _.
    pose proof (loop_flow _ _ _ _ _ _ _ _ Hwf Hcur P1 Hhs Hdec F1 P2 B2 F2 Ht) as F3.
    pose proof (post_trans _ _ _ _ _ _ Hwf P1 P2) as P12.
    destruct (loop_tail_post s cur s2 body_end h s3 e P12) as (P3 & _); [| | |exact Ht|].
    { apply (post_nodes _ _ _ _ P2), P1. }
    { done. }
    { eapply extends_reach; [apply P1|apply P2|apply P1]. }
    pose proof (bp_wf _ _ _ _ P3) as Hwf3. pose proof (bp_out _ _ _ _ P3) as He3.
    destruct (proj1 exec_invariant _ _ _ _ _ _ Hrest Hwf3 He3) as [P4 _].
    pose proof (IH Hwf3 He3 (fl_sink _ _ _ _ F3)) as F4.
    by eapply flow_trans.
  - (* conditional chain *)
    intros s cur buf line s1 c s2 true_end kb s3 exits kinds last s4 m s' out k
      _ _ Hh Hbody IHb Hchain IHch Hm Hrest IH Hwf Hcur H0.
    rewrite if_head_line_node in Hh.
    destruct (line_node_flow _ _ _ _ _ _ _ _ Hwf Hcur H0 Hh) as (F1 & P1 & Hcs & Hattr).
    pose proof (bp_wf _ _ _ _ P1) as Hwf1. pose proof (bp_out _ _ _ _ P1) as Hc1.
    destruct (proj1 exec_invariant _ _ _ _ _ _ Hbody Hwf1 Hc1) as [P2 Hret2].
    destruct (proj1 exec_built _ _ _ _ _ _ Hbody Hwf1 Hc1) as [B2 _].
    pose proof (IHb Hwf1 Hc1 (fl_sink _ _ _ _ F1)) as F2.
    assert (is_decision_node s1 c) as Hdec by by eexists _, _.
    pose proof (bp_wf _ _ _ _ P2) as Hwf2.
    pose proof (post_nodes _ _ _ _ P2) as Hsub2.
    assert (∀ p, p ∈ [true_end] → p ∈ nodes_of s2) as Hex2.
    { intros p ->%list_elem_of_singleton. apply P2. }
    destruct (proj2 exec_built _ _ _ _ _ _ _ _ Hchain Hwf2 (Hsub2 _ Hc1) Hex2)
      as (B3 & Hexits & Hlast & Hpre).
    assert (chain_flow s2 [true_end] c s3 exits last) as CF.
    { apply IHch; [done|by apply Hsub2|done| | | |].
      - by apply (built_decision s1).
      - destruct (fl_cur _ _ _ _ F2) as [->|H1]; [|lia].
        rewrite (fl_sink _ _ _ _ F2). lia.
      - intros ->%list_elem_of_singleton. apply F2.
      - intros p ->%list_elem_of_singleton. rewrite (fl_sink _ _ _ _ F2).
        split; [lia|]. intros; lia. }
    pose proof (cond_flow _ _ _ _ _ _ _ _ _ _ _ Hwf Hcur P1 Hcs Hdec F1 P2 B2 F2 B3
                  Hpre Hexits Hlast CF Hm) as F4.
    pose proof (post_trans _ _ _ _ _ _ Hwf P1 P2) as P12.
    destruct (proj2 exec_invariant _ _ _ _ _ _ _ _ Hchain s cur true_end Hwf P12)
      as (out1 & P3 & _ & Hexits' & Hlast' & _ & _ & _).
    { by apply Hsub2. }
    { eapply extends_reach; [apply P1|apply P2|apply P1]. }
    { eapply is_decision_node_ext; [apply P2|done]. }
    { intros p ->%list_elem_of_singleton. split; [apply P12|apply P12]. }
    { intros [|i] p; simpl; [|done]. intros [= <-] [= ->]. by apply Hret2. }
    { done. }
    destruct Hpre as [rest ->]. simpl in Hm.
    destruct (merge_post s cur s3 out1 true_end rest last s4 m P3) as (P4 & _);
      [| | |exact Hm|].
    { intros p Hp. by apply Hexits'. }
    { apply Hexits'. left. }
    { intros d Hd. by apply Hlast'. }
    pose proof (bp_wf _ _ _ _ P4) as Hwf4. pose proof (bp_out _ _ _ _ P4) as Hm4.
    destruct (proj1 exec_invariant _ _ _ _ _ _ Hrest Hwf4 Hm4) as [P5 _].
    pose proof (IH Hwf4 Hm4 (fl_sink _ _ _ _ F4)) as F5.
    by eapply flow_trans.
  - (* return *)
    intros s cur buf line s' out _ _ Hr Hwf Hcur H0.
    rewrite return_stmt_line_node in Hr.
    by destruct (line_node_flow _ _ _ _ _ _ _ _ Hwf Hcur H0 Hr) as (F1 & _).
  - (* plain statement *)
    intros s cur buf line s' out k _ _ _ IH Hwf Hcur H0.
    apply flow_advance_l. by apply IH; [apply wf_advance|..].
  - (* chain: end of input *)
    intros s exits kinds d _ Hwf Hd Hex Hdec Hd1 Hd0 Hexd.
    split; try done.
    + lia.
    + intros d' [= <-]. done.
    + by left.
    + intros d' [= <-]. by left.
  - (* chain: any other line *)
    intros s exits kinds d line _ _ Hwf Hd Hex Hdec Hd1 Hd0 Hexd.
    split; try done.
    + lia.
    + intros d' [= <-]. done.
    + by left.
    + intros d' [= <-]. by left.
  - (* chain: elif *)
    intros s exits kinds d line s1 e s2 elif_end kb s' exits' kinds' last'
      _ _ Hh Hbody IHb Hchain IH Hwf Hd Hex Hdec Hd1 Hd0 Hexd.
    destruct (elif_head_built _ _ _ _ _ Hwf Hd Hh) as [B1 _].
    revert Hh. unfold elif_head.
    destruct (new_node _ _ _ _ (advance s)) as [e' s0] eqn:Hnew. intros [= <- <-].
    destruct (branch_head_shape _ _ _ _ _ _ (Some "False") _ _ Hwf Hd Hnew)
      as (Hwf1 & P1 & Hes & Hdom1 & Hattr & E1 & Ede & D1).
    set (s1 := connect d e' (Some "False") s0) in *.
    pose proof (bp_out _ _ _ _ P1) as He1.
    destruct (proj1 exec_invariant _ _ _ _ _ _ Hbody Hwf1 He1) as [P2 _].
    destruct (proj1 exec_built _ _ _ _ _ _ Hbody Hwf1 He1) as [B2 _].
    assert (outdeg s1 e' = 0) as He0.
    { rewrite D1, (outdeg_fresh _ _ Hwf Hes). rewrite decide_False; [done|].
      intros ->. done. }
    pose proof (IHb Hwf1 He1 He0) as F2.
    destruct (branch_flow _ _ _ _ _ _ _ Hwf Hd Hex Hdec Hd0 Hexd Hwf1 B1 P1 Hes Hdom1
                E1 D1 P2 B2 F2)
      as (Hex2 & He20 & He21 & Hexd2 & Hold2 & Hdd & Hnew2 & Hee & Hreach2).
    pose proof (bp_wf _ _ _ _ P2) as Hwf2.
    pose proof (post_nodes _ _ _ _ P1) as Hsub1.
    pose proof (post_nodes _ _ _ _ P2) as Hsub2.
    assert (is_decision_node s2 e') as Hdec2.
    { apply (built_decision s1); [done|done|by eexists _, _]. }
    pose proof (IH Hwf2 (Hsub2 _ He1) Hex2 Hdec2 He21 He20 Hexd2) as CF.
    destruct (proj2 exec_built _ _ _ _ _ _ _ _ Hchain Hwf2 (Hsub2 _ He1) Hex2)
      as (B3 & Hexits & Hlast & Hpre).
    destruct (built_wf _ _ B3 Hwf2) as (Hwf3 & Hsub3 & _).
    assert (elif_end ∈ exits') as Hee_in.
    { apply (elem_of_prefix (exits ++ [elif_end])); [|done]. set_solver. }
    assert (d ≠ e') as Hde by (intros ->; done).
    assert (outdeg s' d = S (outdeg s d)) as Hdd'.
    { rewrite <- Hdd. apply outdeg_agree. intros v.
      apply (cf_old _ _ _ _ _ _ CF); [by apply Hsub2, Hsub1|done]. }
    assert (last' ≠ Some d) as Hlastd.
    { intros Hl. destruct (cf_last_fresh _ _ _ _ _ _ CF d Hl) as [?|Hn]; [done|].
      by apply Hn, Hsub2, Hsub1. }
    split.
    + intros n Hn Hnd v.
      rewrite (cf_old _ _ _ _ _ _ CF) by (by apply Hsub2, Hsub1 || (intros ->; done)).
      by apply Hold2.
    + lia.
    + done.
    + intros _. lia.
    + apply CF.
    + apply CF.
    + intros n Hn' Hns Hnex Hnl.
      destruct (decide (n ∈ nodes_of s2)) as [Hn2|Hn2].
      * destruct (decide (n = e')) as [->|Hne].
        -- pose proof (cf_d_ge _ _ _ _ _ _ CF Hnl).
           pose proof (cf_d_le _ _ _ _ _ _ CF).
           split; [lia|]. intros _. by apply (built_decision s2).
        -- assert (n ≠ elif_end) as Hnee by (intros ->; done).
           destruct (Hnew2 n Hn2 Hns Hne Hnee) as (Hn1 & Hb & Hdn).
           assert (outdeg s' n = outdeg s2 n) as ->.
           { apply outdeg_agree. intros v. by apply (cf_old _ _ _ _ _ _ CF). }
           split; [done|]. intros H2. apply (built_decision s2); [done|done|by apply Hdn].
      * by apply (cf_new _ _ _ _ _ _ CF).
    + intros p Hp. destruct (cf_fresh _ _ _ _ _ _ CF p Hp) as [Hin|Hn2].
      * apply elem_of_app in Hin as [Hin| ->%list_elem_of_singleton]; [by left|right].
        destruct Hee as [->|Hn1]; [done|]. intros Hin. by apply Hn1, Hsub1.
      * right. intros Hin. by apply Hn2, Hsub2, Hsub1.
    + intros d' Hl. right. destruct (cf_last_fresh _ _ _ _ _ _ CF d' Hl) as [->|Hn2].
      * done.
      * intros Hin. by apply Hn2, Hsub2, Hsub1.
    + intros n Hn' Hns. destruct (decide (n ∈ nodes_of s2)) as [Hn2|Hn2].
      * exists elif_end. split; [done|].
        apply (built_reach s2); [done|done|by apply Hreach2].
      * by apply (cf_reach _ _ _ _ _ _ CF).
  - (* chain: else *)
    intros s exits kinds d line s1 e s2 else_end kb
      _ _ Hh Hbody IHb Hwf Hd Hex Hdec Hd1 Hd0 Hexd.
    destruct (else_head_built _ _ _ _ Hwf Hd Hh) as [B1 _].
    revert Hh. unfold else_head.
    destruct (new_node _ _ _ _ (advance s)) as [e' s0] eqn:Hnew. intros [= <- <-].
    destruct (branch_head_shape _ _ _ _ _ _ (Some "False") _ _ Hwf Hd Hnew)
      as (Hwf1 & P1 & Hes & Hdom1 & Hattr & E1 & Ede & D1).
    set (s1 := connect d e' (Some "False") s0) in *.
    pose proof (bp_out _ _ _ _ P1) as He1.
    destruct (proj1 exec_invariant _ _ _ _ _ _ Hbody Hwf1 He1) as [P2 _].
    destruct (proj1 exec_built _ _ _ _ _ _ Hbody Hwf1 He1) as [B2 _].
    assert (outdeg s1 e' = 0) as He0.
    { rewrite D1, (outdeg_fresh _ _ Hwf Hes). rewrite decide_False; [done|].
      intros ->. done. }
    pose proof (IHb Hwf1 He1 He0) as F2.
    destruct (branch_flow _ _ _ _ _ _ _ Hwf Hd Hex Hdec Hd0 Hexd Hwf1 B1 P1 Hes Hdom1
                E1 D1 P2 B2 F2)
      as (Hex2 & He20 & He21 & Hexd2 & Hold2 & Hdd & Hnew2 & Hee & Hreach2).
    pose proof (post_nodes _ _ _ _ P1) as Hsub1.
    pose proof (post_nodes _ _ _ _ P2) as Hsub2.
    split.
    + done.
    + lia.
    + done.
    + intros _. lia.
    + done.
    + done.
    + intros n Hn2 Hns Hnex _.
      assert (n ≠ else_end) as Hnee by (intros ->; apply Hnex; set_solver).
      destruct (decide (n = e')) as [->|Hne].
      * destruct (fl_cur _ _ _ _ F2) as [?|H1]; [done|]. rewrite H1.
        split; [lia|]. intros; lia.
      * by destruct (Hnew2 n Hn2 Hns Hne Hnee) as (_ & Hb & Hdn).
    + intros p [Hin| ->%list_elem_of_singleton]%elem_of_app; [by left|right].
      destruct Hee as [->|Hn1]; [done|]. intros Hin. by apply Hn1, Hsub1.
    + done.
    + intros n Hn2 Hns. exists else_end. split; [set_solver|by apply Hreach2].
Qed.

End Flow.

(** ** Counting nodes by their number of successors *)

Section Census.

Lemma filter_size_same {V} (P Q : string → Prop)
    `{!∀ n, Decision (P n)} `{!∀ n, Decision (Q n)} (N : gmap string V) :
  (∀ n, is_Some (N !! n) → (P n ↔ Q n)) →
  size (filter (λ na : string * V, P na.1) N) = size (filter (λ na : string * V, Q na.1) N).
Proof.
  intros Hiff. f_equal. apply map_eq. intros n. apply option_eq. intros y.
  rewrite !map_lookup_filter_Some. simpl. split; intros [Hn Hp]; (split; [done|]);
    by apply (Hiff n).
Qed.

Lemma filter_size_flip {V} (P Q : string → Prop)
    `{!∀ n, Decision (P n)} `{!∀ n, Decision (Q n)} (N : gmap string V) u x :
  N !! u = Some x → P u → ¬ Q u → (∀ n, is_Some (N !! n) → n ≠ u → (P n ↔ Q n)) →
  size (filter (λ na : string * V, P na.1) N)
  = S (size (filter (λ na : string * V, Q na.1) N)).
Proof.
  intros Hu HP HQ Hiff.
  assert (filter (λ na : string * V, P na.1) N
          = <[u := x]> (filter (λ na : string * V, Q na.1) N)) as ->.
  { apply map_eq. intros n. apply option_eq. intros y.
    rewrite lookup_insert_Some, !map_lookup_filter_Some. simpl. split.
    - intros [Hn Hp]. destruct (decide (u = n)) as [->|Hne].
      + left. split; [done|congruence].
      + right. split; [done|]. split; [done|]. apply Hiff; [by eexists|congruence|done].
    - intros [[-> <-]|[Hne [Hn Hq]]]; [done|]. split; [done|].
      apply Hiff; [by eexists|congruence|done]. }
  apply map_size_insert_None. apply map_lookup_filter_None. right.
  intros y _. done.
Qed.

Lemma out_degree_insert N A u v l n :
  A !! (u, v) = None →
  nx.out_degree (mkDiGraph N (<[(u, v) := l]> A)) n
  = nx.out_degree (mkDiGraph N A) n + (if decide (n = u) then 1 else 0).
Proof.
  intros Hnone.
  change (outdeg (mkBuilder (mkDiGraph N (<[(u, v) := l]> A)) 0 [] 0 c_style) n
          = outdeg (mkBuilder (mkDiGraph N A) 0 [] 0 c_style) n
            + (if decide (n = u) then 1 else 0)).
  destruct (decide (n = u)) as [->|Hne].
  - rewrite (outdeg_extra (mkBuilder (mkDiGraph N A) 0 [] 0 c_style) _ u v).
    + unfold edge. simpl. by rewrite lookup_insert_eq.
    + intros w Hw. unfold edge. simpl. apply lookup_insert_ne. congruence.
    + done.
  - rewrite Nat.add_0_r. apply outdeg_agree. intros w. unfold edge. simpl.
    apply lookup_insert_ne. congruence.
Qed.

(** In a graph whose edges start at nodes and whose nodes have at most two
    successors, edges plus nodes without a successor are as many as nodes
    plus nodes with two successors. *)
Lemma degree_census N A :
  (∀ u v, is_Some (A !! (u, v)) → is_Some (N !! u)) →
  (∀ n, nx.out_degree (mkDiGraph N A) n ≤ 2) →
  size A + size (filter (λ na : string * gmap string string,
                           nx.out_degree (mkDiGraph N A) na.1 = 0) N)
  = size N + size (filter (λ na : string * gmap string string,
                             1 < nx.out_degree (mkDiGraph N A) na.1) N).
Proof.
  induction A as [|[u v] l A Hnone _ IH] using map_first_key_ind.
  - intros _ _.
    assert (∀ n, nx.out_degree (mkDiGraph N ∅) n = 0) as H0.
    { intros n. unfold nx.out_degree. simpl. by rewrite map_filter_empty. }
    rewrite map_size_empty.
    pose proof (filter_size_same (λ n, nx.out_degree (mkDiGraph N ∅) n = 0)
                  (λ _, True) N) as E1.
    pose proof (filter_size_same (λ n, 1 < nx.out_degree (mkDiGraph N ∅) n)
                  (λ _, False) N) as E2.
    cbv beta in E1, E2.
    rewrite E1 by (intros n _; by rewrite H0).
    rewrite E2 by (intros n _; rewrite H0; lia).
    rewrite map_filter_id by done.
    assert (filter (λ _ : string * gmap string string, False) N = ∅) as ->.
    { apply map_empty. intros n. apply map_lookup_filter_None. right. by intros ? _ []. }
    rewrite map_size_empty. lia.
  - intros Hsrc Hle.
    assert (∀ n, nx.out_degree (mkDiGraph N (<[(u, v) := l]> A)) n
                 = nx.out_degree (mkDiGraph N A) n + (if decide (n = u) then 1 else 0))
      as Hdeg by (intros n; by apply out_degree_insert).
    destruct (Hsrc u v) as [x Hx]; [by rewrite lookup_insert_eq|].
    rewrite map_size_insert_None by done.
    assert (size A + size (filter (λ na : string * gmap string string,
                               nx.out_degree (mkDiGraph N A) na.1 = 0) N)
            = size N + size (filter (λ na : string * gmap string string,
                               1 < nx.out_degree (mkDiGraph N A) na.1) N)) as IH'.
    { apply IH.
      - intros a b Hab. apply (Hsrc a b). destruct (decide ((u, v) = (a, b))) as [<-|Hne].
        + by rewrite lookup_insert_eq.
        + by rewrite lookup_insert_ne.
      - intros n. specialize (Hle n). rewrite Hdeg in Hle. lia. }
    pose proof (Hle u) as Hu. rewrite Hdeg, decide_True in Hu by done.
    pose proof (filter_size_flip (λ n, nx.out_degree (mkDiGraph N A) n = 0)
                  (λ n, nx.out_degree (mkDiGraph N (<[(u, v) := l]> A)) n = 0) N u x Hx)
      as Z1.
    pose proof (filter_size_same
                  (λ n, nx.out_degree (mkDiGraph N (<[(u, v) := l]> A)) n = 0)
                  (λ n, nx.out_degree (mkDiGraph N A) n = 0) N) as Z0.
    pose proof (filter_size_flip
                  (λ n, 1 < nx.out_degree (mkDiGraph N (<[(u, v) := l]> A)) n)
                  (λ n, 1 < nx.out_degree (mkDiGraph N A) n) N u x Hx) as P1.
    pose proof (filter_size_same
                  (λ n, 1 < nx.out_degree (mkDiGraph N (<[(u, v) := l]> A)) n)
                  (λ n, 1 < nx.out_degree (mkDiGraph N A) n) N) as P0.
    cbv beta in Z1, Z0, P1, P0.
    destruct (nx.out_degree (mkDiGraph N A) u) as [|[|d]] eqn:Hd; [| |lia].
    + rewrite Z1 in IH'; [|done| |].
      * rewrite P0; [lia|].
        intros n _. rewrite Hdeg.
        destruct (decide (n = u)) as [->|?]; [|by rewrite Nat.add_0_r].
        rewrite Hd. lia.
      * rewrite Hdeg, decide_True by done. lia.
      * intros n _ Hn. rewrite Hdeg, decide_False by done. by rewrite Nat.add_0_r.
    + rewrite P1; [| | |].
      * rewrite Z0; [lia|].
        intros n _. rewrite Hdeg.
        destruct (decide (n = u)) as [->|?]; [|by rewrite Nat.add_0_r].
        rewrite Hd. lia.
      * rewrite Hdeg, decide_True by done. lia.
      * lia.
      * intros n _ Hn. rewrite Hdeg, decide_False by done. by rewrite Nat.add_0_r.
Qed.

(** With one node without a successor: Edges + 1 = Nodes + Predicates. *)
Lemma single_sink_census (G : DiGraph) (e : string) :
  (∀ u v, nx.has_edge G u v → nx.has_node G u) →
  nx.has_node G e →
  (∀ n, nx.has_node G n → (nx.out_degree G n = 0 ↔ n = e)) →
  (∀ n, nx.out_degree G n ≤ 2) →
  nx.number_of_edges G + 1 = nx.number_of_nodes G + predicates G.
Proof.
  destruct G as [N A]. unfold nx.has_edge, nx.has_node, nx.number_of_edges,
    nx.number_of_nodes, predicates. simpl.
  intros Hsrc [x He] Hsink Hle.
  rewrite <- (degree_census N A Hsrc Hle). f_equal.
  pose proof (filter_size_flip (λ n, nx.out_degree (mkDiGraph N A) n = 0)
                (λ _, False) N e x He) as Z1.
  cbv beta in Z1. rewrite Z1.
  - assert (filter (λ _ : string * gmap string string, False) N = ∅) as ->.
    { apply map_empty. intros n. apply map_lookup_filter_None. right. by intros ? _ []. }
    by rewrite map_size_empty.
  - apply Hsink; [by eexists|done].
  - tauto.
  - intros n Hin Hn. split; [|done]. intros H0. by apply Hn, Hsink.
Qed.

End Census.

(** ** The finished graph *)

Section Finished.

(** [parse] on a fresh builder: END is the node that was created last, it
    has no successor, every other node has one or two, two only when it
    is a decision node, and END can be reached from every node. *)
Lemma parse_lines_flow m ls :
  ∃ s', parse_lines init m ls = Some s' ∧ wf s'
        ∧ node_id (node_counter s') ∈ nodes_of s'
        ∧ attrs_of s' (node_id (node_counter s'))
          = Some (node_attrs "END" "oval" "filled" "#FFCDD2")
        ∧ outdeg s' (node_id (node_counter s')) = 0
        ∧ (∀ n, n ∈ nodes_of s' → n ≠ node_id (node_counter s') →
                1 ≤ outdeg s' n ≤ 2 ∧ (outdeg s' n = 2 → is_decision_node s' n))
        ∧ (∀ n, n ∈ nodes_of s' → reach s' n (node_id (node_counter s'))).
Proof.
  destruct (start_state_wf m ls) as [Hwf Hin].
  assert (nodes_of (start_state m ls) = {["N1"]}) as Hdom0.
  { unfold start_state.
    destruct (new_node "START" "oval" "filled" "#C8E6C9" (mkBuilder nx.empty 0 ls 0 m))
      as [id s0] eqn:Hnew.
    destruct (new_node_wf _ _ _ _ _ _ _ (wf_init_lines m ls) Hnew) as (_ & _ & Hdom & _).
    destruct (new_node_spec _ _ _ _ _ _ _ (wf_init_lines m ls) Hnew) as (Hid & _).
    simpl in *. rewrite Hdom, Hid. unfold nodes_of. simpl. rewrite dom_empty_L.
    change (node_id 1) with "N1". set_solver. }
  assert (outdeg (start_state m ls) "N1" = 0) as H0.
  { apply outdeg_0. intros v. unfold start_state.
    destruct (new_node "START" "oval" "filled" "#C8E6C9" (mkBuilder nx.empty 0 ls 0 m))
      as [id s0] eqn:Hnew.
    destruct (new_node_spec _ _ _ _ _ _ _ (wf_init_lines m ls) Hnew) as (_ & _ & _ & _ & Ha).
    unfold edge. simpl. rewrite Ha. simpl. apply lookup_empty. }
  destruct (parse_block_total (start_state m ls) "N1") as [[s1 last] Hrun].
  destruct (proj1 (loops_sound _) _ _ _ _ _ Hrun) as [k Hexec].
  pose proof (proj1 exec_flow _ _ _ _ _ _ Hexec Hwf Hin H0) as F1.
  destruct (proj1 exec_invariant _ _ _ _ _ _ Hexec Hwf Hin) as [P1 _].
  pose proof (bp_wf _ _ _ _ P1) as Hwf1. pose proof (bp_out _ _ _ _ P1) as Hlast.
  exists (finish s1 last). split; [by eapply parse_lines_exec|].
  unfold finish. destruct (new_node "END" "oval" "filled" "#FFCDD2" s1) as [e s2] eqn:Hnew.
  destruct (spawn_shape _ _ _ _ _ _ None _ _ Hwf1 Hlast Hnew)
    as (P2 & Hfresh & Hdom2 & Hattr & He2).
  pose proof (spawn_flow _ _ _ _ _ _ None _ _ Hwf1 Hlast (fl_sink _ _ _ _ F1) Hnew) as F2.
  pose proof (flow_trans _ _ _ _ _ _ Hwf Hin P1 P2 F1 F2) as F.
  pose proof (post_trans _ _ _ _ _ _ Hwf P1 P2) as P.
  destruct (new_node_spec _ _ _ _ _ _ _ Hwf1 Hnew) as (Hid & _ & Hc & _).
  rewrite connect_counter, Hc, <- Hid.
  assert (e ≠ "N1") as HeN.
  { intros ->. apply Hfresh. by apply (post_nodes _ _ _ _ P1). }
  split_and!.
  - apply P.
  - apply P.
  - by rewrite Hattr, clean_label_END.
  - apply F.
  - intros n Hn Hne. destruct (decide (n = "N1")) as [->|Hn1].
    + destruct (fl_cur _ _ _ _ F) as [?|H1]; [done|]. rewrite H1.
      split; [lia|]. intros; lia.
    + apply (fl_new _ _ _ _ F); [done| |done]. rewrite Hdom0. set_solver.
  - intros n Hn. destruct (decide (n = "N1")) as [->|Hn1].
    + apply P.
    + apply (fl_reach _ _ _ _ F); [done|]. rewrite Hdom0. set_solver.
Qed.

End Finished.

(** X6. For every text, in the graph [parse] returns on a fresh builder the
    node END, which is the node created last, is the one node without a
    successor, and it can be reached from every node along directed
    edges: no statement, branch or loop is a dead end. *)
Theorem single_exit_all_reach_end (code_text : string) :
  ∃ s', parse init code_text = Some s'
        ∧ attrs_of s' (node_id (node_counter s'))
          = Some (node_attrs "END" "oval" "filled" "#FFCDD2")
        ∧ (∀ n, n ∈ nodes_of s' →
                (nx.out_degree (graph s') n = 0 ↔ n = node_id (node_counter s')))
        ∧ (∀ n, n ∈ nodes_of s' → reach s' n (node_id (node_counter s'))).
Proof.
  unfold parse. destruct (normalize code_text) as [m ls].
  destruct (parse_lines_flow m ls) as (s' & Hrun & Hwf & Hin & Hattr & H0 & Hdeg & Hreach).
  exists s'. split_and!; [done..| |done].
  intros n Hn. split.
  - intros Hz. destruct (decide (n = node_id (node_counter s'))) as [|Hne]; [done|].
    destruct (Hdeg n Hn Hne) as [Hb _]. unfold outdeg in Hb. lia.
  - intros ->. apply H0.
Qed.

(** X7. For every text, in the graph [parse] returns on a fresh builder no
    node has more than two successors, and a node with two successors is
    a decision node: a diamond made for a loop, if or elif line.  So
    Predicates counts decision nodes only. *)
Theorem branching_only_at_decisions (code_text : string) :
  ∃ s', parse init code_text = Some s'
        ∧ (∀ n, nx.out_degree (graph s') n ≤ 2)
        ∧ (∀ n, 1 < nx.out_degree (graph s') n →
                n ∈ nodes_of s' ∧ is_decision_node s' n
                ∧ attrs_of s' n ≫= (.!! "shape") = Some "diamond").
Proof.
  unfold parse. destruct (normalize code_text) as [m ls].
  destruct (parse_lines_flow m ls) as (s' & Hrun & Hwf & Hin & Hattr & H0 & Hdeg & Hreach).
  assert (∀ n, nx.out_degree (graph s') n ≤ 2
               ∧ (1 < nx.out_degree (graph s') n →
                  n ∈ nodes_of s' ∧ is_decision_node s' n)) as H.
  { intros n. destruct (decide (n ∈ nodes_of s')) as [Hn|Hn].
    - destruct (decide (n = node_id (node_counter s'))) as [->|Hne].
      + unfold outdeg in H0. rewrite H0. split; [lia|]. intros; lia.
      + destruct (Hdeg n Hn Hne) as [Hb Hd]. unfold outdeg in Hb, Hd.
        split; [lia|]. intros H1. split; [done|]. apply Hd. lia.
    - pose proof (outdeg_fresh _ _ Hwf Hn) as Hz. unfold outdeg in Hz. rewrite Hz.
      split; [lia|]. intros; lia. }
  exists s'. split_and!; [done|apply H|].
  intros n Hn. destruct (proj2 (H n) Hn) as [Hin' Hd]. split_and!; [done..|].
  destruct Hd as (line & fill & ->). apply node_attrs_shape.
Qed.

(** X8. For every text, the metrics of the graph [parse] returns on a
    fresh builder satisfy Edges + 1 = Nodes + Predicates, that is,
    Complexity (Edges - Nodes + 2) is the number of predicate nodes plus
    one. *)
Theorem complexity_is_predicates_plus_one (code_text : string) :
  ∃ s' n e p cc,
    parse init code_text = Some s'
    ∧ calculate_metrics (graph s') !! "Nodes" = Some n
    ∧ calculate_metrics (graph s') !! "Edges" = Some e
    ∧ calculate_metrics (graph s') !! "Predicates" = Some p
    ∧ calculate_metrics (graph s') !! "Complexity" = Some cc
    ∧ (e + 1 = n + p)%Z
    ∧ (cc = p + 1)%Z.
Proof.
  unfold parse. destruct (normalize code_text) as [m ls].
  destruct (parse_lines_flow m ls) as (s' & Hrun & Hwf & Hin & Hattr & H0 & Hdeg & Hreach).
  assert (nx.number_of_edges (graph s') + 1
          = nx.number_of_nodes (graph s') + predicates (graph s')) as Hcensus.
  { apply (single_sink_census (graph s') (node_id (node_counter s'))).
    - intros u v Huv. apply elem_nodes_of. by apply (wf_edges _ Hwf u v).
    - by apply elem_nodes_of.
    - intros n Hn%elem_nodes_of. split.
      + intros Hz. destruct (decide (n = node_id (node_counter s'))) as [|Hne]; [done|].
        destruct (Hdeg n Hn Hne) as [Hb _]. unfold outdeg in Hb. lia.
      + intros ->. apply H0.
    - intros n. destruct (decide (n ∈ nodes_of s')) as [Hn|Hn].
      + destruct (decide (n = node_id (node_counter s'))) as [->|Hne].
        * unfold outdeg in H0. rewrite H0. lia.
        * destruct (Hdeg n Hn Hne) as [Hb _]. unfold outdeg in Hb. lia.
      + pose proof (outdeg_fresh _ _ Hwf Hn) as Hz. unfold outdeg in Hz. rewrite Hz. lia. }
  assert (nx.number_of_nodes (graph s') ≠ 0) as Hne.
  { unfold nx.number_of_nodes. intros Hz%map_size_empty_iff.
    apply elem_nodes_of in Hin as [a Ha]. unfold attrs_of in Ha.
    rewrite Hz in Ha. by rewrite lookup_empty in Ha. }
  exists s', (Z.of_nat (nx.number_of_nodes (graph s'))),
    (Z.of_nat (nx.number_of_edges (graph s'))),
    (Z.of_nat (predicates (graph s'))),
    (Z.of_nat (nx.number_of_edges (graph s'))
     - Z.of_nat (nx.number_of_nodes (graph s')) + 2)%Z.
  unfold calculate_metrics, graph_falsy.
  destruct (Nat.eqb_spec (nx.number_of_nodes (graph s')) 0) as [?|_]; [done|].
  split_and!; [done|reflexivity..|lia|lia].
Qed.

(** ** [parse] on a builder that has been used *)

Section Reuse.

Lemma exec_cursor_bound :
  (∀ s cur buf s' out k,
      block_exec s cur buf s' out k →
      cursor s ≤ length (lines s) → cursor s' ≤ length (lines s'))
  ∧ (∀ s exits kinds d s' exits' kinds' last',
      chain_exec s exits kinds d s' exits' kinds' last' →
      cursor s ≤ length (lines s) → cursor s' ≤ length (lines s')).
Proof.
  apply exec_mutind; intros;
    repeat match goal with
      | H : flush_buffer _ _ _ = _ |- _ => apply flush_buffer_fields in H
      | H : loop_head _ _ _ _ = _ |- _ => apply loop_head_fields in H
      | H : loop_tail _ _ _ = _ |- _ => apply loop_tail_fields in H
      | H : if_head _ _ _ _ = _ |- _ => apply if_head_fields in H
      | H : elif_head _ _ _ = _ |- _ => apply elif_head_fields in H
      | H : else_head _ _ = _ |- _ => apply else_head_fields in H
      | H : merge _ _ _ = _ |- _ => apply merge_fields in H
      | H : return_stmt _ _ _ _ = _ |- _ => apply return_stmt_fields in H
      | H : lines _ !! _ = Some _ |- _ => apply lookup_lt_Some in H
      | H : block_exec _ _ _ _ _ _ |- _ => apply block_exec_fields in H
      | H : chain_exec _ _ _ _ _ _ _ _ |- _ => apply chain_exec_fields in H
      end;
    simpl in *; destruct_and?;
    repeat match goal with
      | H : lines ?a = lines ?b |- _ => rewrite H in *; clear H
      end;
    repeat match goal with
      | H : ?A → _ |- _ =>
          let HA := fresh in assert A as HA by lia; specialize (H HA); clear HA
      end;
    lia.
Qed.

(** [parse_lines] from a well-formed builder: what is added is a
    component of its own. *)
Lemma parse_lines_reuse self m ls :
  wf self →
  ∃ s', parse_lines self m ls = Some s' ∧ wf s'
        ∧ node_counter self + 2 ≤ node_counter s'
        ∧ (∀ n a, attrs_of self n = Some a → attrs_of s' n = Some a)
        ∧ (∀ u v, u ∈ nodes_of self ∨ v ∈ nodes_of self → edge s' u v = edge self u v)
        ∧ attrs_of s' (node_id (S (node_counter self)))
          = Some (node_attrs "START" "oval" "filled" "#C8E6C9")
        ∧ (∀ n, n ∈ nodes_of s' →
                n ∈ nodes_of self ∨ reach s' (node_id (S (node_counter self))) n).
Proof.
  intros Hwf. unfold parse_lines. cbv zeta.
  assert (wf (mkBuilder (graph self) (node_counter self) ls 0 m)) as Hwf0.
  { split; [apply (wf_ids _ Hwf)|apply (wf_edges _ Hwf)]. }
  destruct (new_node "START" "oval" "filled" "#C8E6C9" _) as [start s1] eqn:Hnew.
  destruct (new_node_wf _ _ _ _ _ _ _ Hwf0 Hnew) as (Hwf1 & Hext1 & Hdom1 & Hattr1).
  destruct (new_node_spec _ _ _ _ _ _ _ Hwf0 Hnew) as (Hid & Hfresh & Hc1 & _ & Hadj1).
  simpl in Hid, Hc1.
  assert (start ∈ nodes_of s1) as Hin by (rewrite Hdom1; set_solver).
  assert (outdeg s1 start = 0) as H0.
  { apply outdeg_0. intros v. apply eq_None_not_Some. intros Hv.
    apply Hfresh. apply (wf_edges _ Hwf0 start v). unfold edge_rel, edge in *.
    by rewrite <- Hadj1. }
  destruct (parse_block_total s1 start) as [[s2 last] Hrun]. rewrite Hrun.
  destruct (proj1 (loops_sound _) _ _ _ _ _ Hrun) as [k Hexec].
  pose proof (proj1 exec_flow _ _ _ _ _ _ Hexec Hwf1 Hin H0) as F1.
  destruct (proj1 exec_invariant _ _ _ _ _ _ Hexec Hwf1 Hin) as [P1 _].
  pose proof (bp_wf _ _ _ _ P1) as Hwf2. pose proof (bp_out _ _ _ _ P1) as Hlast.
  destruct (new_node "END" "oval" "filled" "#FFCDD2" s2) as [e s3] eqn:Hend.
  destruct (spawn_shape _ _ _ _ _ _ None _ _ Hwf2 Hlast Hend)
    as (P2 & Hfresh2 & Hdom2 & Hattr2 & He2).
  pose proof (spawn_flow _ _ _ _ _ _ None _ _ Hwf2 Hlast (fl_sink _ _ _ _ F1) Hend) as F2.
  pose proof (flow_trans _ _ _ _ _ _ Hwf1 Hin P1 P2 F1 F2) as F.
  pose proof (post_trans _ _ _ _ _ _ Hwf1 P1 P2) as P.
  destruct (new_node_spec _ _ _ _ _ _ _ Hwf2 Hend) as (_ & _ & Hc3 & _).
  pose proof (ext_counter _ _ (bp_ext _ _ _ _ P1)) as Hc2.
  assert (nodes_of self ⊆ nodes_of s1) as Hsub.
  { rewrite Hdom1. unfold nodes_of at 1. simpl. set_solver. }
  eexists. split; [reflexivity|]. split_and!.
  - apply P.
  - rewrite connect_counter, Hc3. lia.
  - intros n a Ha. apply (ext_nodes _ _ (bp_ext _ _ _ _ P)). by apply Hext1.
  - intros u v [Hu|Hv].
    + rewrite (fl_old _ _ _ _ F) by (by apply Hsub || (intros ->; done)).
      unfold edge. by rewrite Hadj1.
    + rewrite (ext_edges _ _ (bp_ext _ _ _ _ P)) by by apply Hsub.
      unfold edge. by rewrite Hadj1.
  - rewrite <- Hid. apply (ext_nodes _ _ (bp_ext _ _ _ _ P)).
    by rewrite Hattr1, clean_label_START.
  - intros n Hn. rewrite <- Hid.
    destruct (bp_reach _ _ _ _ P n Hn) as [Hn1|Hr]; [|by right].
    rewrite Hdom1 in Hn1. apply elem_of_union in Hn1 as [->%elem_of_singleton|Hn0].
    + right. apply rtc_refl.
    + by left.
Qed.

End Reuse.

(** X9. Whenever [parse] returns, on any builder, fresh or not, the
    builder then holds the lines and the mode that the text normalises
    to, and the cursor is within the lines: the block parser changes
    neither lines nor mode and never moves the cursor past the end. *)
Theorem parse_leaves_lines_and_cursor (self : UniversalCFGBuilder)
    (code_text : string) (s' : UniversalCFGBuilder) :
  parse self code_text = Some s' →
  mode s' = (normalize code_text).1
  ∧ lines s' = (normalize code_text).2
  ∧ cursor s' ≤ length (lines s').
Proof.
  unfold parse. destruct (normalize code_text) as [m ls]. simpl.
  unfold parse_lines. cbv zeta.
  destruct (new_node "START" "oval" "filled" "#C8E6C9" _) as [start s1] eqn:Hnew.
  apply new_node_fields in Hnew as (Hl1 & Hc1 & Hm1). simpl in Hl1, Hc1, Hm1.
  destruct (parse_block s1 start) as [[s2 last]|] eqn:Hrun; [|done].
  destruct (proj1 (loops_sound _) _ _ _ _ _ Hrun) as [k Hexec].
  destruct (block_exec_fields _ _ _ _ _ _ Hexec) as (Hl2 & Hm2 & _).
  pose proof (proj1 exec_cursor_bound _ _ _ _ _ _ Hexec) as Hb.
  destruct (new_node "END" "oval" "filled" "#FFCDD2" s2) as [e s3] eqn:Hend.
  apply new_node_fields in Hend as (Hl3 & Hc3 & Hm3).
  intros [= <-].
  rewrite connect_mode, connect_lines, connect_cursor, Hm3, Hl3, Hc3.
  split_and!; [congruence|congruence|].
  apply Hb. rewrite Hc1. lia.
Qed.

Lemma parse_leaves_lines_and_cursor_witness :
  ∃ s', parse init ("if x:" +:+ PyStr.nl +:+ "  y = 1") = Some s'
        ∧ lines s' = ["if x:"; "y = 1"] ∧ cursor s' ≤ 2.
Proof.
  destruct (parse init ("if x:" +:+ PyStr.nl +:+ "  y = 1")) as [s'|] eqn:H.
  - destruct (parse_leaves_lines_and_cursor _ _ _ H) as (_ & Hl & Hc).
    exists s'. split; [reflexivity|]. rewrite Hl in Hc |- *.
    split; [vm_compute; reflexivity|exact Hc].
  - vm_compute in H. discriminate H.
Defined.

(** X10. [parse] on a builder that is well formed, as every builder is that
    has only been used through [parse], keeps what the graph holds: the
    nodes keep their attributes, no edge from or to one of them is added,
    removed or relabeled, and at least two ids are used up.  The nodes
    that are added start with a START node of the next id, and each of
    them is reached from it.  The builder is well formed again. *)
Theorem parse_adds_component (self : UniversalCFGBuilder) (code_text : string) :
  wf self →
  ∃ s', parse self code_text = Some s' ∧ wf s'
        ∧ node_counter self + 2 ≤ node_counter s'
        ∧ (∀ n a, attrs_of self n = Some a → attrs_of s' n = Some a)
        ∧ (∀ u v, u ∈ nodes_of self ∨ v ∈ nodes_of self → edge s' u v = edge self u v)
        ∧ attrs_of s' (node_id (S (node_counter self)))
          = Some (node_attrs "START" "oval" "filled" "#C8E6C9")
        ∧ (∀ n, n ∈ nodes_of s' →
                n ∈ nodes_of self ∨ reach s' (node_id (S (node_counter self))) n).
Proof.
  intros Hwf. unfold parse. destruct (normalize code_text) as [m ls].
  by apply parse_lines_reuse.
Qed.

(** ** Straight-line code and stray lines *)

Section StraightLine.

(** Section 7 repeated: plain statements are collected in the buffer. *)
Lemma block_loop_statements stmts :
  ∀ fuel s cur buf,
    (∀ i line, stmts !! i = Some line →
               lines s !! (cursor s + i) = Some line
               ∧ classify (mode s) line = KStatement) →
    block_loop (length stmts + fuel) s cur buf
    = block_loop fuel
        (mkBuilder (graph s) (node_counter s) (lines s) (cursor s + length stmts) (mode s))
        cur (buf ++ stmts).
Proof.
  induction stmts as [|x stmts IH]; intros fuel s cur buf H.
  - simpl. rewrite Nat.add_0_r, app_nil_r. by destruct s.
  - change (length (x :: stmts) + fuel) with (S (length stmts + fuel)).
    rewrite block_loop_S.
    destruct (H 0 x eq_refl) as [Hl Hk]. rewrite Nat.add_0_r in Hl. rewrite Hl, Hk.
    rewrite IH.
    + simpl. rewrite <- app_assoc. simpl. by rewrite Nat.add_succ_r.
    + intros i line Hi. destruct (H (S i) line Hi) as [Hl' Hk']. simpl.
      by rewrite Nat.add_succ_r in Hl'.
Qed.

Lemma parse_lines_statements m x l :
  Forall (λ line, classify m line = KStatement) (x :: l) →
  ∃ s', parse_lines init m (x :: l) = Some s'
        ∧ graph s' = straight_line_graph (clean_label (PyStr.join PyStr.nl (x :: l)))
        ∧ node_counter s' = 3 ∧ cursor s' = length (x :: l).
Proof.
  intros Hall. rewrite parse_lines_unfold. unfold parse_block.
  replace (enough_fuel (start_state m (x :: l))) with (length (x :: l) + 1)
    by (unfold enough_fuel; simpl; lia).
  rewrite block_loop_statements.
  - rewrite block_loop_S.
    rewrite (lookup_ge_None_2 (x :: l)) by (simpl; lia).
    unfold flush_buffer, finish, new_node. simpl app.
    generalize (clean_label (PyStr.join PyStr.nl (x :: l))). intros lab.
    eexists. split; [reflexivity|]. split_and!; [|reflexivity|reflexivity].
    vm_compute. reflexivity.
  - intros i line Hi. split; [done|].
    by apply (Forall_lookup_1 _ _ _ _ Hall Hi).
Qed.

End StraightLine.

(** X11. A program of plain statements only (no line that starts with a
    keyword, no brace line), however many, gives the graph with START,
    one box and END: the box is labeled with the cleaned text of all
    lines joined by newlines, the two edges are unlabeled, and the metrics
    are Nodes = 3, Edges = 2, Complexity = 1, Predicates = 0. *)
Theorem straight_line_is_one_node (code_text : string) :
  (normalize code_text).2 ≠ [] →
  Forall (λ line, classify (normalize code_text).1 line = KStatement)
         (normalize code_text).2 →
  ∃ s', parse init code_text = Some s'
        ∧ graph s'
          = straight_line_graph
              (clean_label (PyStr.join PyStr.nl (normalize code_text).2))
        ∧ cursor s' = length (normalize code_text).2
        ∧ calculate_metrics (graph s') !! "Nodes" = Some 3%Z
        ∧ calculate_metrics (graph s') !! "Edges" = Some 2%Z
        ∧ calculate_metrics (graph s') !! "Complexity" = Some 1%Z
        ∧ calculate_metrics (graph s') !! "Predicates" = Some 0%Z.
Proof.
  unfold parse. destruct (normalize code_text) as [m [|x l]]; simpl; [done|].
  intros _ Hall.
  destruct (parse_lines_statements m x l Hall) as (s' & Hrun & Hg & _ & Hc).
  exists s'. split_and!; [done|done|done|..]; rewrite Hg;
    generalize (clean_label (PyStr.join PyStr.nl (x :: l))); intros lab;
    vm_compute; reflexivity.
Qed.

Lemma straight_line_is_one_node_witness :
  ∃ s', parse init ("x = 1" +:+ PyStr.nl +:+ "print(x)") = Some s'
        ∧ label_of s' "N2" = Some ("x = 1" +:+ PyStr.nl +:+ "print(x)")
        ∧ calculate_metrics (graph s') !! "Nodes" = Some 3%Z.
Proof.
  destruct (straight_line_is_one_node ("x = 1" +:+ PyStr.nl +:+ "print(x)"))
    as (s' & Hrun & Hg & _ & Hn & _).
  - vm_compute. discriminate.
  - vm_compute. repeat constructor.
  - exists s'. split; [exact Hrun|]. split; [|exact Hn].
    unfold label_of, attrs_of. rewrite Hg. vm_compute. reflexivity.
Defined.

Section StrayLines.

Lemma classify_branch_end_inv m line :
  classify m line = KBranchEnd →
  PyStr.startswith line "elif" || PyStr.startswith line "else" = true.
Proof.
  unfold classify.
  repeat match goal with |- context [if ?c then _ else _] => destruct c end;
    congruence.
Qed.

Lemma classify_block_end_inv m line :
  classify m line = KBlockEnd → m = c_style ∧ line = "}".
Proof.
  unfold classify.
  destruct (_ || _); [done|].
  destruct (Mode_eqb m c_style && String.eqb line "}") eqn:H.
  - intros _. apply andb_prop in H as [Hm Hl]. apply String.eqb_eq in Hl.
    split; [by destruct m|done].
  - repeat match goal with |- context [if ?c then _ else _] => destruct c end;
      congruence.
Qed.

End StrayLines.

(** X12. Let the top-level call of the block parser, on the lines [ls] of a
    fresh builder, leave at a line that starts with elif or else and
    belongs to no if, or, in c_style mode, at a closing brace that closes
    no block.  Then [parse] ends there: its graph is the one built up to
    that line plus END, and whatever lines follow have no effect on it. *)
Theorem stray_line_ends_parse (m : Mode) (ls : list string)
    (s1 : UniversalCFGBuilder) (last : string) (k : ExitKind) :
  block_exec (start_state m ls) "N1" [] s1 last k →
  k = ByPeek ∨ k = ByBrace →
  parse_lines init m ls = Some (finish s1 last)
  ∧ (∃ c line, ls !! c = Some line
               ∧ examined k (cursor s1) = S c
               ∧ match k with
                 | ByPeek => PyStr.startswith line "elif"
                             || PyStr.startswith line "else" = true
                 | _ => m = c_style ∧ line = "}"
                 end)
  ∧ ∀ rest, ∃ s',
      parse_lines init m (take (examined k (cursor s1)) ls ++ rest) = Some s'
      ∧ graph s' = graph (finish s1 last)
      ∧ node_counter s' = node_counter (finish s1 last).
Proof.
  intros Hexec Hk.
  pose proof (block_exit_cursor _ _ _ _ _ _ Hexec) as Hexit.
  destruct (block_exec_fields _ _ _ _ _ _ Hexec) as (Hlines & Hmode & _).
  change (lines (start_state m ls)) with ls in Hlines.
  change (mode (start_state m ls)) with m in Hmode.
  rewrite Hlines, Hmode in Hexit.
  assert (∃ c line, ls !! c = Some line
               ∧ examined k (cursor s1) = S c
               ∧ match k with
                 | ByPeek => PyStr.startswith line "elif"
                             || PyStr.startswith line "else" = true
                 | _ => m = c_style ∧ line = "}"
                 end) as Hstray.
  { destruct Hk as [-> | ->].
    - destruct Hexit as (line & Hl & Hc). exists (cursor s1), line.
      split; [done|]. split; [done|]. by eapply classify_branch_end_inv.
    - destruct Hexit as (c & Hc & _ & line & Hl & Hcl). exists c, line.
      split; [done|]. split; [done|]. by eapply classify_block_end_inv. }
  split_and!; [by eapply parse_lines_exec|done|].
  destruct Hstray as (c & line & Hl & Hex & _).
  intros rest. set (L := take (examined k (cursor s1)) ls ++ rest).
  assert (take (examined k (cursor s1)) L = take (examined k (cursor s1)) ls) as HL.
  { unfold L. apply lookup_lt_Some in Hl.
    rewrite take_app_le by (rewrite length_take; lia).
    rewrite take_take. f_equal. lia. }
  pose proof (proj1 exec_relines _ _ _ _ _ _ Hexec L HL) as HexecL.
  change (with_lines L (start_state m ls)) with (start_state m L) in HexecL.
  exists (finish (with_lines L s1) last).
  split; [by apply (parse_lines_exec _ _ _ _ _ HexecL)|].
  rewrite finish_relines. done.
Qed.

Lemma stray_line_ends_parse_witness :
  ∃ s', parse_lines init python_style ["a"; "else:"; "b"; "while c:"] = Some s'
        ∧ nx.number_of_nodes (graph s') = 3.
Proof.
  pose (ls := ["a"; "else:"; "b"; "while c:"]).
  pose (r := flush_buffer (advance (start_state python_style ls)) "N1" ["a"]).
  assert (block_exec (start_state python_style ls) "N1" [] r.1 r.2 ByPeek) as Hexec.
  { eapply exec_statement; [reflexivity|reflexivity|].
    eapply exec_peek; reflexivity. }
  destruct (stray_line_ends_parse python_style ls r.1 r.2 ByPeek Hexec (or_introl eq_refl))
    as (Hparse & _ & _).
  exists (finish r.1 r.2). split; [exact Hparse|]. vm_compute. reflexivity.
Defined.

Lemma parse_adds_component_witness :
  ∃ s1 s2, parse init "a" = Some s1 ∧ parse s1 "b" = Some s2
           ∧ node_counter s1 + 2 ≤ node_counter s2.
Proof.
  destruct (parse_adds_component init "a" (wf_init_lines c_style []))
    as (s1 & H1 & Hwf1 & _).
  destruct (parse_adds_component s1 "b" Hwf1) as (s2 & H2 & _ & Hc & _).
  exists s1, s2. split; [exact H1|]. split; [exact H2|exact Hc].
Defined.

(** ** The normalised lines *)

Section Normalised.

Lemma lstrip_head s :
  PyStr.lstrip s = EmptyString
  ∨ ∃ c r, PyStr.lstrip s = String c r ∧ PyStr.isspace c = false.
Proof.
  induction s as [|c s IH]; simpl; [by left|].
  destruct (PyStr.isspace c) eqn:Hc; [done|]. right. by exists c, s.
Qed.

Lemma rstrip_cons c s :
  PyStr.rstrip (String c s)
  = match PyStr.rstrip s with
    | EmptyString => if PyStr.isspace c then EmptyString else String c EmptyString
    | r => String c r
    end.
Proof. reflexivity. Qed.

Lemma rstrip_cons_nonspace c s :
  PyStr.isspace c = false → PyStr.rstrip (String c s) = String c (PyStr.rstrip s).
Proof. intros Hc. rewrite rstrip_cons, Hc. by destruct (PyStr.rstrip s). Qed.

Lemma rstrip_idem s : PyStr.rstrip (PyStr.rstrip s) = PyStr.rstrip s.
Proof.
  induction s as [|c s IH]; [done|]. rewrite rstrip_cons.
  destruct (PyStr.rstrip s) as [|d r] eqn:Hr.
  - destruct (PyStr.isspace c) eqn:Hc; [done|].
    by rewrite rstrip_cons, Hc.
  - rewrite rstrip_cons, IH. done.
Qed.

(** A stripped line is stripped: it neither starts nor ends with
    whitespace. *)
Lemma strip_idem s : PyStr.strip (PyStr.strip s) = PyStr.strip s.
Proof.
  unfold PyStr.strip.
  destruct (lstrip_head s) as [->|(c & r & -> & Hc)]; [done|].
  rewrite (rstrip_cons_nonspace _ _ Hc). simpl PyStr.lstrip. rewrite Hc.
  rewrite (rstrip_cons_nonspace _ _ Hc). by rewrite rstrip_idem.
Qed.

Lemma contains_char_lstrip c s :
  PyStr.contains_char c s = false → PyStr.contains_char c (PyStr.lstrip s) = false.
Proof.
  induction s as [|d s IH]; simpl; [done|].
  intros [Hd Hs]%orb_false_iff. destruct (PyStr.isspace d); [by apply IH|].
  simpl. by rewrite Hd, Hs.
Qed.

Lemma contains_char_rstrip c s :
  PyStr.contains_char c s = false → PyStr.contains_char c (PyStr.rstrip s) = false.
Proof.
  induction s as [|d s IH]; [done|]. intros H. simpl in H.
  apply orb_false_iff in H as [Hd Hs]. rewrite rstrip_cons. specialize (IH Hs).
  destruct (PyStr.rstrip s) as [|e r].
  - destruct (PyStr.isspace d); [done|]. simpl. by rewrite Hd.
  - simpl in *. by rewrite Hd, IH.
Qed.

Lemma contains_char_strip c s :
  PyStr.contains_char c s = false → PyStr.contains_char c (PyStr.strip s) = false.
Proof. intros H. by apply contains_char_rstrip, contains_char_lstrip. Qed.

Lemma contains_char_cons c d s :
  PyStr.contains_char c (String d s) = Ascii.eqb c d || PyStr.contains_char c s.
Proof. reflexivity. Qed.

(** A line of [split] holds no newline, and no character the text does
    not hold. *)
Lemma split_lines_chars s :
  Forall (λ l, PyStr.contains_char PyStr.newline l = false
               ∧ ∀ c, PyStr.contains_char c s = false → PyStr.contains_char c l = false)
         (PyStr.split_lines s).
Proof.
  induction s as [|d s IH]; simpl PyStr.split_lines.
  - by repeat constructor.
  - destruct (Ascii.eqb_spec d PyStr.newline) as [->|Hd].
    + constructor; [done|]. eapply Forall_impl; [exact IH|]. cbv beta.
      intros l [Hn Hc]. split; [done|]. intros c.
      rewrite contains_char_cons. intros [_ Hs]%orb_false_iff. by apply Hc.
    + assert (Ascii.eqb PyStr.newline d = false) as Hd'.
      { apply Ascii.eqb_neq. congruence. }
      destruct (PyStr.split_lines s) as [|h t].
      * repeat constructor.
        -- by rewrite contains_char_cons, Hd'.
        -- intros c. rewrite !contains_char_cons.
           intros [Hcd _]%orb_false_iff. by rewrite Hcd.
      * apply Forall_cons in IH as [[Hn Hc] Ht]. constructor.
        -- split; [by rewrite contains_char_cons, Hd', Hn|].
           intros c. rewrite !contains_char_cons.
           intros [Hcd Hs]%orb_false_iff. by rewrite Hcd, Hc.
        -- eapply Forall_impl; [exact Ht|]. cbv beta.
           intros l [Hn' Hc']. split; [done|]. intros c.
           rewrite contains_char_cons. intros [_ Hs]%orb_false_iff. by apply Hc'.
Qed.

(** The comment marker is gone after [re.sub]. *)
Lemma strip_comments_go_marker c b s :
  c ≠ PyStr.newline →
  PyStr.contains_char c (PyStr.strip_comments_go (String c EmptyString) b s) = false.
Proof.
  intros Hc. revert b. induction s as [|d s IH]; intros b; [done|].
  destruct b.
  - change (PyStr.strip_comments_go (String c EmptyString) true (String d s))
      with (if Ascii.eqb d PyStr.newline
            then String d (PyStr.strip_comments_go (String c EmptyString) false s)
            else PyStr.strip_comments_go (String c EmptyString) true s).
    destruct (Ascii.eqb_spec d PyStr.newline) as [->|Hd]; [|apply IH].
    rewrite contains_char_cons, IH, orb_false_r. by apply Ascii.eqb_neq.
  - change (PyStr.strip_comments_go (String c EmptyString) false (String d s))
      with (if String.prefix (String c EmptyString) (String d s)
            then PyStr.strip_comments_go (String c EmptyString) true s
            else String d (PyStr.strip_comments_go (String c EmptyString) false s)).
    change (String.prefix (String c EmptyString) (String d s))
      with (if ascii_dec c d then String.prefix EmptyString s else false).
    destruct (ascii_dec c d) as [<-|Hne].
    + assert (String.prefix EmptyString s = true) as -> by by destruct s.
      apply IH.
    + rewrite contains_char_cons, IH, orb_false_r. by apply Ascii.eqb_neq.
Qed.

Lemma normalised_lines T :
  Forall (λ line, line ≠ EmptyString ∧ PyStr.strip line = line
                  ∧ PyStr.contains_char PyStr.newline line = false
                  ∧ ∀ c, PyStr.contains_char c T = false →
                         PyStr.contains_char c line = false)
         (List.filter PyStr.truthy (List.map PyStr.strip (PyStr.split_lines T))).
Proof.
  pose proof (split_lines_chars T) as H.
  induction H as [|l ls [Hn Hc] _ IH]; simpl; [constructor|].
  destruct (PyStr.truthy (PyStr.strip l)) eqn:Ht; [|done].
  constructor; [|done]. split_and!.
  - intros Heq. by rewrite Heq in Ht.
  - apply strip_idem.
  - by apply contains_char_strip.
  - intros c Hcs. by apply contains_char_strip, Hc.
Qed.

End Normalised.

(** X13. Every line that [parse] works on is non-empty, has no whitespace
    at either end and holds no newline; in python_style mode it holds no
    comment marker #. *)
Theorem normalized_lines_are_trimmed (code_text : string) :
  Forall (λ line, line ≠ EmptyString
                  ∧ PyStr.strip line = line
                  ∧ PyStr.contains_char PyStr.newline line = false
                  ∧ ((normalize code_text).1 = python_style →
                     PyStr.contains_char "#" line = false))
         (normalize code_text).2.
Proof.
  unfold normalize.
  destruct (PyStr.contains_char "{" code_text && PyStr.contains_char "}" code_text).
  - simpl. eapply Forall_impl; [apply normalised_lines|]. simpl.
    intros line (H1 & H2 & H3 & _). done.
  - simpl. eapply Forall_impl; [apply normalised_lines|]. simpl.
    intros line (H1 & H2 & H3 & H4). split_and!; [done..|]. intros _.
    apply H4. unfold PyStr.strip_comments. by apply strip_comments_go_marker.
Qed.

(** ** Braces stand on lines of their own *)

Section Braces.

Variable b : ascii.
Hypothesis b_not_newline : b ≠ PyStr.newline.

#[local] Arguments Ascii.eqb : simpl never.

Lemma isolated_weaken a s : isolated b a s → isolated b true s.
Proof.
  destruct s as [|c s]; [done|]. simpl.
  destruct (Ascii.eqb c b); [|done]. by intros (_ & ? & ?).
Qed.

Lemma isolated_app a p s :
  PyStr.contains_char b p = false → (∀ a', isolated b a' s) → isolated b a (p +:+ s).
Proof.
  revert a. induction p as [|c p IH]; intros a Hp Hs; [apply Hs|].
  rewrite contains_char_cons in Hp. apply orb_false_iff in Hp as [Hc Hp].
  change (isolated b a (String c (p +:+ s))). simpl.
  rewrite Ascii.eqb_sym, Hc. by apply IH.
Qed.

Lemma replace_go_cons old new c s :
  PyStr.replace_go old new 0 (String c s)
  = if String.prefix old (String c s)
    then new +:+ PyStr.replace_go old new (String.length old - 1) s
    else String c (PyStr.replace_go old new 0 s).
Proof. reflexivity. Qed.

Lemma replace_go_skip old new k c s :
  PyStr.replace_go old new (S k) (String c s) = PyStr.replace_go old new k s.
Proof. reflexivity. Qed.

(** After the replacement of [b] by newline, [b], newline. *)
Lemma isolated_replace_self a s :
  isolated b a
    (PyStr.replace (String b EmptyString)
       (String PyStr.newline (String b (String PyStr.newline EmptyString))) s).
Proof.
  unfold PyStr.replace. revert a. induction s as [|c s IH]; intros a; [done|].
  rewrite replace_go_cons.
  change (String.prefix (String b EmptyString) (String c s))
    with (if ascii_dec b c then String.prefix EmptyString s else false).
  assert (Ascii.eqb PyStr.newline b = false) as Hnb.
  { apply Ascii.eqb_neq. congruence. }
  destruct (ascii_dec b c) as [<-|Hne].
  - assert (String.prefix EmptyString s = true) as -> by by destruct s.
    change (String.length (String b EmptyString) - 1) with 0.
    change (isolated b a (String PyStr.newline (String b (String PyStr.newline
              (PyStr.replace_go (String b EmptyString)
                 (String PyStr.newline (String b (String PyStr.newline EmptyString)))
                 0 s))))).
    simpl. rewrite Hnb, Ascii.eqb_refl.
    split_and!; [done|by eexists|]. apply IH.
  - simpl. assert (Ascii.eqb c b = false) as -> by (apply Ascii.eqb_neq; congruence).
    apply IH.
Qed.

Lemma prefix_clear_of p s :
  String.prefix p s = true →
  PyStr.contains_char b p = false → PyStr.contains_char PyStr.newline p = false →
  clear_of b (String.length p) s.
Proof.
  revert s. induction p as [|c p IH]; intros s Hpre Hb Hn; [done|].
  destruct s as [|d s]; [done|]. simpl in Hpre.
  destruct (ascii_dec c d) as [<-|]; [|done].
  rewrite contains_char_cons in Hb, Hn.
  apply orb_false_iff in Hb as [Hcb Hb]. apply orb_false_iff in Hn as [Hcn Hn].
  simpl. split_and!.
  - intros ->. by rewrite Ascii.eqb_refl in Hcb.
  - intros ->. by rewrite Ascii.eqb_refl in Hcn.
  - by apply IH.
Qed.

(** The replacement of a text that holds neither [b] nor a newline, by
    a text that does not hold [b], keeps every [b] between its newlines. *)
Lemma isolated_replace_go o old new s :
  PyStr.contains_char b (String o old) = false →
  PyStr.contains_char PyStr.newline (String o old) = false →
  PyStr.contains_char b new = false →
  ∀ k a_in a_out,
    clear_of b k s → isolated b a_in s →
    (k = 0 → a_in = true → a_out = true) → (0 < k → a_in = false) →
    isolated b a_out (PyStr.replace_go (String o old) new k s).
Proof.
  intros Hob Hon Hnew.
  pose proof Hob as Hob'. pose proof Hon as Hon'.
  rewrite contains_char_cons in Hob', Hon'.
  apply orb_false_iff in Hob' as [Hbo _]. apply orb_false_iff in Hon' as [Hno _].
  induction s as [|c s IH]; intros k a_in a_out Hclear Hiso H0 Hk; [by destruct k|].
  destruct k as [|k].
  - rewrite replace_go_cons.
    destruct (String.prefix (String o old) (String c s)) eqn:Hpre.
    + pose proof (prefix_clear_of _ _ Hpre Hob Hon) as Hcl.
      simpl in Hcl. destruct Hcl as (Hcb & Hcn & Hcl).
      simpl in Hiso.
      assert (Ascii.eqb c b = false) as Ecb by by apply Ascii.eqb_neq.
      assert (Ascii.eqb c PyStr.newline = false) as Ecn by by apply Ascii.eqb_neq.
      rewrite Ecb, Ecn in Hiso.
      apply isolated_app; [done|]. intros a'.
      change (String.length (String o old) - 1) with (String.length old - 0).
      rewrite Nat.sub_0_r.
      apply (IH _ false a'); [done|done| |done].
      intros _ ?. done.
    + simpl in Hiso |- *. destruct (Ascii.eqb c b) eqn:Ecb.
      * destruct Hiso as (Ha & [r ->] & Hiso). split_and!.
        -- by apply H0.
        -- rewrite replace_go_cons.
           change (String.prefix (String o old) (String PyStr.newline r))
             with (if ascii_dec o PyStr.newline then String.prefix old r else false).
           destruct (ascii_dec o PyStr.newline) as [->|_].
           ++ by rewrite Ascii.eqb_refl in Hno.
           ++ by eexists.
        -- apply (IH 0 false false); [done|done|done|lia].
      * apply (IH 0 (Ascii.eqb c PyStr.newline) (Ascii.eqb c PyStr.newline));
          [done|done|done|lia].
  - rewrite replace_go_skip. simpl in Hclear. destruct Hclear as (Hcb & Hcn & Hcl).
    rewrite (Hk ltac:(lia)) in Hiso. simpl in Hiso.
    assert (Ascii.eqb c b = false) as Ecb by by apply Ascii.eqb_neq.
    assert (Ascii.eqb c PyStr.newline = false) as Ecn by by apply Ascii.eqb_neq.
    rewrite Ecb, Ecn in Hiso.
    apply (IH k false a_out); [done|done| |done].
    intros _ ?. done.
Qed.

Lemma isolated_replace o old new a s :
  PyStr.contains_char b (String o old) = false →
  PyStr.contains_char PyStr.newline (String o old) = false →
  PyStr.contains_char b new = false →
  isolated b a s → isolated b a (PyStr.replace (String o old) new s).
Proof.
  intros Hob Hon Hnew Hiso. unfold PyStr.replace.
  apply (isolated_replace_go o old new s Hob Hon Hnew 0 a a); [by destruct s|done|done|lia].
Qed.

(** In the lines of such a text, a line that holds [b] is [b]. *)
Lemma isolated_split_lines a s :
  isolated b a s →
  match PyStr.split_lines s with
  | h :: t =>
      (PyStr.contains_char b h = true → a = true ∧ h = String b EmptyString)
      ∧ Forall (λ l, PyStr.contains_char b l = true → l = String b EmptyString) t
  | [] => True
  end.
Proof.
  assert (Ascii.eqb b PyStr.newline = false) as Hbn by by apply Ascii.eqb_neq.
  revert a. induction s as [|c s IH]; intros a Hiso.
  - simpl. split; [done|constructor].
  - simpl in Hiso. simpl PyStr.split_lines.
    destruct (Ascii.eqb_spec c b) as [->|Hcb].
    + destruct Hiso as (-> & [r ->] & Hiso). rewrite Hbn.
      specialize (IH false Hiso). simpl PyStr.split_lines in IH |- *.
      cbv iota in IH |- *. destruct IH as [_ IH].
      split; [done|exact IH].
    + assert (Ascii.eqb b c = false) as Ebc by (apply Ascii.eqb_neq; congruence).
      destruct (Ascii.eqb_spec c PyStr.newline) as [->|Hcn].
      * specialize (IH true Hiso). split; [done|].
        destruct (PyStr.split_lines s) as [|h t]; [constructor|].
        destruct IH as [Hh Ht]. constructor; [|done].
        intros Hc. by destruct (Hh Hc).
      * specialize (IH false Hiso).
        destruct (PyStr.split_lines s) as [|h t].
        -- split; [|constructor]. rewrite contains_char_cons, Ebc. done.
        -- destruct IH as [Hh Ht]. split; [|done].
           rewrite contains_char_cons, Ebc. simpl. intros Hc. by destruct (Hh Hc).
Qed.

Lemma isolated_lines a s :
  isolated b a s → PyStr.strip (String b EmptyString) = String b EmptyString →
  Forall (λ line, PyStr.contains_char b line = true → line = String b EmptyString)
         (List.filter PyStr.truthy (List.map PyStr.strip (PyStr.split_lines s))).
Proof.
  intros Hiso Hstrip.
  assert (Forall (λ l, PyStr.contains_char b l = true → l = String b EmptyString)
            (PyStr.split_lines s)) as Hall.
  { pose proof (isolated_split_lines true s (isolated_weaken _ _ Hiso)) as H.
    destruct (PyStr.split_lines s) as [|h t]; [constructor|].
    destruct H as [Hh Ht]. constructor; [|done]. intros Hc. by destruct (Hh Hc). }
  induction Hall as [|l ls Hl _ IH]; simpl; [constructor|].
  destruct (PyStr.truthy (PyStr.strip l)); [|done].
  constructor; [|done]. intros Hc.
  destruct (PyStr.contains_char b l) eqn:Hcl.
  - by rewrite (Hl eq_refl).
  - by rewrite (contains_char_strip _ _ Hcl) in Hc.
Qed.

End Braces.

(** X14. In c_style mode every brace stands on a line of its own: a line
    that [parse] works on and that holds an opening brace is the line of
    that one character, and likewise for a closing brace.  So the tests
    for a block start and a block end see every brace of the text. *)
Theorem braces_on_own_lines (code_text : string) :
  (normalize code_text).1 = c_style →
  Forall (λ line, (PyStr.contains_char "{" line = true → line = "{")
                  ∧ (PyStr.contains_char "}" line = true → line = "}"))
         (normalize code_text).2.
Proof.
  unfold normalize.
  destruct (PyStr.contains_char "{" code_text && PyStr.contains_char "}" code_text);
    [|done].
  simpl. intros _.
  assert ("{"%char ≠ PyStr.newline) as Ho by done.
  assert ("}"%char ≠ PyStr.newline) as Hc by done.
  set (T0 := PyStr.strip_comments "//" code_text).
  set (T1 := PyStr.replace "{" (PyStr.nl +:+ "{" +:+ PyStr.nl) T0).
  set (T2 := PyStr.replace "}" (PyStr.nl +:+ "}" +:+ PyStr.nl) T1).
  assert (isolated "{" true T1) as H1 by apply (isolated_replace_self "{" Ho).
  assert (isolated "}" true T2) as H2 by apply (isolated_replace_self "}" Hc).
  assert (isolated "{" true T2) as H1'.
  { apply (isolated_replace "{" "}" EmptyString); [reflexivity..|exact H1]. }
  apply Forall_and. split.
  - apply (isolated_lines "{" Ho true); [|reflexivity].
    apply (isolated_replace "{" "e" "lse if"); [reflexivity..|].
    apply (isolated_replace "{" ";" EmptyString); [reflexivity..|exact H1'].
  - apply (isolated_lines "}" Hc true); [|reflexivity].
    apply (isolated_replace "}" "e" "lse if"); [reflexivity..|].
    apply (isolated_replace "}" ";" EmptyString); [reflexivity..|exact H2].
Qed.

Lemma braces_on_own_lines_witness :
  (normalize "while (x) { y; }").1 = c_style
  ∧ Forall (λ line, (PyStr.contains_char "{" line = true → line = "{")
                    ∧ (PyStr.contains_char "}" line = true → line = "}"))
           (normalize "while (x) { y; }").2.
Proof.
  split; [vm_compute; reflexivity|].
  apply braces_on_own_lines. vm_compute. reflexivity.
Defined.

(** ** A return inside a branch (C4) *)

Section ReturnInBranch.

Implicit Types s : UniversalCFGBuilder.

Lemma chain_branches_S fuel self last_decision :
  chain_branches (S fuel) self last_decision =
    match lines self !! cursor self with
    | None => []
    | Some next_line =>
        match classify_chain next_line with
        | CElif =>
            let '(self1, elif_node) := elif_head self last_decision next_line in
            match block_loop fuel self1 elif_node [] with
            | None => []
            | Some (self2, elif_end) =>
                mkBranch fuel self1 elif_node self2 elif_end
                :: chain_branches fuel self2 elif_node
            end
        | CElse =>
            let '(self1, else_start) := else_head self last_decision in
            match block_loop fuel self1 else_start [] with
            | None => []
            | Some (self2, else_end) => [mkBranch fuel self1 else_start self2 else_end]
            end
        | COther => []
        end
    end.
Proof. reflexivity. Qed.

(** The exits that the loop of section 5.B records are the nodes that its
    calls of the block parser return, in order. *)
Lemma chain_branches_spec fuel :
  ∀ s exits d s3 exits' last,
    chain_loop fuel s exits d = Some (s3, exits', last) →
    exits' = exits ++ map bc_exit (chain_branches fuel s d)
    ∧ ∀ b, b ∈ chain_branches fuel s d →
           block_loop (bc_fuel b) (bc_in b) (bc_entry b) []
           = Some (bc_out b, bc_exit b).
Proof.
  induction fuel as [|fuel IH]; intros s exits d s3 exits' last; [done|].
  rewrite chain_loop_S, chain_branches_S.
  destruct (lines s !! cursor s) as [line|].
  - destruct (classify_chain line).
    + destruct (elif_head s d line) as [s1 e].
      destruct (block_loop fuel s1 e []) as [[s2 ee]|] eqn:Hb; [|done].
      intros Hch. destruct (IH _ _ _ _ _ _ Hch) as [-> Hcalls].
      split; [by rewrite <- app_assoc|].
      intros b [->|Hin]%elem_of_cons; [done|by apply Hcalls].
    + destruct (else_head s d) as [s1 e].
      destruct (block_loop fuel s1 e []) as [[s2 ee]|] eqn:Hb; [|done].
      intros [= <- <- <-]. split; [done|].
      by intros b ->%list_elem_of_singleton.
    + intros [= <- <- <-]. split; [by rewrite app_nil_r|].
      by intros b Hin%elem_of_nil.
  - intros [= <- <- <-]. split; [by rewrite app_nil_r|].
    by intros b Hin%elem_of_nil.
Qed.

(** Each of these calls is made on a well-formed builder at one of its
    nodes, and what it leaves is kept up to the end of the loop. *)
Lemma chain_branches_built fuel :
  ∀ s exits d s3 exits' last,
    chain_loop fuel s exits d = Some (s3, exits', last) →
    wf s → d ∈ nodes_of s →
    built s s3
    ∧ ∀ b, b ∈ chain_branches fuel s d →
           wf (bc_in b) ∧ bc_entry b ∈ nodes_of (bc_in b)
           ∧ lines (bc_in b) = lines s
           ∧ wf (bc_out b) ∧ built (bc_out b) s3.
Proof.
  induction fuel as [|fuel IH]; intros s exits d s3 exits' last; [done|].
  rewrite chain_loop_S, chain_branches_S.
  destruct (lines s !! cursor s) as [line|].
  - destruct (classify_chain line).
    + destruct (elif_head s d line) as [s1 e] eqn:Hh.
      destruct (block_loop fuel s1 e []) as [[s2 ee]|] eqn:Hb; [|done].
      intros Hch Hwf Hd.
      destruct (elif_head_built _ _ _ _ _ Hwf Hd Hh) as [B1 He].
      destruct (built_wf _ _ B1 Hwf) as (Hwf1 & _).
      destruct (proj1 (loops_sound fuel) _ _ _ _ _ Hb) as [kb Eb].
      destruct (proj1 exec_built _ _ _ _ _ _ Eb Hwf1 He) as [B2 Hee].
      destruct (built_wf _ _ B2 Hwf1) as (Hwf2 & Hsub2 & _).
      destruct (IH _ _ _ _ _ _ Hch Hwf2 (Hsub2 _ He)) as [B3 Hbs].
      apply elif_head_fields in Hh as (Hl1 & _).
      destruct (block_exec_fields _ _ _ _ _ _ Eb) as (Hl2 & _).
      split; [eapply built_trans; [exact B1|]; by eapply built_trans|].
      intros b [->|Hin]%elem_of_cons; [by simpl|].
      destruct (Hbs b Hin) as (? & ? & Hl & ? & ?).
      split_and!; [done|done|congruence|done|done].
    + destruct (else_head s d) as [s1 e] eqn:Hh.
      destruct (block_loop fuel s1 e []) as [[s2 ee]|] eqn:Hb; [|done].
      intros [= <- <- <-] Hwf Hd.
      destruct (else_head_built _ _ _ _ Hwf Hd Hh) as [B1 He].
      destruct (built_wf _ _ B1 Hwf) as (Hwf1 & _).
      destruct (proj1 (loops_sound fuel) _ _ _ _ _ Hb) as [kb Eb].
      destruct (proj1 exec_built _ _ _ _ _ _ Eb Hwf1 He) as [B2 Hee].
      destruct (built_wf _ _ B2 Hwf1) as (Hwf2 & _).
      apply else_head_fields in Hh as (Hl1 & _).
      split; [by eapply built_trans|].
      intros b ->%list_elem_of_singleton. simpl.
      split_and!; [done..|apply rtc_refl].
    + intros [= <- <- <-] _ _. split; [apply rtc_refl|].
      by intros b Hin%elem_of_nil.
  - intros [= <- <- <-] _ _. split; [apply rtc_refl|].
    by intros b Hin%elem_of_nil.
Qed.

Lemma built_return_node s s' n :
  built s s' → wf s → is_return_node s n → is_return_node s' n.
Proof.
  intros Hb Hwf (line & Hkw & Ha). exists line. split; [done|].
  by apply (proj1 (built_mono _ _ Hb Hwf)).
Qed.

(** A call that leaves through a return line has come, in its own loop, to
    a well-formed builder at that line, and what it returns is what
    section 6 makes of it. *)
Lemma block_exit_return_wf s cur buf s' out k :
  block_exec s cur buf s' out k →
  wf s → cur ∈ nodes_of s → k = ByReturn →
  ∃ s0 cur0 buf0 line,
    wf s0 ∧ cur0 ∈ nodes_of s0
    ∧ lines s0 = lines s ∧ cursor s ≤ cursor s0
    ∧ lines s0 !! cursor s0 = Some line
    ∧ PyStr.startswith line "return" = true
    ∧ return_stmt s0 cur0 buf0 line = (s', out).
Proof.
  revert s cur buf s' out k.
  apply (block_exec_ind2
           (λ s cur buf s' out k,
              wf s → cur ∈ nodes_of s → k = ByReturn →
              ∃ s0 cur0 buf0 line,
                wf s0 ∧ cur0 ∈ nodes_of s0
                ∧ lines s0 = lines s ∧ cursor s ≤ cursor s0
                ∧ lines s0 !! cursor s0 = Some line
                ∧ PyStr.startswith line "return" = true
                ∧ return_stmt s0 cur0 buf0 line = (s', out))
           (λ _ _ _ _ _ _ _ _, True)); try done.
  - (* opening brace *)
    intros s cur buf line s' out k _ _ _ IH Hwf Hcur Hk.
    destruct (IH (wf_advance _ Hwf) Hcur Hk)
      as (s0 & cur0 & buf0 & rl & ? & ? & Hl & Hc & ? & ? & ?).
    exists s0, cur0, buf0, rl. simpl in Hl, Hc. split_and!; [done..|lia|done|done|done].
  - (* loop *)
    intros s cur buf line s1 h s2 body_end kb s3 e s' out k
      _ _ Hh Hbody _ Ht Hrest IH Hwf Hcur Hk.
    pose proof (loop_head_fields _ _ _ _ _ _ Hh) as (Hl1 & Hc1 & _).
    rewrite loop_head_line_node in Hh.
    destruct (line_node_built _ _ _ _ _ _ _ _ Hwf Hcur shape_diamond Hh) as [B1 Hh1].
    destruct (built_wf _ _ B1 Hwf) as (Hwf1 & _).
    destruct (proj1 exec_built _ _ _ _ _ _ Hbody Hwf1 Hh1) as [B2 Hbe].
    destruct (built_wf _ _ B2 Hwf1) as (Hwf2 & Hsub2 & _).
    destruct (loop_tail_built _ _ _ _ _ Hwf2 Hbe (Hsub2 _ Hh1) Ht) as [B3 He].
    destruct (built_wf _ _ B3 Hwf2) as (Hwf3 & _).
    destruct (block_exec_fields _ _ _ _ _ _ Hbody) as (Hl2 & _ & Hc2).
    pose proof (loop_tail_fields _ _ _ _ _ Ht) as (Hl3 & Hc3 & _).
    destruct (IH Hwf3 He Hk) as (s0 & cur0 & buf0 & rl & ? & ? & Hl & Hc & ? & ? & ?).
    exists s0, cur0, buf0, rl. split_and!; [done|done|congruence|lia|done|done|done].
  - (* conditional chain *)
    intros s cur buf line s1 c s2 true_end kb s3 exits kinds last s4 m s' out k
      _ _ Hh Hbody _ Hchain _ Hm Hrest IH Hwf Hcur Hk.
    pose proof (if_head_fields _ _ _ _ _ _ Hh) as (Hl1 & Hc1 & _).
    rewrite if_head_line_node in Hh.
    destruct (line_node_built _ _ _ _ _ _ _ _ Hwf Hcur shape_diamond Hh) as [B1 Hc1'].
    destruct (built_wf _ _ B1 Hwf) as (Hwf1 & _).
    destruct (proj1 exec_built _ _ _ _ _ _ Hbody Hwf1 Hc1') as [B2 Hte].
    destruct (built_wf _ _ B2 Hwf1) as (Hwf2 & Hsub2 & _).
    destruct (proj2 exec_built _ _ _ _ _ _ _ _ Hchain Hwf2 (Hsub2 _ Hc1'))
      as (B3 & Hexits & Hlast & [rest ->]).
    { by intros p ->%list_elem_of_singleton. }
    destruct (built_wf _ _ B3 Hwf2) as (Hwf3 & _).
    destruct (merge_built _ _ _ _ _ _ Hwf3 Hexits Hlast Hm) as [B4 Hm4].
    destruct (built_wf _ _ B4 Hwf3) as (Hwf4 & _).
    destruct (block_exec_fields _ _ _ _ _ _ Hbody) as (Hl2 & _ & Hc2).
    destruct (chain_exec_fields _ _ _ _ _ _ _ _ Hchain) as (Hl3 & _ & Hc3).
    pose proof (merge_fields _ _ _ _ _ Hm) as (Hl4 & Hc4 & _).
    destruct (IH Hwf4 Hm4 Hk) as (s0 & cur0 & buf0 & rl & ? & ? & Hl & Hc & ? & ? & ?).
    exists s0, cur0, buf0, rl. split_and!; [done|done|congruence|lia|done|done|done].
  - (* return *)
    intros s cur buf line s' out Hl Hc Hr Hwf Hcur _.
    exists s, cur, buf, line. split_and!; [done..|by eapply classify_return_inv|done].
  - (* plain statement *)
    intros s cur buf line s' out k _ _ _ IH Hwf Hcur Hk.
    destruct (IH (wf_advance _ Hwf) Hcur Hk)
      as (s0 & cur0 & buf0 & rl & ? & ? & Hl & Hc & ? & ? & ?).
    exists s0, cur0, buf0, rl. simpl in Hl, Hc. split_and!; [done..|lia|done|done|done].
Qed.

(** A branch call that leaves through a return line ends at that line. *)
Lemma branch_ends_at_return (b : BranchCall) :
  wf (bc_in b) → bc_entry b ∈ nodes_of (bc_in b) →
  block_exec (bc_in b) (bc_entry b) [] (bc_out b) (bc_exit b) ByReturn →
  ends_at_return_line b ∧ is_return_node (bc_out b) (bc_exit b).
Proof.
  intros Hwf Hin Hexec.
  destruct (block_exit_return_wf _ _ _ _ _ _ Hexec Hwf Hin eq_refl)
    as (s0 & cur0 & buf0 & line & Hwf0 & Hcur0 & Hl & Hc & Hline & Hkw & Hr).
  pose proof Hr as Hr'. rewrite return_stmt_line_node in Hr'.
  destruct (line_node_post _ _ _ _ _ _ _ _ Hwf0 Hcur0 Hr')
    as (s0' & pred & Hf & _ & _ & Hfresh & _ & _ & Hattr & Hedge & Hcur').
  split.
  - exists s0, cur0, buf0, line, s0', pred. split_and!; try done.
    + intros fuel0. rewrite block_loop_S, Hline, (classify_return _ _ Hkw). by rewrite Hr.
    + rewrite Hedge. by rewrite decide_True.
  - by exists line.
Qed.

End ReturnInBranch.

(** C4. When the block parser of a well-formed builder is at a line that
    starts with if, it parses the first branch with one call of its own and
    every elif and else branch with one more; the exits recorded for the
    merge step are the nodes these calls return, in order.  Each branch
    call whose loop comes to a return line ends there: it returns what
    section 6 makes at that line, for whatever fuel (the buffer flushed, a
    box node with the highlighted fill for the line, an unlabeled edge from
    the predecessor, the line consumed and no line after it looked at).
    In the finished call the node is a return node and has an unlabeled
    edge to the merge node of the chain. *)
Theorem return_in_branch (fuel : nat) (s : UniversalCFGBuilder) (cur : string)
    (buf : list string) (line : string) (s' : UniversalCFGBuilder) (out : string) :
  wf s → cur ∈ nodes_of s →
  lines s !! cursor s = Some line →
  PyStr.startswith line "if" = true →
  block_loop (S fuel) s cur buf = Some (s', out) →
  ∃ s1 cond_node s2 true_end s3 exit_points last_decision s4 merge_node,
    if_head s cur buf line = (s1, cond_node)
    ∧ block_loop fuel s1 cond_node [] = Some (s2, true_end)
    ∧ chain_loop fuel s2 [true_end] cond_node = Some (s3, exit_points, last_decision)
    ∧ merge s3 exit_points last_decision = (s4, merge_node)
    ∧ block_loop fuel s4 merge_node [] = Some (s', out)
    ∧ attrs_of s' merge_node = Some (node_attrs "Merge" "point" "filled" "white")
    ∧ exit_points
      = map bc_exit (mkBranch fuel s1 cond_node s2 true_end
                     :: chain_branches fuel s2 cond_node)
    ∧ ∀ b, b ∈ mkBranch fuel s1 cond_node s2 true_end
               :: chain_branches fuel s2 cond_node →
        block_loop (bc_fuel b) (bc_in b) (bc_entry b) [] = Some (bc_out b, bc_exit b)
        ∧ lines (bc_in b) = lines s
        ∧ (block_exec (bc_in b) (bc_entry b) [] (bc_out b) (bc_exit b) ByReturn →
           ends_at_return_line b
           ∧ is_return_node s' (bc_exit b)
           ∧ edge s' (bc_exit b) merge_node = Some None).
Proof.
  intros Hwf Hcur Hline Hkw Hrun.
  rewrite block_loop_S, Hline, (classify_if _ _ Hkw) in Hrun.
  destruct (if_head s cur buf line) as [s1 c] eqn:Hh.
  destruct (block_loop fuel s1 c []) as [[s2 true_end]|] eqn:Hb; [|done].
  destruct (chain_loop fuel s2 [true_end] c) as [[[s3 exits] last]|] eqn:Hch; [|done].
  destruct (merge s3 exits last) as [s4 m] eqn:Hm.
  destruct (proj1 (loops_sound fuel) _ _ _ _ _ Hb) as [kb Eb].
  destruct (proj2 (loops_sound fuel) _ _ [kb] _ _ _ _ Hch) as [kinds Ech].
  destruct (proj1 (loops_sound fuel) _ _ _ _ _ Hrun) as [k Erest].
  destruct (conditional_post _ _ _ _ _ _ _ _ _ _ _ _ _ _ _ _ _ _
              Hwf Hcur Hh Eb Ech Hm Erest)
    as (_ & _ & Hattr & Hedge & Hdec & _).
  pose proof (if_head_fields _ _ _ _ _ _ Hh) as (Hl1 & _).
  pose proof Hh as Hh'. rewrite if_head_line_node in Hh'.
  destruct (line_node_built _ _ _ _ _ _ _ _ Hwf Hcur shape_diamond Hh') as [B1 Hc1].
  destruct (built_wf _ _ B1 Hwf) as (Hwf1 & _).
  destruct (proj1 exec_built _ _ _ _ _ _ Eb Hwf1 Hc1) as [B2 Hte].
  destruct (built_wf _ _ B2 Hwf1) as (Hwf2 & Hsub2 & _).
  destruct (block_exec_fields _ _ _ _ _ _ Eb) as (Hl2 & _).
  destruct (chain_branches_spec _ _ _ _ _ _ _ Hch) as [Hexits Hcalls].
  destruct (chain_branches_built _ _ _ _ _ _ _ Hch Hwf2 (Hsub2 _ Hc1)) as [B3 Hbs].
  destruct (built_wf _ _ B3 Hwf2) as (Hwf3 & Hsub3 & _).
  assert (built s3 s') as B35.
  { destruct (proj2 exec_built _ _ _ _ _ _ _ _ Ech Hwf2 (Hsub2 _ Hc1))
      as (_ & Hex3 & Hlast3 & [rest Hrest]).
    { by intros p ->%list_elem_of_singleton. }
    rewrite Hrest in Hm, Hex3.
    destruct (merge_built _ _ _ _ _ _ Hwf3 Hex3 Hlast3 Hm) as [B4 Hm4].
    destruct (built_wf _ _ B4 Hwf3) as (Hwf4 & _).
    destruct (proj1 exec_built _ _ _ _ _ _ Erest Hwf4 Hm4) as [B5 _].
    by eapply built_trans. }
  exists s1, c, s2, true_end, s3, exits, last, s4, m.
  split_and!; [done..|].
  assert (∀ b, b ∈ mkBranch fuel s1 c s2 true_end :: chain_branches fuel s2 c →
               block_loop (bc_fuel b) (bc_in b) (bc_entry b) []
               = Some (bc_out b, bc_exit b)
               ∧ wf (bc_in b) ∧ bc_entry b ∈ nodes_of (bc_in b)
               ∧ lines (bc_in b) = lines s
               ∧ wf (bc_out b) ∧ built (bc_out b) s3) as Hall.
  { intros b [->|Hin]%elem_of_cons.
    - simpl. split_and!; [done..|].
      done.
    - destruct (Hbs b Hin) as (? & ? & Hl & ? & ?).
      split_and!; [by apply Hcalls|done|done|congruence|done|done]. }
  intros b Hb'. destruct (Hall b Hb') as (Hcall & Hwfb & Hinb & Hlb & Hwfo & Bo).
  split_and!; [done|done|]. intros Hret.
  destruct (branch_ends_at_return b Hwfb Hinb Hret) as [Hend Hrn].
  assert (is_return_node s' (bc_exit b)) as Hrn'.
  { apply (built_return_node (bc_out b)); [by eapply built_trans|done|done]. }
  split_and!; [done|done|].
  rewrite Hedge. rewrite decide_False.
  - rewrite decide_True; [done|]. rewrite Hexits.
    change ([true_end] ++ map bc_exit (chain_branches fuel s2 c))
      with (map bc_exit (mkBranch fuel s1 c s2 true_end :: chain_branches fuel s2 c)).
    apply list_elem_of_In, in_map. by apply list_elem_of_In.
  - intros Hlast. by eapply return_not_decision, Hdec.
Qed.

Lemma return_in_branch_witness :
  ∃ s' out ret merge_node,
    block_loop 3 (start_state python_style ["if x:"; "return 1"]) "N1" []
      = Some (s', out)
    ∧ is_return_node s' ret ∧ edge s' ret merge_node = Some None.
Proof.
  pose (s := start_state python_style ["if x:"; "return 1"]).
  destruct (start_state_wf python_style ["if x:"; "return 1"]) as [Hwf Hin].
  destruct (proj1 (loops_total 3) s "N1" []) as [[s' out] Hrun]; [simpl; lia|].
  destruct (return_in_branch 2 s "N1" [] "if x:" s' out Hwf Hin eq_refl eq_refl Hrun)
    as (s1 & c & s2 & true_end & s3 & exits & last & s4 & m
        & Hh & Hb & _ & _ & _ & _ & _ & Hall).
  destruct (Hall (mkBranch 2 s1 c s2 true_end)) as (_ & _ & Hret); [left|].
  simpl in Hret.
  assert (block_exec s1 c [] s2 true_end ByReturn) as Hexec.
  { destruct (if_head_fields _ _ _ _ _ _ Hh) as (Hl1 & Hc1 & _).
    assert (lines s1 !! cursor s1 = Some "return 1") as Hl.
    { rewrite Hl1, Hc1. reflexivity. }
    assert (classify (mode s1) "return 1" = KReturn) as Hk
      by (apply classify_return; reflexivity).
    rewrite block_loop_S, Hl, Hk in Hb.
    eapply exec_return; [exact Hl|exact Hk|].
    exact (f_equal (λ o, match o with
                         | Some x => x
                         | None => return_stmt s1 c [] "return 1"
                         end) Hb). }
  destruct (Hret Hexec) as (_ & Hrn & Hedge).
  exists s', out, true_end, m. split; [exact Hrun|]. split; [exact Hrn|exact Hedge].
Defined.
